(** * mcp-cli: retry engine, transient-error classifier, result cache,
      bounded worker pool and the list / grep command flows.

    A shallow embedding of [src/client.ts], [src/cache.ts],
    [src/commands/list.ts] and [src/commands/grep.ts], with the properties of
    the specification stated and settled against it; then the settings and
    the variable substitution of [src/config.ts], with [formatCliError] of
    [src/errors.ts], the glob patterns of the
    grep command, the targets of the call and info commands and the
    clearing of the cache, with properties read off the code. *)

From Stdlib Require Import ZArith QArith Qround Qminmax Lia Lqa Ascii String List Sorted Permutation OrdersEx.
From stdpp Require Import gmap strings list.

Local Open Scope Z_scope.
Local Open Scope string_scope.

(* ===================================================================== *)
(** ** Regular expressions, as far as [isTransientError] uses them *)
(* ===================================================================== *)

Module Regex.

(** The fragment of ECMAScript regular expressions that occurs in
    [src/client.ts]: literals, [\s], concatenation, alternation, greedy
    repetition, the assertions [\b] and [^], and the [i] flag. Strings are
    byte strings; the classes [\w] and [\s] are their ASCII parts. *)
Inductive regex : Type :=
| Empty
| Char (c : ascii)
| Space
| Cat (r1 r2 : regex)
| Alt (r1 r2 : regex)
| Star (r : regex)
| WordBoundary
| LineStart.

Fixpoint Lit (s : string) : regex :=
  match s with
  | EmptyString => Empty
  | String c EmptyString => Char c
  | String c s' => Cat (Char c) (Lit s')
  end.

Definition Plus (r : regex) : regex := Cat r (Star r).
Definition Opt (r : regex) : regex := Alt r Empty.

Fixpoint AltL (rs : list regex) : regex :=
  match rs with
  | [] => Empty
  | [r] => r
  | r :: rs' => Alt r (AltL rs')
  end.

Definition in_range (lo hi : N) (c : ascii) : bool :=
  let n := N_of_ascii c in (lo <=? n)%N && (n <=? hi)%N.

Definition is_upper (c : ascii) : bool := in_range 65 90 c.
Definition is_lower (c : ascii) : bool := in_range 97 122 c.
Definition is_digit (c : ascii) : bool := in_range 48 57 c.

(** [\w] *)
Definition is_word (c : ascii) : bool :=
  is_upper c || is_lower c || is_digit c || Ascii.eqb c "_"%char.

(** [\s] *)
Definition is_space (c : ascii) : bool :=
  in_range 9 13 c || Ascii.eqb c " "%char.

Definition to_lower (c : ascii) : ascii :=
  if is_upper c then ascii_of_N (N_of_ascii c + 32) else c.

Definition char_eq (ignore_case : bool) (c x : ascii) : bool :=
  if ignore_case then Ascii.eqb (to_lower c) (to_lower x) else Ascii.eqb c x.

(** A position in the subject: the character just before it, if any, and
    the rest of the input. *)
Definition pos : Type := option ascii * list ascii.

Definition word_before (p : pos) : bool :=
  match fst p with Some c => is_word c | None => false end.
Definition word_after (p : pos) : bool :=
  match snd p with c :: _ => is_word c | [] => false end.

Section Matcher.
Variable ignore_case : bool.

(** Repetition: every iteration has to consume input, and at most
    [fuel] iterations are tried, longest first. *)
Fixpoint star_ends (body : pos -> list pos) (fuel : nat) (p : pos) : list pos :=
  match fuel with
  | O => [p]
  | S fuel' =>
      flat_map
        (fun q => if (length (snd q) <? length (snd p))%nat
                  then star_ends body fuel' q else [])
        (body p) ++ [p]
  end.

(** All positions at which a match of [r] that starts at [p] can end, in
    the order a backtracking matcher tries them. *)
Fixpoint ends (r : regex) (p : pos) : list pos :=
  match r with
  | Empty => [p]
  | Char c =>
      match snd p with
      | x :: rest => if char_eq ignore_case c x then [(Some x, rest)] else []
      | [] => []
      end
  | Space =>
      match snd p with
      | x :: rest => if is_space x then [(Some x, rest)] else []
      | [] => []
      end
  | Cat r1 r2 => flat_map (ends r2) (ends r1 p)
  | Alt r1 r2 => ends r1 p ++ ends r2 p
  | Star r' => star_ends (ends r') (length (snd p)) p
  | WordBoundary => if xorb (word_before p) (word_after p) then [p] else []
  | LineStart => match fst p with None => [p] | Some _ => [] end
  end.

Definition matches_at (r : regex) (p : pos) : bool :=
  match ends r p with [] => false | _ :: _ => true end.

(** The match is tried at every start position, the end of the input
    included. *)
Fixpoint search (r : regex) (prev : option ascii) (input : list ascii) : bool :=
  matches_at r (prev, input) ||
  match input with
  | [] => false
  | x :: rest => search r (Some x) rest
  end.
End Matcher.

(** [/r/.test(s)] and [/r/i.test(s)] *)
Definition test (r : regex) (s : string) : bool :=
  search false r None (list_ascii_of_string s).
Definition test_i (r : regex) (s : string) : bool :=
  search true r None (list_ascii_of_string s).

End Regex.

(* ===================================================================== *)
(** ** [src/client.ts]: transient-error classifier *)
(* ===================================================================== *)

Module Client.
Import Regex.

(** A JavaScript [Error], possibly a [NodeJS.ErrnoException] with a [code]. *)
Record Error : Type := mkError {
  message : string;
  code : option string;
}.

Definition transientCodes : list string :=
  [ "ECONNREFUSED"; "ECONNRESET"; "ETIMEDOUT"; "ENOTFOUND";
    "EPIPE"; "ENETUNREACH"; "EHOSTUNREACH"; "EAI_AGAIN" ].

Definition includes (l : list string) (s : string) : bool :=
  existsb (String.eqb s) l.

Definition status_codes : regex :=
  AltL [Lit "502"; Lit "503"; Lit "504"; Lit "429"].

(** [/^(502|503|504|429)\b/] *)
Definition re_status_leading : regex :=
  Cat LineStart (Cat status_codes WordBoundary).

(** [/\b(http|status(\s+code)?)\s*(502|503|504|429)\b/i] *)
Definition re_status_context : regex :=
  Cat WordBoundary
   (Cat (Alt (Lit "http") (Cat (Lit "status") (Opt (Cat (Plus Space) (Lit "code")))))
    (Cat (Star Space) (Cat status_codes WordBoundary))).

(** [/\b(502|503|504|429)\s+(bad gateway|service unavailable|gateway timeout|too many requests)/i] *)
Definition re_status_phrase : regex :=
  Cat WordBoundary
   (Cat status_codes
    (Cat (Plus Space)
         (AltL [Lit "bad gateway"; Lit "service unavailable";
                Lit "gateway timeout"; Lit "too many requests"]))).

(** [/network\s*(error|fail|unavailable|timeout)/i] *)
Definition re_network : regex :=
  Cat (Lit "network")
   (Cat (Star Space)
        (AltL [Lit "error"; Lit "fail"; Lit "unavailable"; Lit "timeout"])).

(** [/connection\s*(reset|refused|timeout)/i] *)
Definition re_connection : regex :=
  Cat (Lit "connection")
   (Cat (Star Space) (AltL [Lit "reset"; Lit "refused"; Lit "timeout"])).

(** [/\btimeout\b/i] *)
Definition re_timeout : regex :=
  Cat WordBoundary (Cat (Lit "timeout") WordBoundary).

(** [if (nodeError.code)]: a string is truthy unless it is empty. *)
Definition has_transient_code (e : Error) : bool :=
  match code e with
  | Some c => negb (String.eqb c EmptyString) && includes transientCodes c
  | None => false
  end.

Definition isTransientError (e : Error) : bool :=
  if has_transient_code e then true
  else
    let message := message e in
    if test re_status_leading message then true
    else if test_i re_status_context message then true
    else if test_i re_status_phrase message then true
    else if test_i re_network message then true
    else if test_i re_connection message then true
    else if test_i re_timeout message then true
    else false.

(** [new Error(msg)] *)
Definition new_Error (msg : string) : Error := mkError msg None.

(* --------------------------------------------------------------------- *)
(** *** Retry engine *)

Record RetryConfig : Type := mkRetryConfig {
  maxRetries : nat;
  baseDelayMs : Z;
  maxDelayMs : Q;
  totalBudgetMs : Z;
}.

(** [getRetryConfig], from the three values it reads from the environment
    ([getTimeoutMs()], [getMaxRetries()], [getRetryDelayMs()]). *)
Definition getRetryConfig (totalBudgetMs : Z) (maxRetries : nat) (baseDelayMs : Z)
  : RetryConfig :=
  let retryBudgetMs := Z.max 0 (totalBudgetMs - 5000) in
  {| maxRetries := maxRetries;
     baseDelayMs := baseDelayMs;
     maxDelayMs := Qmin (inject_Z 10000) (inject_Z retryBudgetMs / inject_Z 2);
     totalBudgetMs := totalBudgetMs |}.

(** [Math.round] on a rational *)
Definition Math_round (x : Q) : Z := Qfloor (x + (1 # 2)).

(** [calculateDelay]; [rnd] is the value of [Math.random()]. *)
Definition calculateDelay (attempt : nat) (config : RetryConfig) (rnd : Q) : Z :=
  let exponentialDelay := (inject_Z (baseDelayMs config) * inject_Z (2 ^ Z.of_nat attempt))%Q in
  let cappedDelay := Qmin exponentialDelay (maxDelayMs config) in
  let jitter := (cappedDelay * (1 # 4) * (rnd * inject_Z 2 - inject_Z 1))%Q in
  Math_round (cappedDelay + jitter).

Section WithRetry.
Context {T : Type}.

(** What [withRetry] cannot decide itself: the readings of the clock, the
    outcome of each invocation of the wrapped operation and the random
    numbers, each as a function of how many were asked for before. *)
Record Env : Type := mkEnv {
  Date_now : nat -> Z;
  fn : nat -> Error + T;
  Math_random : nat -> Q;
}.

(** What [withRetry] has done so far. *)
Record World : Type := mkWorld {
  clock_reads : nat;
  invocations : nat;
  randoms : nat;
  sleeps : list Z;
}.

Definition world0 : World := mkWorld 0 0 0 [].

(** [throw undefined] is [Thrown None]. *)
Inductive Outcome : Type :=
| Returned (v : T)
| Thrown (e : option Error).

Variable env : Env.
Variable config : RetryConfig.

Definition now (w : World) : Z * World :=
  (Date_now env (clock_reads w),
   mkWorld (S (clock_reads w)) (invocations w) (randoms w) (sleeps w)).

Definition invoke (w : World) : (Error + T) * World :=
  (fn env (invocations w),
   mkWorld (clock_reads w) (S (invocations w)) (randoms w) (sleeps w)).

Definition random (w : World) : Q * World :=
  (Math_random env (randoms w),
   mkWorld (clock_reads w) (invocations w) (S (randoms w)) (sleeps w)).

Definition sleep (ms : Z) (w : World) : World :=
  mkWorld (clock_reads w) (invocations w) (randoms w) (sleeps w ++ [ms]).

(** The [for] loop of [withRetry]; [iterations] is how many values of
    [attempt] are left, [maxRetries + 1 - attempt]. *)
Fixpoint retry_loop (iterations attempt : nat) (startTime : Z)
    (lastError : option Error) (w : World) : Outcome * World :=
  match iterations with
  | O => (Thrown lastError, w)
  | S iterations' =>
      let '(t, w) := now w in
      let elapsed := t - startTime in
      if (totalBudgetMs config <=? elapsed)%Z then (Thrown lastError, w)
      else
        let '(r, w) := invoke w in
        match r with
        | inr v => (Returned v, w)
        | inl error =>
            let '(t, w) := now w in
            let remainingBudget := totalBudgetMs config - (t - startTime) in
            let shouldRetry :=
              (attempt <? maxRetries config)%nat
              && isTransientError error
              && (1000 <? remainingBudget)%Z in
            if shouldRetry then
              let '(rnd, w) := random w in
              let delay := Z.min (calculateDelay attempt config rnd)
                                 (remainingBudget - 1000) in
              retry_loop iterations' (S attempt) startTime (Some error) (sleep delay w)
            else (Thrown (Some error), w)
        end
  end.

Definition withRetry : Outcome * World :=
  let '(startTime, w) := now world0 in
  retry_loop (S (maxRetries config)) 0 startTime None w.
End WithRetry.

Arguments Env T : clear implicits.
Arguments Outcome T : clear implicits.

End Client.

(* ===================================================================== *)
(** ** [processWithConcurrency]: the bounded worker pool *)
(* ===================================================================== *)

Module Pool.

Section Pool.
Context {T R : Type}.
Variable items : list T.
Variable processor : T -> nat -> R.

(** The variables the workers share ([currentIndex], [results]), the
    promises the suspended workers are awaiting, each with the index its
    worker claimed and the value it settles to, and the order in which
    the slots of [results] were assigned. *)
Record State : Type := mkState {
  currentIndex : nat;
  results : list (option R);
  pending : list (nat * R);
  writes : list nat;
}.

(** [new Array(items.length)], [currentIndex = 0] *)
Definition init : State :=
  mkState 0 (replicate (length items) None) [] [].

(** A worker at the head of its [while] loop: with
    [currentIndex < items.length] (the lookup succeeds) it claims the
    index, calls the processor and suspends at the [await]; otherwise it
    returns. *)
Definition worker (st : State) : State :=
  match items !! currentIndex st with
  | Some item =>
      let index := currentIndex st in
      mkState (S index) (results st)
              (pending st ++ [(index, processor item index)]) (writes st)
  | None => st
  end.

(** The [j]-th awaited promise settles: its worker assigns
    [results[index]] and goes round its loop. *)
Definition resume (j : nat) (st : State) : State :=
  match pending st !! j with
  | Some (index, value) =>
      worker (mkState (currentIndex st)
                      (<[index := Some value]> (results st))
                      (delete j (pending st))
                      (writes st ++ [index]))
  | None => st
  end.

(** The event loop: while a promise is awaited, [sched] says which one
    settles next. *)
Fixpoint run (sched : nat -> nat) (turn fuel : nat) (st : State) : State :=
  match fuel with
  | O => st
  | S fuel' =>
      match pending st with
      | [] => st
      | _ :: _ =>
          run sched (S turn) fuel'
              (resume (sched turn mod length (pending st)) st)
      end
  end.

(** [Array.from({ length: Math.min(maxConcurrency, items.length) }, () => worker())],
    then the event loop. Each turn assigns one slot, so [items.length]
    turns are all there can be. *)
Definition final (maxConcurrency : nat) (sched : nat -> nat) : State :=
  run sched 0 (length items)
      (Nat.iter (Nat.min maxConcurrency (length items)) worker init).

(** [await Promise.all(workers); return results]: the array is returned
    once no worker is suspended any more. *)
Definition processWithConcurrency (maxConcurrency : nat) (sched : nat -> nat)
  : option (list (option R)) :=
  let st := final maxConcurrency sched in
  match pending st with
  | [] => Some (results st)
  | _ :: _ => None
  end.

(** The array whose slot [i] holds [processor(items[i], i)]. *)
Definition expected : list (option R) :=
  imap (fun i item => Some (processor item i)) items.

(** [processor(items[i], i)], where there is an [items[i]]. *)
Definition value_at (i : nat) : option R :=
  (fun item => processor item i) <$> items !! i.

(** The invariant of the pool: the indices below [currentIndex] are the
    claimed ones, each either assigned already or awaited by exactly one
    worker, which will assign the right value; the other slots are
    empty. *)
Record pool_inv (st : State) : Prop := {
  inv_length : length (results st) = length items;
  inv_index : (currentIndex st <= length items)%nat;
  inv_claimed : (writes st ++ (fst <$> pending st))%list ≡ₚ seq 0 (currentIndex st);
  inv_pending : forall i v, (i, v) ∈ pending st -> value_at i = Some v;
  inv_assigned : forall i, i ∈ writes st -> results st !! i = Some (value_at i);
  inv_empty : forall i, i ∉ writes st -> (i < length items)%nat ->
                        results st !! i = Some None;
}.

(** With [k] workers started, either all of them are suspended or the
    items have run out. *)
Definition pool_busy (k : nat) (st : State) : Prop :=
  currentIndex st = length items \/ length (pending st) = k.
End Pool.

Arguments inv_length {T R items processor st} _.
Arguments inv_index {T R items processor st} _.
Arguments inv_claimed {T R items processor st} _.
Arguments inv_pending {T R items processor st} _ i v _.
Arguments inv_assigned {T R items processor st} _ i _.
Arguments inv_empty {T R items processor st} _ i _ _.

End Pool.

(* ===================================================================== *)
(** ** [src/cache.ts]: the on-disk tool-list cache *)
(* ===================================================================== *)

Module Cache.
Import Regex.

(** JSON values, which is what a cache file holds and what [JSON.parse]
    hands to [getCachedToolList] unvalidated. Numbers are integers here
    (time stamps and versions are); an object lists its own properties. *)
#[warnings="-register-all"] Inductive json : Type :=
| JNull
| JBool (b : bool)
| JNum (n : Z)
| JStr (s : string)
| JArr (elements : list json)
| JObj (properties : list (string * json)).

Record ToolInfo : Type := mkToolInfo {
  name : string;
  description : option string;
  inputSchema : json;
}.

(** What the cache reads from the process: two environment variables and
    the home directory. *)
Record Process : Type := mkProcess {
  MCP_CACHE_TTL : option string;
  MCP_NO_CACHE : option string;
  homedir : string;
}.

Definition DEFAULT_CACHE_TTL_SECONDS : Z := 3600.
Definition CACHE_VERSION : Z := 1.

(** [Number.parseInt(s, 10)]: leading white space, an optional sign, then
    the longest run of digits; [None] is [NaN]. *)
Fixpoint skip_spaces (s : list ascii) : list ascii :=
  match s with
  | c :: s' => if is_space c then skip_spaces s' else s
  | [] => []
  end.

Definition digit_value (c : ascii) : Z := Z.of_N (N_of_ascii c) - 48.

Fixpoint read_digits (acc : option Z) (s : list ascii) : option Z :=
  match s with
  | c :: s' =>
      if is_digit c
      then read_digits (Some (10 * default 0 acc + digit_value c)) s'
      else acc
  | [] => acc
  end.

Definition parseInt (s : string) : option Z :=
  match skip_spaces (list_ascii_of_string s) with
  | "-"%char :: s' => Z.opp <$> read_digits None s'
  | "+"%char :: s' => read_digits None s'
  | s' => read_digits None s'
  end.

(** A string is truthy unless it is empty. *)
Definition truthy_string (s : string) : bool := negb (String.eqb s EmptyString).

Definition getCacheTTLMs (proc : Process) : Z :=
  match MCP_CACHE_TTL proc with
  | Some envTTL =>
      if truthy_string envTTL then
        match parseInt envTTL with
        | Some seconds =>
            if (0 <? seconds)%Z then seconds * 1000
            else DEFAULT_CACHE_TTL_SECONDS * 1000
        | None => DEFAULT_CACHE_TTL_SECONDS * 1000
        end
      else DEFAULT_CACHE_TTL_SECONDS * 1000
  | None => DEFAULT_CACHE_TTL_SECONDS * 1000
  end.

Definition toLowerCase (s : string) : string :=
  string_of_list_ascii (map to_lower (list_ascii_of_string s)).

Definition isCacheDisabled (proc : Process) : bool :=
  match toLowerCase <$> MCP_NO_CACHE proc with
  | Some value => String.eqb value "true" || String.eqb value "1"
  | None => false
  end.

(** [join(a, b, ...)] of [node:path], for segments that need no
    normalising. *)
Definition join (segments : list string) : string :=
  String.concat "/" segments.

Definition getCacheDir (proc : Process) : string :=
  join [homedir proc; ".cache"; "mcp-cli"].

(** [serverName.replace(/[^a-z0-9_-]/gi, '_')], character by character.
    In a name of ASCII characters these are the UTF-16 code units the
    expression runs over; what is proved of names that share a file is
    stated for such names. *)
Definition safe_char (c : ascii) : ascii :=
  if is_lower c || is_upper c || is_digit c
     || Ascii.eqb c "_"%char || Ascii.eqb c "-"%char
  then c else "_"%char.

Definition getCacheFilePath (proc : Process) (serverName : string) : string :=
  let safeName := string_of_list_ascii (map safe_char (list_ascii_of_string serverName)) in
  join [getCacheDir proc; safeName ++ ".json"].

(** What a statement completes with. *)
Inductive exn : Type := SyntaxError | TypeError.

Inductive completion (A : Type) : Type :=
| Normal (a : A)
| Throw (e : exn).
Arguments Normal {A} a.
Arguments Throw {A} e.

Definition bind {A B : Type} (c : completion A) (k : A -> completion B) : completion B :=
  match c with
  | Normal a => k a
  | Throw e => Throw e
  end.

Notation "'do' x <- c ; k" := (bind c (fun x => k))
  (at level 10, x name, c at level 100, k at level 200).

(** [try { body } catch { return null }] *)
Definition try_or_null {A : Type} (body : completion (option A)) : completion (option A) :=
  match body with
  | Normal r => Normal r
  | Throw _ => Normal None
  end.

Fixpoint assoc (k : string) (properties : list (string * json)) : option json :=
  match properties with
  | (k', v) :: rest => if String.eqb k k' then Some v else assoc k rest
  | [] => None
  end.

(** [v.k] for a property name [k] that is neither an index nor [length]:
    a [TypeError] on [null], the property of an object, [undefined]
    ([None]) on anything else. *)
Definition get_prop (v : json) (k : string) : completion (option json) :=
  match v with
  | JNull => Throw TypeError
  | JObj properties => Normal (assoc k properties)
  | _ => Normal None
  end.

(** [v.length], evaluated for a log message only: a [TypeError] when [v] is
    [undefined] or [null]. *)
Definition read_length (v : option json) : completion unit :=
  match v with
  | None | Some JNull => Throw TypeError
  | Some _ => Normal tt
  end.

(** The record [{ serverName, tools, timestamp, version }] and the tool
    records as JSON; a [description] that is [undefined] is left out, as
    [JSON.stringify] does. *)
Definition tool_json (t : ToolInfo) : json :=
  JObj ([("name", JStr (name t))]
        ++ match description t with
           | Some d => [("description", JStr d)]
           | None => []
           end
        ++ [("inputSchema", inputSchema t)]).

Definition tools_json (tools : list ToolInfo) : json :=
  JArr (map tool_json tools).

Definition cached_json (serverName : string) (tools : list ToolInfo) (timestamp : Z) : json :=
  JObj [("serverName", JStr serverName);
        ("tools", tools_json tools);
        ("timestamp", JNum timestamp);
        ("version", JNum CACHE_VERSION)].

Section Platform.
(** The runtime's [JSON.parse] ([None]: it throws a [SyntaxError]),
    [JSON.stringify(_, null, 2)], the numeric value of a string
    ([None]: [NaN]) and [String(v)] of an array or object. *)
Variable JSON_parse : string -> option json.
Variable JSON_stringify : json -> string.
Variable StringToNumber : string -> option Z.
Variable ObjectToString : json -> string.

(** The operand of [now - cached.timestamp] as a number. *)
Definition ToNumber (v : option json) : option Z :=
  match v with
  | None => None
  | Some JNull => Some 0
  | Some (JBool b) => Some (Z.b2z b)
  | Some (JNum n) => Some n
  | Some (JStr s) => StringToNumber s
  | Some (JArr _ as o) | Some (JObj _ as o) => StringToNumber (ObjectToString o)
  end.

(** [age > ttl], false when [age] is [NaN] *)
Definition older_than (age : option Z) (ttl : Z) : bool :=
  match age with
  | Some a => (ttl <? a)%Z
  | None => false
  end.

Definition version_matches (v : option json) : bool :=
  match v with
  | Some (JNum n) => (n =? CACHE_VERSION)%Z
  | _ => false
  end.

(** The store: the files of the cache directory by path. *)
Definition read_cache_file (content : string) (proc : Process) (now : Z)
  : completion (option json) :=
  do cached <- match JSON_parse content with
               | Some v => Normal v
               | None => Throw SyntaxError
               end;
  do version <- get_prop cached "version";
  if negb (version_matches version) then Normal None
  else
    do timestamp <- get_prop cached "timestamp";
    let age := Z.sub now <$> ToNumber timestamp in
    let ttl := getCacheTTLMs proc in
    if older_than age ttl then Normal None
    else
      do tools <- get_prop cached "tools";
      do _u <- read_length tools;
      Normal tools.

Definition getCachedToolList (proc : Process) (now : Z)
    (fs : gmap string string) (serverName : string) : completion (option json) :=
  if isCacheDisabled proc then Normal None
  else
    let cacheFile := getCacheFilePath proc serverName in
    match fs !! cacheFile with
    | None => Normal None
    | Some content => try_or_null (read_cache_file content proc now)
    end.

(** [setCachedToolList]; the store takes every write, so the [catch] of
    the source has nothing to catch here. *)
Definition setCachedToolList (proc : Process) (now : Z)
    (fs : gmap string string) (serverName : string) (tools : list ToolInfo)
  : gmap string string :=
  if isCacheDisabled proc then fs
  else
    let cached := cached_json serverName tools now in
    let cacheFile := getCacheFilePath proc serverName in
    <[cacheFile := JSON_stringify cached]> fs.

(** What reading a cache file comes to once exceptions are caught: the
    [tools] of an object that has the current version and is not older
    than the TTL, unless they are [null] or missing. *)
Definition entry_tools (content : string) (proc : Process) (now : Z) : option json :=
  match JSON_parse content with
  | Some (JObj properties) =>
      if version_matches (assoc "version" properties) then
        if older_than (Z.sub now <$> ToNumber (assoc "timestamp" properties))
                      (getCacheTTLMs proc)
        then None
        else match assoc "tools" properties with
             | Some JNull | None => None
             | Some tools => Some tools
             end
      else None
  | _ => None
  end.
End Platform.

(* --------------------------------------------------------------------- *)
(** *** A JSON reader and writer

    An executable model of the runtime's [JSON.stringify(_, null, 2)] and
    [JSON.parse] on the values of [json], to run the cache on concrete
    stores. *)

Module Text.

Definition dquote : ascii := ascii_of_N 34.

Definition hex_digit (n : N) : ascii :=
  if (n <? 10)%N then ascii_of_N (48 + n) else ascii_of_N (87 + n).

(** One character of a string literal. *)
Definition escape_char (c : ascii) : list ascii :=
  let n := N_of_ascii c in
  if Ascii.eqb c dquote then ["\"%char; dquote]
  else if Ascii.eqb c "\"%char then ["\"; "\"]%char
  else if (n =? 8)%N then ["\"; "b"]%char
  else if (n =? 9)%N then ["\"; "t"]%char
  else if (n =? 10)%N then ["\"; "n"]%char
  else if (n =? 12)%N then ["\"; "f"]%char
  else if (n =? 13)%N then ["\"; "r"]%char
  else if (n <? 32)%N
       then ["\"; "u"; "0"; "0"; hex_digit (n / 16); hex_digit (n mod 16)]%char
  else [c].

Definition quote (s : string) : list ascii :=
  dquote :: flat_map escape_char (list_ascii_of_string s) ++ [dquote].

Fixpoint digits_of (fuel : nat) (n : N) (acc : list ascii) : list ascii :=
  let acc' := ascii_of_N (48 + n mod 10) :: acc in
  match fuel with
  | O => acc'
  | S fuel' => if (n <? 10)%N then acc' else digits_of fuel' (n / 10) acc'
  end.

Definition number (n : Z) : list ascii :=
  let m := Z.to_N (Z.abs n) in
  (if (n <? 0)%Z then ["-"%char] else []) ++ digits_of (N.to_nat (N.size m)) m [].

Definition newline (indent : nat) : list ascii :=
  ascii_of_N 10 :: repeat " "%char indent.

(** [JSON.stringify(v, null, 2)] at nesting depth [indent / 2] *)
Fixpoint write (indent : nat) (v : json) : list ascii :=
  match v with
  | JNull => list_ascii_of_string "null"
  | JBool true => list_ascii_of_string "true"
  | JBool false => list_ascii_of_string "false"
  | JNum n => number n
  | JStr s => quote s
  | JArr [] => ["["; "]"]%char
  | JArr (e :: es) =>
      "["%char :: newline (2 + indent) ++ write (2 + indent) e
      ++ flat_map (fun e' => ","%char :: newline (2 + indent) ++ write (2 + indent) e') es
      ++ newline indent ++ ["]"%char]
  | JObj [] => ["{"; "}"]%char
  | JObj (p :: ps) =>
      "{"%char :: newline (2 + indent) ++ quote (fst p) ++ [":"; " "]%char
      ++ write (2 + indent) (snd p)
      ++ flat_map (fun p' => ","%char :: newline (2 + indent) ++ quote (fst p')
                             ++ [":"; " "]%char ++ write (2 + indent) (snd p')) ps
      ++ newline indent ++ ["}"%char]
  end.

Definition stringify (v : json) : string := string_of_list_ascii (write 0 v).

(** JSON white space *)
Definition is_ws (c : ascii) : bool :=
  let n := N_of_ascii c in
  (n =? 32)%N || (n =? 9)%N || (n =? 10)%N || (n =? 13)%N.

Fixpoint skip_ws (s : list ascii) : list ascii :=
  match s with
  | c :: s' => if is_ws c then skip_ws s' else s
  | [] => []
  end.

Definition hex_value (c : ascii) : option N :=
  let n := N_of_ascii c in
  if is_digit c then Some (n - 48)%N
  else if in_range 97 102 c then Some (n - 87)%N
  else if in_range 65 70 c then Some (n - 55)%N
  else None.

(** The rest of a string literal, after the opening quote. *)
Fixpoint read_string (s : list ascii) (acc : list ascii) : option (string * list ascii) :=
  match s with
  | [] => None
  | c :: s' =>
      if Ascii.eqb c dquote then Some (string_of_list_ascii (rev acc), s')
      else if Ascii.eqb c "\"%char then
        match s' with
        | e :: s'' =>
            if Ascii.eqb e "u"%char then
              match s'' with
              | a :: b :: c1 :: d :: s3 =>
                  match hex_value a, hex_value b, hex_value c1, hex_value d with
                  | Some 0%N, Some 0%N, Some h, Some l =>
                      read_string s3 (ascii_of_N (16 * h + l) :: acc)
                  | _, _, _, _ => None
                  end
              | _ => None
              end
            else
              match (if Ascii.eqb e dquote then Some dquote
                     else if Ascii.eqb e "\"%char then Some "\"%char
                     else if Ascii.eqb e "/"%char then Some "/"%char
                     else if Ascii.eqb e "b"%char then Some (ascii_of_N 8)
                     else if Ascii.eqb e "t"%char then Some (ascii_of_N 9)
                     else if Ascii.eqb e "n"%char then Some (ascii_of_N 10)
                     else if Ascii.eqb e "f"%char then Some (ascii_of_N 12)
                     else if Ascii.eqb e "r"%char then Some (ascii_of_N 13)
                     else None) with
              | Some x => read_string s'' (x :: acc)
              | None => None
              end
        | [] => None
        end
      else if (N_of_ascii c <? 32)%N then None
      else read_string s' (c :: acc)
  end.

Fixpoint read_number (s : list ascii) (acc : Z) : Z * list ascii :=
  match s with
  | c :: s' => if is_digit c then read_number s' (10 * acc + digit_value c) else (acc, s)
  | [] => (acc, [])
  end.

Fixpoint strip_prefix (word s : list ascii) : option (list ascii) :=
  match word with
  | [] => Some s
  | c :: word' =>
      match s with
      | x :: s' => if Ascii.eqb c x then strip_prefix word' s' else None
      | [] => None
      end
  end.

Definition expect (word : string) (v : json) (s : list ascii) : option (json * list ascii) :=
  rest ← strip_prefix (list_ascii_of_string word) s; Some (v, rest).

(** A value, then the elements of an array after its first, then the
    properties of an object after its first; [fuel] bounds the nesting and
    the number of elements. *)
Fixpoint read_value (fuel : nat) (s : list ascii) : option (json * list ascii) :=
  match fuel with
  | O => None
  | S fuel' =>
      match skip_ws s with
      | [] => None
      | c :: s' =>
          if Ascii.eqb c "n"%char then expect "null" JNull (c :: s')
          else if Ascii.eqb c "t"%char then expect "true" (JBool true) (c :: s')
          else if Ascii.eqb c "f"%char then expect "false" (JBool false) (c :: s')
          else if Ascii.eqb c dquote then
            '(str, rest) ← read_string s' []; Some (JStr str, rest)
          else if Ascii.eqb c "-"%char then
            match s' with
            | d :: _ =>
                if is_digit d
                then let '(n, rest) := read_number s' 0 in Some (JNum (- n), rest)
                else None
            | [] => None
            end
          else if is_digit c then
            let '(n, rest) := read_number (c :: s') 0 in Some (JNum n, rest)
          else if Ascii.eqb c "["%char then
            match skip_ws s' with
            | c' :: rest =>
                if Ascii.eqb c' "]"%char then Some (JArr [], rest)
                else
                  '(e, rest) ← read_value fuel' s';
                  '(es, rest') ← read_elements fuel' rest;
                  Some (JArr (e :: es), rest')
            | [] => None
            end
          else if Ascii.eqb c "{"%char then
            match skip_ws s' with
            | c' :: rest =>
                if Ascii.eqb c' "}"%char then Some (JObj [], rest)
                else
                  '(p, rest) ← read_property fuel' s';
                  '(ps, rest') ← read_properties fuel' rest;
                  Some (JObj (p :: ps), rest')
            | [] => None
            end
          else None
      end
  end
with read_elements (fuel : nat) (s : list ascii) : option (list json * list ascii) :=
  match fuel with
  | O => None
  | S fuel' =>
      match skip_ws s with
      | c :: rest =>
          if Ascii.eqb c "]"%char then Some ([], rest)
          else if Ascii.eqb c ","%char then
            '(e, rest') ← read_value fuel' rest;
            '(es, rest'') ← read_elements fuel' rest';
            Some (e :: es, rest'')
          else None
      | [] => None
      end
  end
with read_property (fuel : nat) (s : list ascii) : option ((string * json) * list ascii) :=
  match fuel with
  | O => None
  | S fuel' =>
      match skip_ws s with
      | c :: rest =>
          if Ascii.eqb c dquote then
            '(k, rest') ← read_string rest [];
            match skip_ws rest' with
            | c' :: rest'' =>
                if Ascii.eqb c' ":"%char then
                  '(v, rest3) ← read_value fuel' rest'';
                  Some ((k, v), rest3)
                else None
            | [] => None
            end
          else None
      | [] => None
      end
  end
with read_properties (fuel : nat) (s : list ascii)
  : option (list (string * json) * list ascii) :=
  match fuel with
  | O => None
  | S fuel' =>
      match skip_ws s with
      | c :: rest =>
          if Ascii.eqb c "}"%char then Some ([], rest)
          else if Ascii.eqb c ","%char then
            '(p, rest') ← read_property fuel' rest;
            '(ps, rest'') ← read_properties fuel' rest';
            Some (p :: ps, rest'')
          else None
      | [] => None
      end
  end.

(** How much fuel reading a value back takes. *)
Fixpoint fuel_for (v : json) : nat :=
  match v with
  | JArr elements => S (S (list_sum (map (fun e => S (fuel_for e)) elements)))
  | JObj properties =>
      S (S (list_sum (map (fun p => S (S (fuel_for (snd p)))) properties)))
  | _ => 1%nat
  end.

(** [JSON.parse]: one value, then only white space. The text is never
    shorter than the fuel its value takes. *)
Definition parse (s : string) : option json :=
  let input := list_ascii_of_string s in
  match read_value (S (length input)) input with
  | Some (v, rest) => match skip_ws rest with [] => Some v | _ :: _ => None end
  | None => None
  end.

(** A number ends where the digits end. *)
Definition no_digit_ahead (rest : list ascii) : Prop :=
  match rest with
  | c :: _ => is_digit c = false
  | [] => True
  end.

(** The first character of a value: no white space, no closing bracket. *)
Definition value_start (c : ascii) : Prop :=
  is_ws c = false /\ Ascii.eqb c "]" = false /\ Ascii.eqb c "}" = false.

(** What the writer puts after the first element of an array and after the
    first property of an object. *)
Definition more_elements (indent : nat) (es : list json) : list ascii :=
  flat_map (fun e' => ","%char :: newline (2 + indent) ++ write (2 + indent) e') es.

Definition more_properties (indent : nat) (ps : list (string * json)) : list ascii :=
  flat_map (fun p' => ","%char :: newline (2 + indent) ++ quote (fst p')
                      ++ [":"; " "]%char ++ write (2 + indent) (snd p')) ps.

(** The reader gets [v] back from what the writer wrote for it, whatever
    follows, as long as no digit follows. *)
Definition reads_back (v : json) : Prop :=
  forall indent rest fuel,
    (fuel_for v <= fuel)%nat -> no_digit_ahead rest ->
    read_value fuel (write indent v ++ rest) = Some (v, rest).

End Text.

End Cache.

(* ===================================================================== *)
(** ** [String.prototype.localeCompare] and [Array.prototype.sort] *)
(* ===================================================================== *)

Module Collation.
Import Regex.

Definition swap_case (c : ascii) : ascii :=
  if is_upper c then ascii_of_N (N_of_ascii c + 32)
  else if is_lower c then ascii_of_N (N_of_ascii c - 32)
  else c.

Definition map_string (f : ascii -> ascii) (s : string) : string :=
  string_of_list_ascii (map f (list_ascii_of_string s)).

(** The runtime's default collation on strings of ASCII letters and
    digits: digits before letters, letters in alphabetical order whatever
    their case, and between two strings with the same letters the one that
    has the lower-case letter at the first difference comes first. *)
Definition collate (a b : string) : comparison :=
  match String_as_OT.compare (map_string to_lower a) (map_string to_lower b) with
  | Eq => String_as_OT.compare (map_string swap_case a) (map_string swap_case b)
  | c => c
  end.

Definition localeCompare (a b : string) : Z :=
  match collate a b with Lt => -1 | Eq => 0 | Gt => 1 end.

(** Comparison of strings with [<]: character codes, left to right. *)
Definition code_unit_lt (a b : string) : Prop := String_as_OT.compare a b = Lt.

Section Sort.
Context {A : Type}.
Variable compareFn : A -> A -> Z.

Fixpoint insert_sorted (x : A) (l : list A) : list A :=
  match l with
  | [] => [x]
  | y :: l' =>
      if (compareFn x y <=? 0)%Z then x :: y :: l'
      else y :: insert_sorted x l'
  end.

(** [array.sort(compareFn)]: the sort is stable, and with a consistent
    comparison every stable sort comes to this result. *)
Fixpoint Array_sort (l : list A) : list A :=
  match l with
  | [] => []
  | x :: l' => insert_sorted x (Array_sort l')
  end.
End Sort.

End Collation.

(* ===================================================================== *)
(** ** [src/commands/list.ts] and [src/commands/grep.ts] *)
(* ===================================================================== *)

Module Commands.
Import Regex Client Cache.

(** What a unit of work does to the outside, in order. *)
Inductive event : Type :=
| CacheLookup (server : string)
| CacheStore (server : string)
| Connect (server : string)
| ListTools (server : string)
| Close (server : string).

Definition is_cache_event (e : event) : bool :=
  match e with
  | CacheLookup _ | CacheStore _ => true
  | _ => false
  end.

(** The cache directory and the log of events. *)
Record World : Type := mkWorld {
  fs : gmap string string;
  trace : list event;
}.

Definition log (e : event) (w : World) : World :=
  mkWorld (fs w) (trace w ++ [e]).

(** What a command has printed: one entry for each [console.log] and each
    [console.error]. *)
Record Output : Type := mkOutput {
  stdout : list string;
  stderr : list string;
}.

Definition decimal (n : nat) : string :=
  string_of_list_ascii (Text.number (Z.of_nat n)).

(** [debug(message)] of [src/config.ts]: a line on the diagnostics stream
    when [MCP_DEBUG] is set to a string that is not empty. *)
Definition debugging (MCP_DEBUG : option string) : bool :=
  match MCP_DEBUG with
  | Some value => truthy_string value
  | None => false
  end.

Definition debug (MCP_DEBUG : option string) (message : string) : list string :=
  if debugging MCP_DEBUG then ["[mcp-cli] " ++ message] else [].

(** [getConcurrencyLimit] of [src/config.ts] *)
Definition DEFAULT_CONCURRENCY : nat := 5.

Definition getConcurrencyLimit (MCP_CONCURRENCY : option string) : nat :=
  match MCP_CONCURRENCY with
  | Some envConcurrency =>
      if truthy_string envConcurrency then
        match parseInt envConcurrency with
        | Some limit => if (0 <? limit)%Z then Z.to_nat limit else DEFAULT_CONCURRENCY
        | None => DEFAULT_CONCURRENCY
        end
      else DEFAULT_CONCURRENCY
  | None => DEFAULT_CONCURRENCY
  end.

(** ANSI colours of [src/output.ts] *)
Definition esc (code : string) : string := String (ascii_of_N 27) code.
Definition reset : string := esc "[0m".
Definition bold : string := esc "[1m".
Definition dim : string := esc "[2m".
Definition cyan : string := esc "[36m".
Definition green : string := esc "[32m".

Definition color (shouldColorize : bool) (text colorCode : string) : string :=
  if shouldColorize then colorCode ++ text ++ reset else text.

Fixpoint drop_leading_space (s : list ascii) : list ascii :=
  match s with
  | c :: s' => if is_space c then drop_leading_space s' else s
  | [] => []
  end.

Definition trimEnd (s : string) : string :=
  string_of_list_ascii (rev (drop_leading_space (rev (list_ascii_of_string s)))).

Definition newline : string := String (ascii_of_N 10) EmptyString.

Section Flows.
(** The servers of the configuration, in the order of
    [Object.keys(config.mcpServers)], and the collaborators: what
    [connectToServer] and [listTools] come to for each server, the error
    [getServerConfig] throws for an unknown name, the error the runtime
    throws for a [TypeError], and the runtime functions the cache and the
    list command use. *)
Context {ServerConfig : Type}.
Variable mcpServers : list (string * ServerConfig).
Variable connectToServer : string -> ServerConfig -> option Error.
Variable listTools : string -> Error + list ToolInfo.
Variable serverNotFoundError : string -> Error.
Variable runtime_TypeError : Error.
Variable JSON_parse : string -> option json.
Variable JSON_stringify : json -> string.
Variable StringToNumber : string -> option Z.
Variable ObjectToString : json -> string.
Variable localeCompare : string -> string -> Z.
Variable proc : Process.
Variable shouldColorize : bool.

Definition listServerNames : list string := map fst mcpServers.

Fixpoint lookup_server (serverName : string) (servers : list (string * ServerConfig))
  : option ServerConfig :=
  match servers with
  | (k, c) :: rest => if String.eqb serverName k then Some c else lookup_server serverName rest
  | [] => None
  end.

Definition getServerConfig (serverName : string) : Error + ServerConfig :=
  match lookup_server serverName mcpServers with
  | Some server => inr server
  | None => inl (serverNotFoundError serverName)
  end.

(* ------------------------------------------------------------------- *)
(** *** The list command *)

Record ServerWithTools : Type := mkServerWithTools {
  name : string;
  tools : list ToolInfo;
  error : option string;
}.

Definition failed_server (serverName : string) (e : Error) : ServerWithTools :=
  mkServerWithTools serverName [] (Some (message e)).

Definition fetchServerTools (serverName : string) (w : World) : ServerWithTools * World :=
  match getServerConfig serverName with
  | inl e => (failed_server serverName e, w)
  | inr serverConfig =>
      let w := log (Connect serverName) w in
      match connectToServer serverName serverConfig with
      | Some e => (failed_server serverName e, w)
      | None =>
          let w := log (ListTools serverName) w in
          match listTools serverName with
          | inr tools =>
              (mkServerWithTools serverName tools None, log (Close serverName) w)
          | inl e => (failed_server serverName e, log (Close serverName) w)
          end
      end
  end.

(** [s.error ? [...] : s.tools] *)
Definition truthy_error (e : option string) : bool :=
  match e with Some msg => truthy_string msg | None => false end.

Definition displayServer (s : ServerWithTools) : string * list ToolInfo :=
  (name s,
   match error s with
   | Some msg =>
       if truthy_string msg
       then [mkToolInfo ("<error: " ++ msg ++ ">") None (JObj [])]
       else tools s
   | None => tools s
   end).

Definition tool_line (withDescriptions : bool) (tool : ToolInfo) : string :=
  match description tool with
  | Some text =>
      if withDescriptions && truthy_string text
      then "  • " ++ Cache.name tool ++ " - " ++ color shouldColorize text dim
      else "  • " ++ Cache.name tool
  | None => "  • " ++ Cache.name tool
  end.

Definition formatServerList (servers : list (string * list ToolInfo))
    (withDescriptions : bool) : string :=
  let lines :=
    flat_map (fun server =>
                color shouldColorize (fst server) (bold ++ cyan)
                :: map (tool_line withDescriptions) (snd server) ++ [EmptyString])
             servers in
  trimEnd (String.concat newline lines).

Definition server_json (s : ServerWithTools) : json :=
  JObj ([("name", JStr (name s)); ("tools", tools_json (tools s))]
        ++ match error s with
           | Some msg => [("error", JStr msg)]
           | None => []
           end).

Definition formatJson (data : json) : string := JSON_stringify data.

Record ListOptions : Type := mkListOptions {
  withDescriptions : bool;
  json_output : bool;
}.

(** The per-server results of the list command, sorted: the pool runs
    [fetchServerTools] on every server name; [None] if the pool does not
    come to an end or leaves a slot of its array empty. *)
Definition list_servers (concurrencyLimit : nat) (sched : nat -> nat) (w : World)
  : option (list ServerWithTools) :=
  slots ← Pool.processWithConcurrency listServerNames
             (fun serverName _ => fst (fetchServerTools serverName w))
             concurrencyLimit sched;
  servers ← mapM id slots;
  Some (Collation.Array_sort (fun a b => localeCompare (name a) (name b)) servers).

(** [listCommand] from the loaded configuration on. [unit_lines] is what
    the [debug] calls made while the pool runs print, those of the units
    of work and of the functions they call, in the order in which the
    runtime comes to them; they reach the diagnostics stream when
    [MCP_DEBUG] is set, after the line of [listCommand] itself. *)
Definition listCommand (options : ListOptions) (MCP_CONCURRENCY MCP_DEBUG : option string)
    (unit_lines : list string) (sched : nat -> nat) (w : World) : option Output :=
  match listServerNames with
  | [] =>
      Some (mkOutput []
              ["Warning: No servers configured. Add servers to mcp_servers.json"])
  | _ :: _ =>
      let concurrencyLimit := getConcurrencyLimit MCP_CONCURRENCY in
      let processing :=
        debug MCP_DEBUG ("Processing " ++ decimal (length listServerNames)
                         ++ " servers with concurrency " ++ decimal concurrencyLimit) in
      servers ← list_servers concurrencyLimit sched w;
      let diagnostics :=
        (processing ++ if debugging MCP_DEBUG then unit_lines else [])%list in
      let displayServers := map displayServer servers in
      if json_output options
      then Some (mkOutput [formatJson (JArr (map server_json servers))] diagnostics)
      else Some (mkOutput [formatServerList displayServers (withDescriptions options)]
                   diagnostics)
  end.

(* ------------------------------------------------------------------- *)
(** *** The grep command *)

Record SearchResult : Type := mkSearchResult {
  server : string;
  tool : json;
}.

Record ServerSearchResult : Type := mkServerSearchResult {
  serverName : string;
  results : list SearchResult;
  search_error : option string;
}.

(** [if (v)] on what the cache returned *)
Definition truthy (v : option json) : bool :=
  match v with
  | None | Some JNull => false
  | Some (JBool b) => b
  | Some (JNum n) => negb (n =? 0)%Z
  | Some (JStr text) => truthy_string text
  | Some (JArr _) | Some (JObj _) => true
  end.

(** [String(v)], as template literals and [RegExp.prototype.test] apply it *)
Definition String_of (v : option json) : string :=
  match v with
  | None => "undefined"
  | Some JNull => "null"
  | Some (JBool true) => "true"
  | Some (JBool false) => "false"
  | Some (JNum n) => string_of_list_ascii (Text.number n)
  | Some (JStr text) => text
  | Some (JArr _ as o) | Some (JObj _ as o) => ObjectToString o
  end.

(** [for (const tool of tools)]: arrays and strings can be iterated,
    anything else is a [TypeError]. *)
Definition iterate (v : json) : completion (list json) :=
  match v with
  | JArr elements => Normal elements
  | JStr text =>
      Normal (map (fun c => JStr (String c EmptyString)) (list_ascii_of_string text))
  | _ => Throw TypeError
  end.

Section Search.
(** [pattern.test] of the compiled pattern *)
Variable pattern_test : string -> bool.

(** Whether one tool goes into the results. *)
Definition tool_matches (serverName : string) (tool : json) : completion bool :=
  do tool_name <- get_prop tool "name";
  let fullPath := serverName ++ "/" ++ String_of tool_name in
  let matchesName := pattern_test (String_of tool_name) in
  let matchesPath := pattern_test fullPath in
  do tool_description <- get_prop tool "description";
  let matchesDescription :=
    truthy tool_description && pattern_test (String_of tool_description) in
  Normal (matchesName || matchesPath || matchesDescription).

Fixpoint search_tools (serverName : string) (tools : list json)
  : completion (list SearchResult) :=
  match tools with
  | [] => Normal []
  | tool :: rest =>
      do hit <- tool_matches serverName tool;
      do found <- search_tools serverName rest;
      Normal (if hit then mkSearchResult serverName tool :: found else found)
  end.

Definition failed_search (serverName : string) (e : Error) : ServerSearchResult :=
  mkServerSearchResult serverName [] (Some (message e)).

(** The loop over the tools and the [return]; an exception of the
    runtime ends in the [catch] of [searchServerTools]. *)
Definition search_in (serverName : string) (tools : json) : ServerSearchResult :=
  match (do elements <- iterate tools; search_tools serverName elements) with
  | Normal found => mkServerSearchResult serverName found None
  | Throw _ => failed_search serverName runtime_TypeError
  end.

(** [searchServerTools]; [now] is the clock at the cache look-up,
    [now_store] the clock when the list is stored. *)
Definition searchServerTools (serverName : string) (now now_store : Z) (w : World)
  : ServerSearchResult * World :=
  let w := log (CacheLookup serverName) w in
  let cachedTools :=
    match getCachedToolList JSON_parse StringToNumber ObjectToString
            proc now (fs w) serverName with
    | Normal r => r
    | Throw _ => None
    end in
  if truthy cachedTools then
    (search_in serverName (default JNull cachedTools), w)
  else
    match getServerConfig serverName with
    | inl e => (failed_search serverName e, w)
    | inr serverConfig =>
        let w := log (Connect serverName) w in
        match connectToServer serverName serverConfig with
        | Some e => (failed_search serverName e, w)
        | None =>
            let w := log (ListTools serverName) w in
            match listTools serverName with
            | inl e => (failed_search serverName e, log (Close serverName) w)
            | inr tools =>
                let w := log (CacheStore serverName) w in
                let w := mkWorld (setCachedToolList JSON_stringify proc now_store
                                    (fs w) serverName tools) (trace w) in
                (search_in serverName (tools_json tools), log (Close serverName) w)
            end
        end
    end.
End Search.

(** [v.k] where [v] is known not to be [null] *)
Definition prop (v : json) (k : string) : option json :=
  match get_prop v k with Normal r => r | Throw _ => None end.

Definition result_line (withDescriptions : bool) (r : SearchResult) : string :=
  let path := color shouldColorize (server r) cyan ++ "/"
              ++ color shouldColorize (String_of (prop (tool r) "name")) green in
  if withDescriptions && truthy (prop (tool r) "description")
  then path ++ " - " ++ color shouldColorize (String_of (prop (tool r) "description")) dim
  else path.

Definition formatSearchResults (allResults : list SearchResult)
    (withDescriptions : bool) : string :=
  String.concat newline (map (result_line withDescriptions) allResults).

Definition optional (k : string) (v : option json) : list (string * json) :=
  match v with Some x => [(k, x)] | None => [] end.

Definition result_json (r : SearchResult) : json :=
  JObj ([("server", JStr (server r))]
        ++ optional "tool" (prop (tool r) "name")
        ++ optional "description" (prop (tool r) "description")
        ++ optional "inputSchema" (prop (tool r) "inputSchema")).

Record GrepOptions : Type := mkGrepOptions {
  pattern : string;
  grep_withDescriptions : bool;
  grep_json : bool;
}.

Definition failedServers (serverResults : list ServerSearchResult) : list string :=
  map serverName (filter (fun r => truthy_error (search_error r)) serverResults).

Definition allResults (serverResults : list ServerSearchResult) : list SearchResult :=
  flat_map results serverResults.

Definition failed_warning (failed : list string) : string :=
  "Warning: " ++ decimal (length failed) ++ " server(s) failed to connect: "
  ++ String.concat ", " failed.

(** [grepCommand] from the results of the pool on. *)
Definition grep_report (options : GrepOptions)
    (serverResults : list ServerSearchResult) : Output :=
  let failed := failedServers serverResults in
  let warning := match failed with [] => [] | _ :: _ => [failed_warning failed] end in
  match allResults serverResults with
  | [] =>
      mkOutput ["No tools found matching " ++ String Text.dquote (pattern options)
                ++ String Text.dquote EmptyString] warning
  | found =>
      if grep_json options
      then mkOutput [formatJson (JArr (map result_json found))] warning
      else mkOutput [formatSearchResults found (grep_withDescriptions options)] warning
  end.

(** The unit of work of the grep command for the server at [index].
    [globToRegex_test pattern] is [globToRegex(pattern).test]; the unit
    reads the clock at [clock index], at the cache look-up and when it
    stores the list, and finds the cache directory as [view index] has it:
    what the other units have stored by then is a matter of how the
    runtime interleaves them. *)
Definition search_unit (options : GrepOptions) (globToRegex_test : string -> string -> bool)
    (clock : nat -> Z * Z) (view : nat -> World) (serverName : string) (index : nat)
  : ServerSearchResult :=
  fst (searchServerTools (globToRegex_test (pattern options)) serverName
         (fst (clock index)) (snd (clock index)) (view index)).

(** [grepCommand] from the loaded configuration on; [unit_lines] as in
    [listCommand]. [None] if the pool does not come to an end or leaves a
    slot of its array empty. *)
Definition grepCommand (options : GrepOptions) (MCP_CONCURRENCY MCP_DEBUG : option string)
    (unit_lines : list string) (globToRegex_test : string -> string -> bool)
    (sched : nat -> nat) (clock : nat -> Z * Z) (view : nat -> World) : option Output :=
  match listServerNames with
  | [] =>
      Some (mkOutput []
              ["Warning: No servers configured. Add servers to mcp_servers.json"])
  | _ :: _ =>
      let concurrencyLimit := getConcurrencyLimit MCP_CONCURRENCY in
      let searching :=
        debug MCP_DEBUG ("Searching " ++ decimal (length listServerNames)
                         ++ " servers for pattern " ++ String Text.dquote (pattern options)
                         ++ String Text.dquote " (concurrency: "
                         ++ decimal concurrencyLimit ++ ")") in
      slots ← Pool.processWithConcurrency listServerNames
                (search_unit options globToRegex_test clock view)
                concurrencyLimit sched;
      serverResults ← mapM id slots;
      let report := grep_report options serverResults in
      Some (mkOutput (stdout report)
              (searching ++ (if debugging MCP_DEBUG then unit_lines else [])
               ++ stderr report)%list)
  end.
End Flows.

End Commands.

(* ===================================================================== *)
(** ** Concrete inputs used below *)
(* ===================================================================== *)

Module Examples.
Import Client.

(** [MCP_TIMEOUT], [MCP_MAX_RETRIES] and [MCP_RETRY_DELAY] left at their
    defaults. *)
Definition default_config : RetryConfig := getRetryConfig 1800000 3 1000.

(** Three retries, and a budget that is spent before the first attempt. *)
Definition spent_config3 : RetryConfig := mkRetryConfig 3 1000 0 0.

(** [MCP_TIMEOUT=1] *)
Definition one_second_config : RetryConfig := getRetryConfig 1000 3 1000.

(** A clock that advances by a millisecond at each reading, an operation
    that fails with the same error each time. *)
Definition failing (e : Error) : Env unit :=
  mkEnv (fun k => Z.of_nat k) (fun _ => inl e) (fun _ => 1 # 2).

(** The same operation when the process is held up for a second right
    after [withRetry] has read its start time. *)
Definition stalled (e : Error) : Env unit :=
  mkEnv (fun k => 1000 * Z.of_nat k) (fun _ => inl e) (fun _ => 1 # 2).

(** No environment variables set. *)
Definition proc0 : Cache.Process := Cache.mkProcess None None "/home/user".

Definition mockTools : list Cache.ToolInfo :=
  [ Cache.mkToolInfo "test-tool-1" (Some "A test tool")
      (Cache.JObj [("type", Cache.JStr "object"); ("properties", Cache.JObj [])]);
    Cache.mkToolInfo "test-tool-2" None
      (Cache.JObj [("type", Cache.JStr "object");
                   ("properties",
                    Cache.JObj [("param", Cache.JObj [("type", Cache.JStr "string")])])]) ].

(** No string, array or object of the examples is used as a number. *)
Definition not_a_number (s : string) : option Z := None.
Definition object_string (v : Cache.json) : string := "[object Object]".

(** A store with one file, for [serverName]. *)
Definition store_with (serverName content : string) : gmap string string :=
  {[ Cache.getCacheFilePath proc0 serverName := content ]}.

(** An entry written by a later version of the cache. *)
Definition version_999 : Cache.json :=
  Cache.JObj [("serverName", Cache.JStr "github");
              ("tools", Cache.tools_json mockTools);
              ("timestamp", Cache.JNum 1705536000000);
              ("version", Cache.JNum 999)].

(** Two servers, in the order of the configuration file. *)
Definition two_servers : list (string * unit) := [("Zeta", tt); ("alpha", tt)].

(** Every server can be connected to, except those in [down]. *)
Definition connects_except (down : list string) (serverName : string) (_ : unit)
  : option Error :=
  if includes down serverName then Some (new_Error "spawn ENOENT") else None.

Definition serves (tools : list Cache.ToolInfo) (serverName : string)
  : Error + list Cache.ToolInfo := inr tools.

Definition not_found (serverName : string) : Error :=
  new_Error ("Server not found: " ++ serverName).

Definition type_error : Error := new_Error "undefined is not an object".

(** The promise awaited longest settles first. *)
Definition fifo (turn : nat) : nat := 0%nat.

Definition text_mode : Commands.ListOptions := Commands.mkListOptions false false.

(** A cache directory that holds a fresh entry for the server "github". *)
Definition cached_github : Commands.World :=
  Commands.mkWorld
    (Cache.setCachedToolList Cache.Text.stringify proc0 1705536000000 ∅ "github" mockTools)
    [].

Definition github : list (string * unit) := [("github", tt)].

End Examples.

(* ===================================================================== *)
(** ** [src/config.ts]: the settings of the retry engine *)
(* ===================================================================== *)

Module Config.
Import Cache Client.

(** The environment variables of the retry engine. *)
Record Environment : Type := mkEnvironment {
  MCP_TIMEOUT : option string;
  MCP_MAX_RETRIES : option string;
  MCP_RETRY_DELAY : option string;
}.

Definition DEFAULT_TIMEOUT_SECONDS : Z := 1800.
Definition DEFAULT_TIMEOUT_MS : Z := DEFAULT_TIMEOUT_SECONDS * 1000.
Definition DEFAULT_MAX_RETRIES : nat := 3.
Definition DEFAULT_RETRY_DELAY_MS : Z := 1000.

Definition getTimeoutMs (env : Environment) : Z :=
  match MCP_TIMEOUT env with
  | Some envTimeout =>
      if truthy_string envTimeout then
        match parseInt envTimeout with
        | Some seconds => if (0 <? seconds)%Z then seconds * 1000 else DEFAULT_TIMEOUT_MS
        | None => DEFAULT_TIMEOUT_MS
        end
      else DEFAULT_TIMEOUT_MS
  | None => DEFAULT_TIMEOUT_MS
  end.

Definition getMaxRetries (env : Environment) : nat :=
  match MCP_MAX_RETRIES env with
  | Some envRetries =>
      if truthy_string envRetries then
        match parseInt envRetries with
        | Some retries => if (0 <=? retries)%Z then Z.to_nat retries else DEFAULT_MAX_RETRIES
        | None => DEFAULT_MAX_RETRIES
        end
      else DEFAULT_MAX_RETRIES
  | None => DEFAULT_MAX_RETRIES
  end.

Definition getRetryDelayMs (env : Environment) : Z :=
  match MCP_RETRY_DELAY env with
  | Some envDelay =>
      if truthy_string envDelay then
        match parseInt envDelay with
        | Some delay => if (0 <? delay)%Z then delay else DEFAULT_RETRY_DELAY_MS
        | None => DEFAULT_RETRY_DELAY_MS
        end
      else DEFAULT_RETRY_DELAY_MS
  | None => DEFAULT_RETRY_DELAY_MS
  end.

(** [getRetryConfig()] of [src/client.ts] on the settings of the
    environment. *)
Definition retryConfig (env : Environment) : RetryConfig :=
  getRetryConfig (getTimeoutMs env) (getMaxRetries env) (getRetryDelayMs env).

End Config.

(* ===================================================================== *)
(** ** Invariants of the retry loop and of the pool *)
(* ===================================================================== *)

Module Invariants.
Import Client Pool.

Section Retry.
Context {T : Type}.
Variable env : Env T.

(** What is known of [lastError] at the head of the loop: it is what the
    last invocation threw. *)
Definition last_captured (lastError : option Error) (w : World) : Prop :=
  match lastError with
  | None => invocations w = 0%nat
  | Some e => exists k, invocations w = S k /\ fn env k = inl e
  end.

(** The outcome is the outcome of the last invocation. *)
Definition outcome_of_last (r : Outcome T * World) : Prop :=
  match fst r with
  | Returned v => exists k, invocations (snd r) = S k /\ fn env k = inr v
  | Thrown (Some e) => exists k, invocations (snd r) = S k /\ fn env k = inl e
  | Thrown None => invocations (snd r) = 0%nat
  end.

(** Every sleep so far came after an invocation that failed with a
    transient error. *)
Definition slept_after_transient (w : World) : Prop :=
  forall j, (j < length (sleeps w))%nat ->
            exists e, fn env j = inl e /\ isTransientError e = true.
End Retry.

(** A pool in which at most the item before [currentIndex] is in flight,
    and the results so far were written in the order of the items. *)
Definition in_order {R : Type} (st : @State R) : Prop :=
  (pending st = [] /\ writes st = seq 0 (currentIndex st)) \/
  (exists v, pending st = [(pred (currentIndex st), v)] /\ (0 < currentIndex st)%nat /\
             writes st = seq 0 (pred (currentIndex st))).

End Invariants.

(* ===================================================================== *)
(** ** ASCII text *)
(* ===================================================================== *)

Module Ascii7.
Import Regex.

(** Text in which every character is below 128. For such text the
    characters of this file are the UTF-16 code units of the runtime, the
    [i] flag of a regular expression folds the letters [A-Z] and no
    others, and LF and CR are the only line terminators. *)
Definition is_ascii_char (c : ascii) : bool := in_range 0 127 c.

Definition is_ascii (s : string) : bool :=
  forallb is_ascii_char (list_ascii_of_string s).

End Ascii7.

(* ===================================================================== *)
(** ** Lower case, for the expressions of the classifier *)
(* ===================================================================== *)

Module CaseFolding.
Import Regex.

(** A position with its characters in lower case. *)
Definition lower_pos (p : pos) : pos :=
  (option_map to_lower (fst p), map to_lower (snd p)).

(** No letter among the literal characters of the expression. *)
Fixpoint letterless (r : regex) : bool :=
  match r with
  | Char c => negb (is_upper c) && negb (is_lower c)
  | Cat r1 r2 | Alt r1 r2 => letterless r1 && letterless r2
  | Star r' => letterless r'
  | _ => true
  end.

End CaseFolding.

(* ===================================================================== *)
(** ** [src/cache.ts]: clearing the cache *)
(* ===================================================================== *)

Module CacheAdmin.
Import Regex Cache.

(** [existsSync(cacheFile)] and [rmSync(cacheFile)] *)
Definition clearServerCache (proc : Process) (fs : gmap string string)
    (serverName : string) : gmap string string :=
  let cacheFile := getCacheFilePath proc serverName in
  match fs !! cacheFile with
  | Some _ => delete cacheFile fs
  | None => fs
  end.

(** A file lies under a directory when its path continues the path of the
    directory after a separator. *)
Definition under (dir path : string) : bool :=
  String.prefix (dir ++ "/") path.

(** [rmSync(cacheDir, { recursive: true, force: true })]: every file under
    the directory goes. *)
Definition clearAllCaches (proc : Process) (fs : gmap string string)
  : gmap string string :=
  let cacheDir := getCacheDir proc in
  filter (fun entry => under cacheDir (fst entry) = false) fs.

(** The file name [getCacheFilePath] derives from a server name, and the
    names it leaves as they are. *)
Definition safeName (serverName : string) : string :=
  string_of_list_ascii (map safe_char (list_ascii_of_string serverName)).

Definition safe_name (serverName : string) : bool :=
  forallb (fun c => Ascii.eqb (safe_char c) c) (list_ascii_of_string serverName).

End CacheAdmin.

(* ===================================================================== *)
(** ** [globToRegex] of [src/commands/grep.ts] *)
(* ===================================================================== *)

Module Glob.
Import Regex.
Local Open Scope nat_scope.
Local Open Scope list_scope.

(** What the loop of [globToRegex] appends to [escaped]: [.] and [[^/]],
    alone or under a star, and the characters of the pattern, with a
    backslash before the ones of ['[.+^${}()|\\]']. *)
Inductive atom : Type :=
| Dot
| NotSlash
| Lit (escaped : bool) (c : ascii).

Inductive item : Type :=
| One (a : atom)
| Many (a : atom).

Definition special (c : ascii) : bool :=
  existsb (Ascii.eqb c) (list_ascii_of_string "[.+^${}()|\]").

(** The loop over the pattern. [after_globstar] holds between a [**] and
    the next character that is no [*]: the inner [while] that skips the
    stars that follow a globstar. *)
Fixpoint items_from (after_globstar : bool) (pattern : list ascii) : list item :=
  match pattern with
  | [] => []
  | char :: rest =>
      if Ascii.eqb char "*" then
        if after_globstar then items_from true rest
        else match rest with
             | next :: rest' =>
                 if Ascii.eqb next "*" then Many Dot :: items_from true rest'
                 else Many NotSlash :: items_from false rest
             | [] => Many NotSlash :: items_from false rest
             end
      else if Ascii.eqb char "?" then One NotSlash :: items_from false rest
      else One (Lit (special char) char) :: items_from false rest
  end.

Definition globToRegex (pattern : string) : list item :=
  items_from false (list_ascii_of_string pattern).

(** The text of [escaped]. *)
Definition atom_source (a : atom) : string :=
  match a with
  | Dot => "."
  | NotSlash => "[^/]"
  | Lit true c => String "\" (String c EmptyString)
  | Lit false c => String c EmptyString
  end.

Definition item_source (i : item) : string :=
  match i with
  | One a => atom_source a
  | Many a => atom_source a ++ "*"
  end.

Definition source (items : list item) : string :=
  "^" ++ String.concat EmptyString (map item_source items) ++ "$".

(** The characters an atom matches under the [i] flag, in ASCII text:
    [.] all but the line terminators LF and CR, [[^/]] all but the slash,
    a character itself in either case. What is proved of the strings a
    pattern matches exactly is stated for ASCII patterns and strings;
    outside ASCII the runtime also folds other letters, takes a UTF-16
    code unit at a time and has two more line terminators. *)
Definition line_terminator (x : ascii) : bool :=
  Ascii.eqb x "010" || Ascii.eqb x "013".

Definition accepts (a : atom) (x : ascii) : bool :=
  match a with
  | Dot => negb (line_terminator x)
  | NotSlash => negb (Ascii.eqb x "/")
  | Lit _ c => char_eq true c x
  end.

(** [^ items $] on a whole input. *)
Fixpoint matches (items : list item) (input : list ascii) : bool :=
  match items with
  | [] => match input with [] => true | _ :: _ => false end
  | One a :: rest =>
      match input with
      | x :: input' => accepts a x && matches rest input'
      | [] => false
      end
  | Many a :: rest =>
      (fix many (input : list ascii) : bool :=
         matches rest input
         || match input with
            | x :: input' => accepts a x && many input'
            | [] => false
            end) input
  end.

(** [globToRegex(pattern).test(s)] *)
Definition RegExp_test (items : list item) (s : string) : bool :=
  matches items (list_ascii_of_string s).

(** Patterns without [*] and [?], and without [**]. *)
Definition wildcard_free (pattern : string) : bool :=
  forallb (fun c => negb (Ascii.eqb c "*") && negb (Ascii.eqb c "?"))
          (list_ascii_of_string pattern).

Fixpoint has_globstar (pattern : list ascii) : bool :=
  match pattern with
  | c :: (next :: _) as rest =>
      Ascii.eqb c "*" && Ascii.eqb next "*" || has_globstar rest
  | _ => false
  end.

Definition slashes (s : list ascii) : nat := count_occ Ascii.ascii_dec s "/"%char.

(** The slashes among the literal characters, and the items that match no
    slash but a literal one. *)
Definition item_slashes (i : item) : nat :=
  match i with
  | One (Lit _ c) => if Ascii.eqb c "/" then 1%nat else 0%nat
  | _ => 0%nat
  end.

Definition keeps_slashes (i : item) : bool :=
  match i with
  | One NotSlash | Many NotSlash | One (Lit _ _) => true
  | _ => false
  end.

(** An item with its literal character in lower case. *)
Definition lower_item (i : item) : item :=
  match i with
  | One (Lit _ c) => One (Lit (special (to_lower c)) (to_lower c))
  | _ => i
  end.

End Glob.

(* ===================================================================== *)
(** ** [parseTarget] of [src/commands/call.ts] and [src/commands/info.ts] *)
(* ===================================================================== *)

Module Targets.
Local Open Scope nat_scope.
Local Open Scope list_scope.
(** Strings as their characters; [indexOf] gives [None] for [-1]. *)
Fixpoint indexOf (c : ascii) (s : list ascii) : option nat :=
  match s with
  | [] => None
  | x :: rest => if Ascii.eqb x c then Some 0 else S <$> indexOf c rest
  end.

(** [s.substring(start, end)] and [s.substring(start)] *)
Definition substring (start end_ : nat) (s : list ascii) : list ascii :=
  take (Nat.max start end_ - Nat.min start end_) (drop (Nat.min start end_) s).

Definition substring_from (start : nat) (s : list ascii) : list ascii :=
  drop start s.

(** [s.split(sep)] for a separator of one character, and [parts.join(sep)] *)
Fixpoint split (sep : ascii) (s : list ascii) : list (list ascii) :=
  match s with
  | [] => [[]]
  | x :: rest =>
      if Ascii.eqb x sep then [] :: split sep rest
      else match split sep rest with
           | part :: parts => (x :: part) :: parts
           | [] => [[x]]
           end
  end.

Fixpoint join (sep : ascii) (parts : list (list ascii)) : list ascii :=
  match parts with
  | [] => []
  | [part] => part
  | part :: rest => part ++ sep :: join sep rest
  end.

(** [parseTarget] of [call.ts]; [None]: it throws the invalid-target
    error. *)
Definition call_parseTarget (target : string) : option (string * string) :=
  let target := list_ascii_of_string target in
  match indexOf "/" target with
  | None => None
  | Some slashIndex =>
      Some (string_of_list_ascii (substring 0 slashIndex target),
            string_of_list_ascii (substring_from (slashIndex + 1) target))
  end.

(** [parseTarget] of [info.ts]; the tool is [None] where the record has
    no [tool]. *)
Definition info_parseTarget (target : string) : string * option string :=
  let parts := split "/" (list_ascii_of_string target) in
  match parts with
  | [part] => (string_of_list_ascii part, None)
  | part :: rest =>
      (string_of_list_ascii part, Some (string_of_list_ascii (join "/" rest)))
  | [] => (EmptyString, None)
  end.
End Targets.

(* ===================================================================== *)
(** ** [substituteEnvVars] of [src/config.ts] *)
(* ===================================================================== *)

Module Errors.
Import Cache.

(** [CliError] and [formatCliError] of [src/errors.ts] *)
Record CliError : Type := mkCliError {
  code : Z;
  type : string;
  message : string;
  details : option string;
  suggestion : option string;
}.

Definition CLIENT_ERROR : Z := 1.

Definition optional_line (label : string) (text : option string) : list string :=
  match text with
  | Some t => if truthy_string t then [label ++ t] else []
  | None => []
  end.

Definition formatCliError (error : CliError) : string :=
  String.concat Commands.newline
    ([("Error [" ++ type error ++ "]: " ++ message error)%string]
     ++ optional_line "  Details: " (details error)
     ++ optional_line "  Suggestion: " (suggestion error))%list.

End Errors.

Module Substitution.
Import Regex Cache.
Local Open Scope nat_scope.
Local Open Scope list_scope.

Section Environment.
(** [process.env[varName]]; [None] where it is [undefined]. *)
Variable env : string -> option string.

Definition isStrictEnvMode : bool :=
  match toLowerCase <$> env "MCP_STRICT_ENV" with
  | Some value => negb (String.eqb value "false") && negb (String.eqb value "0")
  | None => true
  end.

(** [([^}]+)\}] at the head of [s]: the name up to the first closing
    brace, and what follows the brace; [None] when there is no closing
    brace. The name may come out empty, which is no match. *)
Fixpoint until_brace (s : list ascii) : option (list ascii * list ascii) :=
  match s with
  | [] => None
  | c :: rest =>
      if Ascii.eqb c "}" then Some ([], rest)
      else match until_brace rest with
           | Some (name, after) => Some (c :: name, after)
           | None => None
           end
  end.

(** A match of [/\$\{([^}]+)\}/] at the head of [s] *)
Definition reference (s : list ascii) : option (list ascii * list ascii) :=
  match s with
  | dollar :: brace :: rest =>
      if Ascii.eqb dollar "$" && Ascii.eqb brace "{" then
        match until_brace rest with
        | Some (c :: name, after) => Some (c :: name, after)
        | _ => None
        end
      else None
  | _ => None
  end.

(** [value.replace(/\$\{([^}]+)\}/g, ...)]: the matches from left to
    right, none overlapping; the result and [missingVars]. [fuel] bounds the
    characters still to be read. *)
Fixpoint replace (fuel : nat) (value : list ascii) : list ascii * list string :=
  match fuel with
  | O => (value, [])
  | S fuel' =>
      match value with
      | [] => ([], [])
      | c :: rest =>
          match reference value with
          | Some (name, after) =>
              let varName := string_of_list_ascii name in
              let '(result, missingVars) := replace fuel' after in
              match env varName with
              | None => (result, varName :: missingVars)
              | Some envValue => (list_ascii_of_string envValue ++ result, missingVars)
              end
          | None =>
              let '(result, missingVars) := replace fuel' rest in
              (c :: result, missingVars)
          end
      end
  end.

Definition missing_message (missingVars : list string) : string :=
  ("Missing environment variable"
   ++ (if (1 <? length missingVars)%nat then "s" else EmptyString) ++ ": "
   ++ String.concat ", " (map (fun v => "${" ++ v ++ "}") missingVars))%string.

(** The error of strict mode; [first] is [missingVars[0]]. *)
Definition missing_env_var (message first : string) : Errors.CliError :=
  Errors.mkCliError Errors.CLIENT_ERROR "MISSING_ENV_VAR" message
    (Some "Referenced in config but not set in environment")
    (Some ("Set the variable(s) before running: export " ++ first ++ "="
           ++ String Text.dquote
                ("value" ++ String Text.dquote
                              " or set MCP_STRICT_ENV=false to use empty values"))%string).

(** What [substituteEnvVars] comes to: the string it returns, with the
    warning it prints if any, or the message of the [Error] it throws. *)
Inductive outcome : Type :=
| Returns (result : string) (warning : option string)
| Throws (message : string).

Definition substituteEnvVars (value : string) : outcome :=
  let '(result, missingVars) :=
    replace (length (list_ascii_of_string value)) (list_ascii_of_string value) in
  match missingVars with
  | [] => Returns (string_of_list_ascii result) None
  | first :: _ =>
      let message := missing_message missingVars in
      if isStrictEnvMode
      then Throws (Errors.formatCliError (missing_env_var message first))
      else Returns (string_of_list_ascii result)
                   (Some ("[mcp-cli] Warning: " ++ message)%string)
  end.
End Environment.
End Substitution.


(* ===================================================================== *)
(** ** More concrete inputs *)
(* ===================================================================== *)

Module Samples.

(** An environment in which [HOME] is the only variable set. *)
Definition home_only (varName : string) : option string :=
  if String.eqb varName "HOME" then Some "/home/user" else None.

End Samples.


(* ===================================================================== *)
(** ** Properties of the transient-error classifier *)
(* ===================================================================== *)

Section ClassifierProperties.
Import Client.

(** C7. For errors without a fault code, [isTransientError] is true for the
    messages "503 Service Unavailable", "connection refused" and
    "request timeout", and false for "Invalid JSON",
    "Error at line 502 in file" and "social network tool failed". *)
Theorem isTransientError_listed_messages :
  isTransientError (new_Error "503 Service Unavailable") = true /\
  isTransientError (new_Error "connection refused") = true /\
  isTransientError (new_Error "request timeout") = true /\
  isTransientError (new_Error "Invalid JSON") = false /\
  isTransientError (new_Error "Error at line 502 in file") = false /\
  isTransientError (new_Error "social network tool failed") = false.
Proof. repeat split; vm_compute; reflexivity. Qed.

(** C8. The pattern for "network" has no word boundary in front of it: an
    error without a fault code whose message has "network" only inside the
    word "internetwork", and no other indicator, is classified as
    transient. *)
Theorem isTransientError_inside_word :
  isTransientError (new_Error "internetwork error") = true /\
  Regex.test_i re_network "internetwork error" = true /\
  Regex.test_i (Regex.Cat Regex.WordBoundary re_network) "internetwork error" = false.
Proof. repeat split; vm_compute; reflexivity. Qed.

End ClassifierProperties.

(* ===================================================================== *)
(** ** Properties of the retry engine *)
(* ===================================================================== *)

Section RetryProperties.
Import Client.
Context {T : Type}.
Variable env : Env T.
Variable config : RetryConfig.

Lemma retry_loop_invocations iterations :
  forall attempt startTime lastError w,
    (invocations (snd (retry_loop env config iterations attempt startTime lastError w))
     <= invocations w + iterations)%nat.
Proof.
  induction iterations as [|n IH]; intros attempt startTime lastError w; simpl.
  - lia.
  - destruct (totalBudgetMs config <=? _)%Z; simpl; [lia|].
    destruct (fn env (invocations w)) as [e|v]; simpl; [|lia].
    destruct (_ && _ && _); simpl; [|lia].
    etransitivity; [apply IH|]. simpl. lia.
Qed.

Lemma withRetry_unfold :
  withRetry env config
  = retry_loop env config (S (maxRetries config)) 0 (Date_now env 0) None
      (mkWorld 1 0 0 []).
Proof. reflexivity. Qed.

Lemma withRetry_invocations_le :
  (invocations (snd (withRetry env config)) <= S (maxRetries config))%nat.
Proof.
  rewrite withRetry_unfold.
  etransitivity; [apply retry_loop_invocations|]. simpl. lia.
Qed.

(** One attempt that fails and is not retried. *)
Lemma withRetry_single_failure e :
  Date_now env 1 - Date_now env 0 < totalBudgetMs config ->
  fn env 0%nat = inl e ->
  ((0 <? maxRetries config)%nat && isTransientError e = false) ->
  withRetry env config
  = (Thrown (Some e), mkWorld 3 1 0 []).
Proof.
  intros Hbudget Hfn Hstop. unfold withRetry. simpl.
  destruct (Z.leb_spec (totalBudgetMs config) (Date_now env 1 - Date_now env 0)); [lia|].
  simpl. rewrite Hfn. simpl. rewrite Hstop. reflexivity.
Qed.

(** C3. With [maxRetries = R], [withRetry] invokes the operation at most
    [R + 1] times. With [maxRetries = 0], and the budget not yet spent when
    the loop checks it before the first attempt, it invokes the operation
    exactly once, and if that invocation fails it throws that error without
    sleeping. *)
Theorem withRetry_attempts :
  (invocations (snd (withRetry env config)) <= maxRetries config + 1)%nat /\
  (maxRetries config = 0%nat ->
   Date_now env 1 - Date_now env 0 < totalBudgetMs config ->
   invocations (snd (withRetry env config)) = 1%nat /\
   forall e, fn env 0%nat = inl e ->
             fst (withRetry env config) = Thrown (Some e) /\
             sleeps (snd (withRetry env config)) = []).
Proof.
  split.
  - pose proof withRetry_invocations_le. lia.
  - intros Hzero Hbudget.
    destruct (fn env 0%nat) as [e|v] eqn:Hfn.
    + rewrite (withRetry_single_failure e Hbudget Hfn) by (rewrite Hzero; reflexivity).
      simpl. split; [reflexivity|]. intros e' [= <-]. split; reflexivity.
    + split; [|discriminate].
      unfold withRetry. simpl.
      destruct (Z.leb_spec (totalBudgetMs config) (Date_now env 1 - Date_now env 0)); [lia|].
      simpl. rewrite Hfn. reflexivity.
Qed.

(** C4. If every invocation of the operation throws an error that
    [isTransientError] rejects, and the budget is not yet spent when the loop
    checks it before the first attempt, [withRetry] throws the first error
    after exactly one invocation and without sleeping, whatever
    [maxRetries] is. *)
Theorem withRetry_non_transient :
  (forall k, exists e, fn env k = inl e /\ isTransientError e = false) ->
  Date_now env 1 - Date_now env 0 < totalBudgetMs config ->
  invocations (snd (withRetry env config)) = 1%nat /\
  sleeps (snd (withRetry env config)) = [] /\
  exists e, fn env 0%nat = inl e /\ fst (withRetry env config) = Thrown (Some e).
Proof.
  intros Hfatal Hbudget. destruct (Hfatal 0%nat) as (e & Hfn & Hnt).
  rewrite (withRetry_single_failure e Hbudget Hfn)
    by (rewrite Hnt; apply andb_false_r).
  simpl. repeat split. exists e. split; [assumption|reflexivity].
Qed.

End RetryProperties.

Section RetryInstances.
Import Client Examples.

Lemma withRetry_attempts_witness :
  maxRetries (getRetryConfig 1800000 0 1000) = 0%nat /\
  invocations (snd (withRetry (failing (new_Error "503 Service Unavailable"))
                              (getRetryConfig 1800000 0 1000))) = 1%nat.
Proof.
  split; [reflexivity|].
  apply (withRetry_attempts (failing (new_Error "503 Service Unavailable"))
           (getRetryConfig 1800000 0 1000)); [reflexivity | vm_compute; reflexivity].
Defined.

Lemma withRetry_non_transient_witness :
  invocations (snd (withRetry (failing (new_Error "Invalid JSON")) default_config)) = 1%nat.
Proof.
  apply (withRetry_non_transient (failing (new_Error "Invalid JSON")) default_config).
  - intros k. exists (new_Error "Invalid JSON"). split; [reflexivity | vm_compute; reflexivity].
  - vm_compute; reflexivity.
Defined.

(** The configuration of [MCP_TIMEOUT=1] and [MCP_MAX_RETRIES=0], with no
    retries and a budget of a second: when the process is held up for a
    second right after [withRetry] has read its start time, the operation
    is not invoked at all, and what is thrown is [undefined]. *)
Lemma withRetry_stalled_no_attempt :
  Config.retryConfig (Config.mkEnvironment (Some "1") (Some "0") None)
  = getRetryConfig 1000 0 1000 /\
  maxRetries (getRetryConfig 1000 0 1000) = 0%nat /\
  invocations (snd (withRetry (stalled (new_Error "503 Service Unavailable"))
                      (getRetryConfig 1000 0 1000)))
  = 0%nat /\
  invocations (snd (withRetry (stalled (new_Error "503 Service Unavailable"))
                      (getRetryConfig 1000 0 1000)))
  <> 1%nat /\
  fst (withRetry (stalled (new_Error "503 Service Unavailable"))
         (getRetryConfig 1000 0 1000))
  = Thrown None.
Proof. repeat split; vm_compute; congruence. Qed.

(** An operation that always fails with a non-transient error is not
    invoked at all when the budget is zero, or when the budget of
    [MCP_TIMEOUT=1] has gone by before the first check. *)
Lemma non_transient_spent_budget_no_attempt :
  isTransientError (new_Error "Invalid JSON") = false /\
  invocations (snd (withRetry (failing (new_Error "Invalid JSON")) spent_config3)) = 0%nat /\
  invocations (snd (withRetry (stalled (new_Error "Invalid JSON")) one_second_config)) = 0%nat /\
  fst (withRetry (stalled (new_Error "Invalid JSON")) one_second_config) = Thrown None.
Proof. repeat split; vm_compute; reflexivity. Qed.

End RetryInstances.

(* ===================================================================== *)
(** ** Properties of the worker pool *)
(* ===================================================================== *)

Section PoolProperties.
Import Pool.
Local Open Scope nat_scope.
Local Open Scope list_scope.
Context {T R : Type}.
Variable items : list T.
Variable processor : T -> nat -> R.

Local Abbreviation State := (@State R).
Local Abbreviation worker := (worker items processor).
Local Abbreviation resume := (resume items processor).
Local Abbreviation run := (run items processor).
Local Abbreviation pool_inv := (pool_inv items processor).
Local Abbreviation pool_busy := (@pool_busy T R items).
Local Abbreviation value_at := (value_at items processor).

Lemma init_inv : pool_inv (init items).
Proof.
  split; simpl.
  - apply length_replicate.
  - lia.
  - reflexivity.
  - intros i v Hin. inversion Hin.
  - intros i Hin. inversion Hin.
  - intros i _ Hi. by apply lookup_replicate_2.
Qed.

Lemma worker_inv st : pool_inv st -> pool_inv (worker st).
Proof.
  intros [Hlen Hidx Hperm Hpend Hass Hemp]. unfold Pool.worker.
  destruct (items !! currentIndex st) as [item|] eqn:Hitem; [|by split].
  split; cbn [currentIndex results pending writes]; try assumption.
  - apply lookup_lt_Some in Hitem. lia.
  - rewrite fmap_app, app_assoc, Hperm, seq_S. reflexivity.
  - intros i v [Hin|Hin%list_elem_of_singleton]%elem_of_app; [by apply Hpend|].
    injection Hin as -> ->. unfold value_at. by rewrite Hitem.
Qed.

Lemma claimed_lt st i :
  pool_inv st -> i ∈ writes st ++ (fst <$> pending st) -> (i < length items)%nat.
Proof.
  intros Hinv Hin. rewrite (inv_claimed Hinv) in Hin.
  apply elem_of_seq in Hin. pose proof (inv_index Hinv). lia.
Qed.

Lemma resume_inv j st : pool_inv st -> pool_inv (resume j st).
Proof.
  intros Hinv. unfold Pool.resume.
  destruct (pending st !! j) as [[index value]|] eqn:Hj; [|assumption].
  apply worker_inv.
  assert (Hin : (index, value) ∈ pending st) by (apply list_elem_of_lookup; eauto).
  assert (Hlt : (index < length items)%nat).
  { apply (claimed_lt st); [assumption|]. apply elem_of_app. right.
    by apply (list_elem_of_fmap_2 fst) in Hin. }
  destruct Hinv as [Hlen Hidx Hperm Hpend Hass Hemp].
  split; simpl.
  - by rewrite length_insert.
  - assumption.
  - rewrite <- Hperm, <- app_assoc. apply Permutation_app_head.
    pose proof (delete_Permutation _ _ _ Hj) as Hd.
    apply (fmap_Permutation fst) in Hd. symmetry. exact Hd.
  - intros i v Hiv. apply Hpend. by eapply list_elem_of_delete_inv.
  - intros i [Hi|Hi%list_elem_of_singleton]%elem_of_app.
    + destruct (decide (index = i)) as [->|Hne].
      * rewrite list_lookup_insert_eq by lia. by rewrite (Hpend _ _ Hin).
      * rewrite list_lookup_insert_ne by assumption. by apply Hass.
    + subst i. rewrite list_lookup_insert_eq by lia. by rewrite (Hpend _ _ Hin).
  - intros i Hi Hlt'. rewrite list_lookup_insert_ne.
    + apply Hemp; [|assumption]. intros Hw. apply Hi, elem_of_app. by left.
    + intros ->. apply Hi, elem_of_app. right. by apply list_elem_of_singleton.
Qed.

Lemma resume_busy k j st :
  pool_inv st -> is_Some (pending st !! j) ->
  pool_busy k st -> pool_busy k (resume j st).
Proof.
  intros Hinv [[index value] Hj] Hbusy. unfold Pool.resume. rewrite Hj.
  unfold Pool.worker, Pool.pool_busy in *. simpl.
  destruct (items !! currentIndex st) as [item|] eqn:Hitem; simpl.
  - apply lookup_lt_Some in Hitem. destruct Hbusy as [Heq|Hk]; [lia|].
    right. rewrite length_app, length_delete by eauto. simpl.
    apply lookup_lt_Some in Hj. lia.
  - left. apply lookup_ge_None in Hitem. pose proof (inv_index Hinv). lia.
Qed.

Lemma resume_writes j st :
  is_Some (pending st !! j) ->
  length (writes (resume j st)) = S (length (writes st)).
Proof.
  intros [[index value] Hj]. unfold Pool.resume. rewrite Hj. unfold Pool.worker. simpl.
  destruct (items !! currentIndex st); simpl; rewrite length_app; simpl; lia.
Qed.

Lemma scheduled_pending (st : State) n :
  pending st <> [] -> is_Some (pending st !! (n mod length (pending st))).
Proof.
  intros Hne. apply lookup_lt_is_Some. apply Nat.mod_upper_bound.
  destruct (pending st); [done|simpl; lia].
Qed.

Lemma run_inv sched k fuel : forall turn st,
  pool_inv st -> pool_busy k st ->
  pool_inv (run sched turn fuel st) /\ pool_busy k (run sched turn fuel st).
Proof.
  induction fuel as [|fuel IH]; intros turn st Hinv Hbusy; simpl; [done|].
  destruct (pending st) as [|p ps] eqn:Hp; [done|].
  rewrite <- Hp. apply IH.
  - by apply resume_inv.
  - apply resume_busy; [assumption| |assumption].
    apply scheduled_pending. by rewrite Hp.
Qed.

(** Every turn assigns a slot, so the pool comes to rest within as many
    turns as there are slots left. *)
Lemma run_rest sched fuel : forall turn st,
  pool_inv st -> (length items <= length (writes st) + fuel)%nat ->
  pending (run sched turn fuel st) = [].
Proof.
  induction fuel as [|fuel IH]; intros turn st Hinv Hfuel; simpl.
  - pose proof (inv_claimed Hinv) as Hperm. apply Permutation_length in Hperm.
    rewrite length_app, length_fmap, length_seq in Hperm.
    pose proof (inv_index Hinv). apply length_zero_iff_nil. lia.
  - destruct (pending st) as [|p ps] eqn:Hp; [done|].
    rewrite <- Hp. apply IH; [by apply resume_inv|].
    rewrite resume_writes; [lia|]. apply scheduled_pending. by rewrite Hp.
Qed.

Lemma start_workers k :
  (k <= length items)%nat ->
  pool_inv (Nat.iter k worker (init items)) /\
  currentIndex (Nat.iter k worker (init items)) = k /\
  length (pending (Nat.iter k worker (init items))) = k.
Proof.
  induction k as [|k IH]; intros Hk.
  - split; [apply init_inv|done].
  - rewrite Nat.iter_succ.
    destruct IH as (Hinv & Hcur & Hpend); [lia|].
    split; [by apply worker_inv|].
    set (st := Nat.iter k worker (init items)) in *.
    unfold Pool.worker. rewrite Hcur.
    destruct (lookup_lt_is_Some_2 items k) as [item ->]; [lia|].
    cbn [currentIndex pending]. rewrite length_app. simpl. lia.
Qed.

Lemma final_state maxConcurrency sched :
  (1 <= maxConcurrency)%nat ->
  let st := final items processor maxConcurrency sched in
  pool_inv st /\ pending st = [] /\ currentIndex st = length items.
Proof.
  intros Hlimit st. subst st. unfold final.
  destruct (start_workers (Nat.min maxConcurrency (length items))) as (Hinv & Hcur & Hpend);
    [lia|].
  set (k := Nat.min maxConcurrency (length items)) in *.
  destruct (run_inv sched k (length items) 0%nat _ Hinv) as [Hinv' Hbusy]; [by right|].
  assert (Hrest := run_rest sched (length items) 0%nat _ Hinv ltac:(lia)).
  split; [assumption|]. split; [assumption|].
  destruct Hbusy as [Heq|Hk]; [assumption|].
  rewrite Hrest in Hk. simpl in Hk.
  pose proof (inv_index Hinv'). lia.
Qed.

Lemma processWithConcurrency_expected maxConcurrency sched :
  (1 <= maxConcurrency)%nat ->
  processWithConcurrency items processor maxConcurrency sched
  = Some (expected items processor).
Proof.
  intros Hlimit.
  destruct (final_state maxConcurrency sched Hlimit) as (Hinv & Hrest & Hcur).
  pose proof (inv_claimed Hinv) as Hperm.
  rewrite Hrest, Hcur in Hperm. simpl in Hperm. rewrite app_nil_r in Hperm.
  unfold processWithConcurrency. rewrite Hrest. f_equal.
  apply list_eq. intros i. unfold expected. rewrite list_lookup_imap.
  destruct (items !! i) as [item|] eqn:Hitem; simpl.
  - rewrite (inv_assigned Hinv).
    + unfold Pool.value_at. by rewrite Hitem.
    + rewrite Hperm. apply elem_of_seq. apply lookup_lt_Some in Hitem. lia.
  - apply lookup_ge_None. apply lookup_ge_None in Hitem.
    rewrite (inv_length Hinv). lia.
Qed.

(** C1. For every list of items, every processor and every concurrency
    limit of at least 1, and in whatever order the awaited promises settle,
    [processWithConcurrency] returns an array of the length of [items]
    whose slot [i] holds [processor(items[i], i)]; every slot is assigned
    exactly once; and a limit of [items.length] or more behaves as the
    limit [items.length]. *)
Theorem processWithConcurrency_order_preserving maxConcurrency sched :
  (1 <= maxConcurrency)%nat ->
  processWithConcurrency items processor maxConcurrency sched
  = Some (expected items processor) /\
  length (expected items processor) = length items /\
  (forall i item, items !! i = Some item ->
                  expected items processor !! i = Some (Some (processor item i))) /\
  writes (final items processor maxConcurrency sched) ≡ₚ seq 0 (length items) /\
  ((length items <= maxConcurrency)%nat ->
   final items processor maxConcurrency sched
   = final items processor (length items) sched).
Proof.
  intros Hlimit.
  destruct (final_state maxConcurrency sched Hlimit) as (Hinv & Hrest & Hcur).
  pose proof (inv_claimed Hinv) as Hperm.
  rewrite Hrest, Hcur in Hperm. simpl in Hperm. rewrite app_nil_r in Hperm.
  repeat split.
  - by apply processWithConcurrency_expected.
  - apply length_imap.
  - intros i item Hitem. unfold expected. rewrite list_lookup_imap. by rewrite Hitem.
  - assumption.
  - intros Hge. unfold final. f_equal. f_equal; lia.
Qed.

End PoolProperties.

Lemma processWithConcurrency_order_preserving_witness :
  Pool.processWithConcurrency ["a"; "b"; "c"; "d"; "e"] (fun item i => (item, i)) 2
    (fun turn => S turn)
  = Some [Some ("a", 0%nat); Some ("b", 1%nat); Some ("c", 2%nat);
          Some ("d", 3%nat); Some ("e", 4%nat)].
Proof.
  apply (processWithConcurrency_order_preserving ["a"; "b"; "c"; "d"; "e"]
           (fun item i => (item, i)) 2 (fun turn => S turn)).
  lia.
Defined.

(* ===================================================================== *)
(** ** Properties of the cache *)
(* ===================================================================== *)

Section CacheProperties.
Import Cache.
Variable JSON_parse : string -> option json.
Variable JSON_stringify : json -> string.
Variable StringToNumber : string -> option Z.
Variable ObjectToString : json -> string.

Local Abbreviation getCachedToolList :=
  (getCachedToolList JSON_parse StringToNumber ObjectToString).
Local Abbreviation setCachedToolList := (setCachedToolList JSON_stringify).
Local Abbreviation ToNumber := (ToNumber StringToNumber ObjectToString).
Local Abbreviation read_cache_file :=
  (read_cache_file JSON_parse StringToNumber ObjectToString).
Local Abbreviation entry_tools := (entry_tools JSON_parse StringToNumber ObjectToString).

Lemma read_cache_file_caught content proc now :
  try_or_null (read_cache_file content proc now) = Normal (entry_tools content proc now).
Proof.
  unfold Cache.read_cache_file, Cache.entry_tools.
  destruct (JSON_parse content) as [cached|]; [|reflexivity].
  destruct cached as [|b|n|s|l|properties]; try reflexivity. simpl.
  destruct (version_matches _); [|reflexivity]. simpl.
  destruct (older_than _ _); [reflexivity|]. simpl.
  destruct (assoc "tools" properties) as [[]|]; reflexivity.
Qed.

Lemma getCachedToolList_eq proc now fs serverName :
  getCachedToolList proc now fs serverName
  = Normal (if isCacheDisabled proc then None
            else match fs !! getCacheFilePath proc serverName with
                 | Some content => entry_tools content proc now
                 | None => None
                 end).
Proof.
  unfold Cache.getCachedToolList.
  destruct (isCacheDisabled proc); [reflexivity|].
  destruct (fs !! getCacheFilePath proc serverName); [|reflexivity].
  apply read_cache_file_caught.
Qed.

(** C5. [getCachedToolList] never throws. It returns [null] when caching is
    disabled, when there is no entry for the server, when the entry does not
    parse, when the version of the entry is not the current one, and when
    the age of the entry is above the TTL. It returns a tool list only from
    an entry that is there, parses, has the current version and is not
    older than the TTL, and then it is the stored list. *)
Theorem getCachedToolList_absent_or_stored proc now fs serverName :
  let cacheFile := getCacheFilePath proc serverName in
  let r := getCachedToolList proc now fs serverName in
  (exists tools, r = Normal tools) /\
  (isCacheDisabled proc = true -> r = Normal None) /\
  (fs !! cacheFile = None -> r = Normal None) /\
  (forall content,
     fs !! cacheFile = Some content -> JSON_parse content = None ->
     r = Normal None) /\
  (forall content cached,
     fs !! cacheFile = Some content -> JSON_parse content = Some cached ->
     get_prop cached "version" <> Normal (Some (JNum CACHE_VERSION)) ->
     r = Normal None) /\
  (forall content cached timestamp ts,
     fs !! cacheFile = Some content -> JSON_parse content = Some cached ->
     get_prop cached "timestamp" = Normal timestamp ->
     ToNumber timestamp = Some ts -> getCacheTTLMs proc < now - ts ->
     r = Normal None) /\
  (forall tools,
     r = Normal (Some tools) ->
     isCacheDisabled proc = false /\
     exists content properties ,
       fs !! cacheFile = Some content /\
       JSON_parse content = Some (JObj properties) /\
       assoc "version" properties = Some (JNum CACHE_VERSION) /\
       older_than (Z.sub now <$> ToNumber (assoc "timestamp" properties))
                  (getCacheTTLMs proc) = false /\
       assoc "tools" properties = Some tools).
Proof.
  intros cacheFile r. subst r cacheFile. rewrite getCachedToolList_eq.
  split; [eauto|].
  split; [by intros ->|].
  split; [intros ->; by destruct (isCacheDisabled proc)|].
  split.
  { intros content Hfile Hparse. rewrite Hfile. unfold Cache.entry_tools. rewrite Hparse.
    by destruct (isCacheDisabled proc). }
  split.
  { intros content cached Hfile Hparse Hversion. rewrite Hfile.
    unfold Cache.entry_tools. rewrite Hparse.
    destruct (isCacheDisabled proc); [reflexivity|].
    destruct cached as [|b|n|s|l|properties]; try reflexivity.
    simpl in Hversion.
    destruct (assoc "version" properties) as [[|b|n|s|l|ps]|]; try reflexivity.
    simpl. destruct (Z.eqb_spec n CACHE_VERSION) as [->|]; [congruence|reflexivity]. }
  split.
  { intros content cached timestamp ts Hfile Hparse Htime Hts Hold. rewrite Hfile.
    unfold Cache.entry_tools. rewrite Hparse.
    destruct (isCacheDisabled proc); [reflexivity|].
    destruct cached as [|b|n|s|l|properties]; try reflexivity.
    simpl in Htime. injection Htime as <-.
    destruct (version_matches _); [|reflexivity].
    rewrite Hts. simpl.
    destruct (Z.ltb_spec (getCacheTTLMs proc) (now - ts)); [reflexivity|lia]. }
  intros tools Hr.
  destruct (isCacheDisabled proc); [discriminate|]. split; [reflexivity|].
  destruct (fs !! getCacheFilePath proc serverName) as [content|] eqn:Hfile; [|discriminate].
  unfold Cache.entry_tools in Hr.
  destruct (JSON_parse content) as [[|b|n|s|l|properties]|] eqn:Hparse; try discriminate.
  exists content, properties.
  destruct (assoc "version" properties) as [[|b|n|s|l|ps]|] eqn:Hv; try discriminate.
  simpl in Hr. destruct (Z.eqb_spec n CACHE_VERSION) as [->|]; [|discriminate].
  destruct (older_than _ _) eqn:Hold; [discriminate|].
  destruct (assoc "tools" properties) as [[]|] eqn:Htools; try discriminate;
    injection Hr as <-; repeat split; reflexivity || assumption.
Qed.

Lemma tool_json_inj t t' : tool_json t = tool_json t' -> t = t'.
Proof.
  destruct t as [n [d|] i], t' as [n' [d'|] i']; unfold tool_json; simpl;
    intros H; by simplify_eq.
Qed.

Lemma tools_json_inj tools tools' : tools_json tools = tools_json tools' -> tools = tools'.
Proof.
  unfold tools_json. intros [= H]. revert tools' H.
  induction tools as [|t tools IH]; intros [|t' tools'] H; try discriminate; [reflexivity|].
  cbn [map] in H.
  assert (tool_json t = tool_json t' /\ map tool_json tools = map tool_json tools')
    as [Ht Hrest] by (split; congruence).
  f_equal; [by apply tool_json_inj|by apply IH].
Qed.

(** The TTL is never below a second. *)
Lemma getCacheTTLMs_ge proc : 1000 <= getCacheTTLMs proc.
Proof.
  unfold getCacheTTLMs, DEFAULT_CACHE_TTL_SECONDS.
  destruct (MCP_CACHE_TTL proc) as [envTTL|]; [|lia].
  destruct (truthy_string envTTL); [|lia].
  destruct (parseInt envTTL) as [seconds|]; [|lia].
  destruct (Z.ltb_spec 0 seconds); lia.
Qed.

Lemma set_then_get proc now later fs serverName tools :
  isCacheDisabled proc = false ->
  JSON_parse (JSON_stringify (cached_json serverName tools now))
  = Some (cached_json serverName tools now) ->
  later - now <= getCacheTTLMs proc ->
  getCachedToolList proc later (setCachedToolList proc now fs serverName tools) serverName
  = Normal (Some (tools_json tools)).
Proof.
  intros Henabled Hjson Hfresh.
  rewrite getCachedToolList_eq. unfold Cache.setCachedToolList.
  rewrite Henabled, lookup_insert_eq. unfold Cache.entry_tools. rewrite Hjson.
  unfold cached_json. simpl.
  destruct (Z.ltb_spec (getCacheTTLMs proc) (later - now)); [lia|reflexivity].
Qed.

(** C6. With caching enabled, [setCachedToolList(name, tools)] followed by
    [getCachedToolList(name)] before the entry has aged beyond the TTL
    returns the list that was stored, the empty list included, provided the
    runtime's [JSON.parse] reads back the text its [JSON.stringify] wrote
    for the entry. *)
Theorem cache_round_trip proc now later fs serverName tools :
  isCacheDisabled proc = false ->
  JSON_parse (JSON_stringify (cached_json serverName tools now))
  = Some (cached_json serverName tools now) ->
  later - now <= getCacheTTLMs proc ->
  getCachedToolList proc later (setCachedToolList proc now fs serverName tools) serverName
  = Normal (Some (tools_json tools)) /\
  (forall tools', tools_json tools' = tools_json tools -> tools' = tools).
Proof.
  intros Henabled Hjson Hfresh.
  split; [by apply set_then_get|intros tools'; apply tools_json_inj].
Qed.

End CacheProperties.

(* ===================================================================== *)
(** ** The JSON reader reads back what the JSON writer wrote *)
(* ===================================================================== *)

Section TextProperties.
Import Cache Cache.Text Regex.
Local Open Scope list_scope.

Lemma skip_ws_newline i s : skip_ws (newline i ++ s) = skip_ws s.
Proof.
  unfold newline. simpl. induction i as [|i IH]; simpl; [reflexivity|exact IH].
Qed.

Lemma read_string_escape c tail acc :
  read_string (escape_char c ++ tail) acc = read_string tail (c :: acc).
Proof.
  destruct c as [[] [] [] [] [] [] [] []]; reflexivity.
Qed.

Lemma read_string_literal l rest acc :
  read_string (flat_map escape_char l ++ dquote :: rest) acc
  = Some (string_of_list_ascii (rev acc ++ l), rest).
Proof.
  revert acc. induction l as [|c l IH]; intros acc; simpl.
  - by rewrite app_nil_r.
  - rewrite <- app_assoc, read_string_escape, IH. simpl. by rewrite <- app_assoc.
Qed.

Lemma read_quote s rest :
  exists tail, quote s ++ rest = dquote :: tail /\ read_string tail [] = Some (s, rest).
Proof.
  eexists. split.
  - unfold quote. simpl. rewrite <- app_assoc. simpl. reflexivity.
  - rewrite read_string_literal. simpl. by rewrite string_of_list_ascii_of_string.
Qed.
Lemma digit_char m :
  (m < 10)%N ->
  is_digit (ascii_of_N (48 + m)) = true /\
  digit_value (ascii_of_N (48 + m)) = Z.of_N m.
Proof.
  intros Hm.
  assert (Hcases : m = 0%N \/ m = 1%N \/ m = 2%N \/ m = 3%N \/ m = 4%N \/ m = 5%N
                   \/ m = 6%N \/ m = 7%N \/ m = 8%N \/ m = 9%N) by lia.
  repeat (destruct Hcases as [->|Hcases]; [split; reflexivity|]).
  subst m. split; reflexivity.
Qed.

Lemma read_number_digits fuel : forall n tail,
  (n < 10 ^ N.of_nat (S fuel))%N ->
  read_number (digits_of fuel n tail) 0 = read_number tail (Z.of_N n).
Proof.
  induction fuel as [|fuel IH]; intros n tail Hn.
  - simpl in Hn. change (N.pos (Pos.of_succ_nat 0)) with 1%N in Hn. rewrite N.pow_1_r in Hn.
    destruct (digit_char (n mod 10)) as [Hd Hv]; [by apply N.mod_lt|].
    cbn [digits_of read_number]. rewrite Hd, Hv.
    rewrite N.mod_small by assumption. reflexivity.
  - cbn [digits_of].
    destruct (digit_char (n mod 10)) as [Hd Hv]; [by apply N.mod_lt|].
    destruct (N.ltb_spec n 10) as [Hsmall|Hbig].
    + cbn [read_number]. rewrite Hd, Hv. rewrite N.mod_small by assumption. reflexivity.
    + rewrite IH.
      * cbn [read_number]. rewrite Hd, Hv. f_equal.
        rewrite (N.div_mod n 10) at 3 by lia. lia.
      * apply N.Div0.div_lt_upper_bound.
        replace (N.of_nat (S (S fuel))) with (N.succ (N.of_nat (S fuel))) in Hn by lia.
        rewrite N.pow_succ_r' in Hn. exact Hn.
Qed.

Lemma read_number_stop rest acc :
  no_digit_ahead rest -> read_number rest acc = (acc, rest).
Proof. destruct rest as [|c rest]; simpl; [done|]. by intros ->. Qed.

Lemma size_bound m : (m < 10 ^ N.of_nat (S (N.to_nat (N.size m))))%N.
Proof.
  replace (N.of_nat (S (N.to_nat (N.size m)))) with (N.succ (N.size m)) by lia.
  destruct (N.eq_dec m 0%N) as [->|Hm]; [reflexivity|].
  apply N.lt_le_trans with (2 ^ N.size m)%N.
  - apply N.size_gt.
  - etransitivity; [apply N.pow_le_mono_l with (b := 10%N); lia|].
    apply N.pow_le_mono_r; lia.
Qed.

Lemma digits_head fuel n tail :
  exists c tl, digits_of fuel n tail = c :: tl /\ is_digit c = true.
Proof.
  revert n tail. induction fuel as [|fuel IH]; intros n tail; cbn [digits_of].
  - eexists _, _. split; [reflexivity|]. apply digit_char. by apply N.mod_lt.
  - destruct (n <? 10)%N.
    + eexists _, _. split; [reflexivity|]. apply digit_char. by apply N.mod_lt.
    + apply IH.
Qed.

Lemma digits_of_app fuel : forall n acc rest,
  digits_of fuel n acc ++ rest = digits_of fuel n (acc ++ rest).
Proof.
  induction fuel as [|fuel IH]; intros n acc rest; cbn [digits_of]; [reflexivity|].
  destruct (n <? 10)%N; [reflexivity|]. by rewrite IH.
Qed.

Lemma digit_dispatch c :
  is_digit c = true ->
  is_ws c = false /\ Ascii.eqb c "n" = false /\ Ascii.eqb c "t" = false /\
  Ascii.eqb c "f" = false /\ Ascii.eqb c dquote = false /\ Ascii.eqb c "-" = false /\
  Ascii.eqb c "]" = false /\ Ascii.eqb c "}" = false.
Proof.
  destruct c as [[] [] [] [] [] [] [] []]; intros H; try discriminate H;
    repeat split; reflexivity.
Qed.

Lemma skip_ws_idem s : skip_ws (skip_ws s) = skip_ws s.
Proof.
  induction s as [|c s IH]; simpl; [reflexivity|].
  destruct (is_ws c) eqn:E; [exact IH|]. simpl. by rewrite E.
Qed.

Lemma skip_ws_head c s : is_ws c = false -> skip_ws (c :: s) = c :: s.
Proof. intros H. simpl. by rewrite H. Qed.

Lemma read_value_skip fuel s s' :
  skip_ws s = skip_ws s' -> read_value fuel s = read_value fuel s'.
Proof. intros H. destruct fuel; [reflexivity|]. simpl. by rewrite H. Qed.

Lemma read_elements_skip fuel s s' :
  skip_ws s = skip_ws s' -> read_elements fuel s = read_elements fuel s'.
Proof. intros H. destruct fuel; [reflexivity|]. simpl. by rewrite H. Qed.

Lemma read_property_skip fuel s s' :
  skip_ws s = skip_ws s' -> read_property fuel s = read_property fuel s'.
Proof. intros H. destruct fuel; [reflexivity|]. simpl. by rewrite H. Qed.

Lemma read_properties_skip fuel s s' :
  skip_ws s = skip_ws s' -> read_properties fuel s = read_properties fuel s'.
Proof. intros H. destruct fuel; [reflexivity|]. simpl. by rewrite H. Qed.

Lemma read_value_minus fuel d s :
  is_digit d = true ->
  read_value (S fuel) ("-"%char :: d :: s)
  = let '(n, rest) := read_number (d :: s) 0 in Some (JNum (- n), rest).
Proof. intros H. simpl. rewrite H. reflexivity. Qed.

Lemma read_value_number n rest fuel :
  no_digit_ahead rest ->
  read_value (S fuel) (number n ++ rest) = Some (JNum n, rest).
Proof.
  intros Hrest. unfold number.
  set (m := Z.to_N (Z.abs n)).
  destruct (digits_head (N.to_nat (N.size m)) m rest) as (c & tl & Hdigits & Hc).
  destruct (digit_dispatch c Hc) as (Hws & Hn & Ht & Hf & Hq & Hm & _).
  assert (Hread : read_number (c :: tl) 0 = (Z.of_N m, rest)).
  { rewrite <- Hdigits, read_number_digits by apply size_bound.
    by apply read_number_stop. }
  destruct (Z.ltb_spec n 0) as [Hneg|Hpos].
  - simpl app. rewrite digits_of_app. simpl app. rewrite Hdigits.
    rewrite read_value_minus by assumption.
    rewrite Hread. do 3 f_equal. lia.
  - simpl app. rewrite digits_of_app. simpl app. rewrite Hdigits.
    cbn [read_value]. rewrite (skip_ws_head c tl Hws), Hn, Ht, Hf, Hq, Hm, Hc.
    rewrite Hread. do 3 f_equal. lia.
Qed.

Lemma json_nested_ind (P : json -> Prop) :
  P JNull -> (forall b, P (JBool b)) -> (forall n, P (JNum n)) -> (forall s, P (JStr s)) ->
  (forall elements, Forall P elements -> P (JArr elements)) ->
  (forall properties, Forall (fun p => P (snd p)) properties -> P (JObj properties)) ->
  forall v, P v.
Proof.
  intros Hnull Hbool Hnum Hstr Harr Hobj.
  fix IH 1. intros [|b|n|s|elements|properties].
  - exact Hnull.
  - apply Hbool.
  - apply Hnum.
  - apply Hstr.
  - apply Harr. induction elements as [|e elements IHl]; constructor; [apply IH|exact IHl].
  - apply Hobj. induction properties as [|p properties IHl]; constructor; [apply IH|exact IHl].
Qed.

Lemma write_head indent v :
  exists c tl, write indent v = c :: tl /\ value_start c.
Proof.
  destruct v as [|[]|n|s|[|e es]|[|p ps]];
    try (eexists _, _; split; [reflexivity|repeat split; reflexivity]).
  simpl. unfold number.
  destruct (Z.ltb n 0).
  - eexists _, _. split; [reflexivity|repeat split; reflexivity].
  - destruct (digits_head (N.to_nat (N.size (Z.to_N (Z.abs n)))) (Z.to_N (Z.abs n)) [])
      as (c & tl & -> & Hc).
    destruct (digit_dispatch c Hc) as (? & _ & _ & _ & _ & _ & ? & ?).
    eexists _, _. split; [reflexivity|done].
Qed.

Lemma no_digit_newline i s : no_digit_ahead (newline i ++ s).
Proof. reflexivity. Qed.

Lemma no_digit_more_elements i es j s : no_digit_ahead (more_elements i es ++ newline j ++ s).
Proof. destruct es; reflexivity. Qed.

Lemma no_digit_more_properties i ps j s :
  no_digit_ahead (more_properties i ps ++ newline j ++ s).
Proof. destruct ps; reflexivity. Qed.

Lemma more_elements_cons indent e es tail :
  more_elements indent (e :: es) ++ tail
  = ","%char :: newline (2 + indent) ++ write (2 + indent) e
    ++ more_elements indent es ++ tail.
Proof.
  unfold more_elements. cbn [flat_map].
  rewrite <- app_assoc, <- app_comm_cons, <- !app_assoc. reflexivity.
Qed.

Lemma more_properties_cons indent p ps tail :
  more_properties indent (p :: ps) ++ tail
  = ","%char :: newline (2 + indent) ++ quote (fst p) ++ ":"%char :: " "%char
    :: write (2 + indent) (snd p) ++ more_properties indent ps ++ tail.
Proof.
  unfold more_properties. cbn [flat_map].
  rewrite <- app_assoc, <- app_comm_cons, <- !app_assoc. reflexivity.
Qed.

Lemma read_elements_comma fuel s :
  read_elements (S fuel) (","%char :: s)
  = '(e, rest') ← read_value fuel s;
    '(es, rest'') ← read_elements fuel rest';
    Some (e :: es, rest'').
Proof. reflexivity. Qed.

Lemma read_elements_close fuel s : read_elements (S fuel) ("]"%char :: s) = Some ([], s).
Proof. reflexivity. Qed.

Lemma read_properties_comma fuel s :
  read_properties (S fuel) (","%char :: s)
  = '(p, rest') ← read_property fuel s;
    '(ps, rest'') ← read_properties fuel rest';
    Some (p :: ps, rest'').
Proof. reflexivity. Qed.

Lemma read_properties_close fuel s : read_properties (S fuel) ("}"%char :: s) = Some ([], s).
Proof. reflexivity. Qed.

Lemma read_more_elements indent es :
  Forall reads_back es ->
  forall rest fuel,
    (S (list_sum (map (fun e => S (fuel_for e)) es)) <= fuel)%nat ->
    read_elements fuel (more_elements indent es ++ newline indent ++ "]"%char :: rest)
    = Some (es, rest).
Proof.
  induction 1 as [|e es He Hes IH]; intros rest fuel Hfuel.
  - destruct fuel as [|fuel]; [lia|]. change (more_elements indent [] ++ ?x) with x.
    rewrite (read_elements_skip _ _ ("]"%char :: rest)) by apply skip_ws_newline.
    apply read_elements_close.
  - destruct fuel as [|fuel]; [lia|]. cbn [map] in Hfuel.
    change (list_sum (?x :: ?l)) with (x + list_sum l)%nat in Hfuel.
    rewrite more_elements_cons, read_elements_comma.
    rewrite (read_value_skip _ _ (write (2 + indent) e
                                   ++ more_elements indent es ++ newline indent ++ "]"%char :: rest))
      by apply skip_ws_newline.
    rewrite He; [|lia|apply no_digit_more_elements]. cbn [mbind option_bind].
    rewrite IH by lia. reflexivity.
Qed.

Lemma read_one_property fuel indent k e tail :
  reads_back e -> (S (fuel_for e) <= fuel)%nat -> no_digit_ahead tail ->
  read_property fuel (newline indent ++ quote k ++ ":"%char :: " "%char
                      :: write indent e ++ tail)
  = Some ((k, e), tail).
Proof.
  intros He Hfuel Htail. destruct fuel as [|fuel]; [lia|].
  destruct (read_quote k (":"%char :: " "%char :: write indent e ++ tail))
    as (body & Hquote & Hbody).
  rewrite (read_property_skip _ _ (dquote :: body)).
  - cbn [read_property]. rewrite skip_ws_head by reflexivity.
    change (Ascii.eqb dquote dquote) with true. cbv iota.
    rewrite Hbody. cbn [mbind option_bind].
    rewrite skip_ws_head by reflexivity.
    change (Ascii.eqb ":" ":") with true. cbv iota.
    rewrite (read_value_skip _ _ (write indent e ++ tail)) by reflexivity.
    rewrite He; [reflexivity|lia|assumption].
  - rewrite skip_ws_newline. by rewrite Hquote.
Qed.

Lemma read_more_properties indent ps :
  Forall (fun p => reads_back (snd p)) ps ->
  forall rest fuel,
    (S (list_sum (map (fun p => S (S (fuel_for (snd p)))) ps)) <= fuel)%nat ->
    read_properties fuel (more_properties indent ps ++ newline indent ++ "}"%char :: rest)
    = Some (ps, rest).
Proof.
  induction 1 as [|[k e] ps He Hps IH]; intros rest fuel Hfuel.
  - destruct fuel as [|fuel]; [lia|]. change (more_properties indent [] ++ ?x) with x.
    rewrite (read_properties_skip _ _ ("}"%char :: rest)) by apply skip_ws_newline.
    apply read_properties_close.
  - destruct fuel as [|fuel]; [lia|]. cbn [map snd] in Hfuel.
    change (list_sum (?x :: ?l)) with (x + list_sum l)%nat in Hfuel.
    rewrite more_properties_cons, read_properties_comma. cbn [fst snd].
    rewrite read_one_property; [|exact He|lia|apply no_digit_more_properties].
    cbn [mbind option_bind]. rewrite IH by lia. reflexivity.
Qed.

Lemma write_array indent e es rest :
  write indent (JArr (e :: es)) ++ rest
  = "["%char :: newline (2 + indent) ++ write (2 + indent) e
    ++ more_elements indent es ++ newline indent ++ "]"%char :: rest.
Proof.
  cbn [write]. fold (more_elements indent es).
  rewrite <- app_comm_cons, <- !app_assoc. reflexivity.
Qed.

Lemma write_object indent p ps rest :
  write indent (JObj (p :: ps)) ++ rest
  = "{"%char :: newline (2 + indent) ++ quote (fst p) ++ ":"%char :: " "%char
    :: write (2 + indent) (snd p)
    ++ more_properties indent ps ++ newline indent ++ "}"%char :: rest.
Proof.
  cbn [write]. fold (more_properties indent ps).
  rewrite <- app_comm_cons, <- !app_assoc. reflexivity.
Qed.

Lemma read_value_array fuel s c tl :
  skip_ws s = c :: tl -> Ascii.eqb c "]" = false ->
  read_value (S fuel) ("["%char :: s)
  = '(e, rest) ← read_value fuel s;
    '(es, rest') ← read_elements fuel rest;
    Some (JArr (e :: es), rest').
Proof. intros Hs Hc. cbn [read_value skip_ws is_ws]. simpl. rewrite Hs, Hc. reflexivity. Qed.

Lemma read_value_object fuel s c tl :
  skip_ws s = c :: tl -> Ascii.eqb c "}" = false ->
  read_value (S fuel) ("{"%char :: s)
  = '(p, rest) ← read_property fuel s;
    '(ps, rest') ← read_properties fuel rest;
    Some (JObj (p :: ps), rest').
Proof. intros Hs Hc. simpl. rewrite Hs, Hc. reflexivity. Qed.

Lemma read_value_string fuel body :
  read_value (S fuel) (dquote :: body)
  = '(str, rest) ← read_string body []; Some (JStr str, rest).
Proof. reflexivity. Qed.

Lemma write_reads_back v : reads_back v.
Proof.
  induction v as [|b|n|s|elements IH|properties IH] using json_nested_ind;
    intros indent rest fuel Hfuel Hrest.
  - destruct fuel; [simpl in Hfuel; lia|]. reflexivity.
  - destruct fuel; [simpl in Hfuel; lia|]. destruct b; reflexivity.
  - destruct fuel; [simpl in Hfuel; lia|]. by apply read_value_number.
  - destruct fuel; [simpl in Hfuel; lia|].
    destruct (read_quote s rest) as (body & Hquote & Hbody).
    cbn [write]. rewrite Hquote, read_value_string, Hbody. reflexivity.
  - destruct elements as [|e es].
    + destruct fuel; [simpl in Hfuel; lia|]. reflexivity.
    + destruct fuel as [|fuel]; [simpl in Hfuel; lia|].
      cbn [fuel_for map] in Hfuel.
      change (list_sum (?x :: ?l)) with (x + list_sum l)%nat in Hfuel.
      apply Forall_cons in IH as [He Hes].
      rewrite write_array.
      destruct (write_head (2 + indent) e) as (c & tl & Hhead & Hws & Hclose & _).
      set (tail := more_elements indent es ++ newline indent ++ "]"%char :: rest).
      assert (Hskip : skip_ws (newline (2 + indent) ++ write (2 + indent) e ++ tail)
                      = c :: tl ++ tail).
      { rewrite skip_ws_newline, Hhead. by apply skip_ws_head. }
      rewrite (read_value_array _ _ c (tl ++ tail) Hskip Hclose).
      rewrite (read_value_skip _ _ (write (2 + indent) e ++ tail)) by apply skip_ws_newline.
      rewrite He; [|lia|apply no_digit_more_elements]. cbn [mbind option_bind].
      subst tail. rewrite read_more_elements; [reflexivity|assumption|lia].
  - destruct properties as [|[k e] ps].
    + destruct fuel; [simpl in Hfuel; lia|]. reflexivity.
    + destruct fuel as [|fuel]; [simpl in Hfuel; lia|].
      cbn [fuel_for map snd] in Hfuel.
      change (list_sum (?x :: ?l)) with (x + list_sum l)%nat in Hfuel.
      apply Forall_cons in IH as [He Hps]. cbn [snd] in He.
      rewrite write_object. cbn [fst snd].
      set (tail := more_properties indent ps ++ newline indent ++ "}"%char :: rest).
      destruct (read_quote k (":"%char :: " "%char :: write (2 + indent) e ++ tail))
        as (body & Hquote & _).
      assert (Hskip : skip_ws (newline (2 + indent) ++ quote k ++ ":"%char :: " "%char
                               :: write (2 + indent) e ++ tail)
                      = dquote :: body).
      { rewrite skip_ws_newline, Hquote. by apply skip_ws_head. }
      rewrite (read_value_object _ _ dquote body Hskip eq_refl).
      rewrite read_one_property; [|exact He|lia|apply no_digit_more_properties].
      cbn [mbind option_bind].
      subst tail. rewrite read_more_properties; [reflexivity|assumption|lia].
Qed.

Lemma length_newline i : length (newline i) = S i.
Proof. unfold newline. simpl. by rewrite repeat_length. Qed.

Lemma length_quote s : (2 <= length (quote s))%nat.
Proof. unfold quote. simpl. rewrite length_app. simpl. lia. Qed.

Lemma length_number n : (1 <= length (number n))%nat.
Proof.
  unfold number. rewrite length_app.
  destruct (digits_head (N.to_nat (N.size (Z.to_N (Z.abs n)))) (Z.to_N (Z.abs n)) [])
    as (c & tl & -> & _).
  simpl. lia.
Qed.

Lemma fuel_for_length v : forall indent, (fuel_for v <= length (write indent v))%nat.
Proof.
  induction v as [|b|n|s|elements IH|properties IH] using json_nested_ind; intros indent.
  - simpl. lia.
  - destruct b; simpl; lia.
  - apply length_number.
  - cbn [fuel_for write]. pose proof (length_quote s). lia.
  - destruct elements as [|e es]; [simpl; lia|].
    pose proof (write_array indent e es []) as Hw. rewrite app_nil_r in Hw. rewrite Hw.
    apply Forall_cons in IH as [He Hes].
    cbn [fuel_for map length]. change (list_sum (?x :: ?l)) with (x + list_sum l)%nat.
    rewrite !length_app, !length_newline. cbn [length].
    specialize (He (2 + indent)%nat).
    assert (list_sum (map (fun e => S (fuel_for e)) es) <= length (more_elements indent es))%nat.
    { clear -Hes. induction Hes as [|e' es He' Hes IH]; [simpl; lia|].
      pose proof (more_elements_cons indent e' es []) as Hm. rewrite !app_nil_r in Hm.
      rewrite Hm. cbn [map length]. change (list_sum (?x :: ?l)) with (x + list_sum l)%nat.
      rewrite !length_app, length_newline. specialize (He' (2 + indent)%nat). lia. }
    lia.
  - destruct properties as [|[k e] ps]; [simpl; lia|].
    pose proof (write_object indent (k, e) ps []) as Hw. rewrite app_nil_r in Hw. rewrite Hw.
    apply Forall_cons in IH as [He Hps]. cbn [fst snd] in *.
    cbn [fuel_for map length snd]. change (list_sum (?x :: ?l)) with (x + list_sum l)%nat.
    rewrite !length_app, !length_newline. cbn [length]. rewrite !length_app, length_newline.
    cbn [length].
    specialize (He (2 + indent)%nat). pose proof (length_quote k).
    assert (list_sum (map (fun p => S (S (fuel_for (snd p)))) ps)
            <= length (more_properties indent ps))%nat.
    { clear -Hps. induction Hps as [|[k' e'] ps He' Hps IH]; [simpl; lia|].
      pose proof (more_properties_cons indent (k', e') ps []) as Hm.
      rewrite !app_nil_r in Hm. rewrite Hm. cbn [fst snd] in *.
      cbn [map length snd]. change (list_sum (?x :: ?l)) with (x + list_sum l)%nat.
      rewrite !length_app, length_newline. cbn [length]. rewrite length_app.
      specialize (He' (2 + indent)%nat). pose proof (length_quote k'). lia. }
    lia.
Qed.

Lemma parse_stringify v : parse (stringify v) = Some v.
Proof.
  unfold parse, stringify. rewrite list_ascii_of_string_of_list_ascii.
  pose proof (write_reads_back v 0%nat [] (S (length (write 0 v)))) as Hread.
  rewrite app_nil_r in Hread. rewrite Hread; [reflexivity| |exact I].
  pose proof (fuel_for_length v 0%nat). lia.
Qed.

End TextProperties.

(* ===================================================================== *)
(** ** Sorting and collation *)
(* ===================================================================== *)

Section SortProperties.
Import Collation.
Context {A : Type}.
Variable compareFn : A -> A -> Z.
Hypothesis compareFn_total : forall a b, compareFn a b <= 0 \/ compareFn b a <= 0.
Hypothesis compareFn_trans :
  forall a b c, compareFn a b <= 0 -> compareFn b c <= 0 -> compareFn a c <= 0.

Local Abbreviation before := (fun a b => compareFn a b <= 0).

Lemma insert_sorted_perm x l : insert_sorted compareFn x l ≡ₚ x :: l.
Proof.
  induction l as [|y l IH]; simpl; [reflexivity|].
  destruct (compareFn x y <=? 0)%Z; [reflexivity|].
  rewrite IH. apply Permutation_swap.
Qed.

Lemma Array_sort_perm l : Array_sort compareFn l ≡ₚ l.
Proof.
  induction l as [|x l IH]; simpl; [reflexivity|].
  by rewrite insert_sorted_perm, IH.
Qed.

Lemma insert_sorted_StronglySorted x l :
  StronglySorted before l -> StronglySorted before (insert_sorted compareFn x l).
Proof.
  induction 1 as [|y l Hsorted IH Hall]; simpl.
  - repeat constructor.
  - destruct (Z.leb_spec (compareFn x y) 0) as [Hle|Hgt].
    + constructor; [by constructor|]. constructor; [assumption|].
      eapply Forall_impl; [exact Hall|]. intros z Hz. simpl. by eapply compareFn_trans.
    + constructor; [assumption|].
      rewrite insert_sorted_perm. constructor; [|assumption].
      destruct (compareFn_total x y); [lia|assumption].
Qed.

Lemma Array_sort_StronglySorted l : StronglySorted before (Array_sort compareFn l).
Proof.
  induction l as [|x l IH]; simpl; [constructor|].
  by apply insert_sorted_StronglySorted.
Qed.

End SortProperties.

Section CollationProperties.
Import Collation.

Lemma compare_Gt_Lt x y : String_as_OT.compare x y = Gt -> String_as_OT.compare y x = Lt.
Proof.
  intros H. destruct (String_as_OT.compare_spec x y) as [?|?|Hlt]; try discriminate.
  exact Hlt.
Qed.

Lemma compare_Eq_eq x y : String_as_OT.compare x y = Eq -> x = y.
Proof.
  intros H. by destruct (String_as_OT.compare_spec x y); try discriminate.
Qed.

Lemma compare_refl x : String_as_OT.compare x x = Eq.
Proof.
  destruct (String_as_OT.compare_spec x x) as [?|Hlt|Hlt]; [reflexivity| |];
    exfalso; by apply (StrictOrder_Irreflexive (R := String_as_OT.lt) x).
Qed.

Lemma compare_Lt_trans x y z :
  String_as_OT.compare x y = Lt -> String_as_OT.compare y z = Lt ->
  String_as_OT.compare x z = Lt.
Proof. apply (StrictOrder_Transitive (R := String_as_OT.lt)). Qed.

Lemma compare_not_Gt_trans x y z :
  String_as_OT.compare x y <> Gt -> String_as_OT.compare y z <> Gt ->
  String_as_OT.compare x z <> Gt.
Proof.
  intros Hxy Hyz Hxz. apply compare_Gt_Lt in Hxz.
  destruct (String_as_OT.compare x y) eqn:Exy; [|clear Hxy|done].
  - apply compare_Eq_eq in Exy. subst y.
    destruct (String_as_OT.compare x z) eqn:Exz; try done.
    + apply compare_Eq_eq in Exz. subst z. rewrite compare_refl in Hxz. discriminate.
    + pose proof (compare_Lt_trans _ _ _ Exz Hxz) as Hirr.
      rewrite compare_refl in Hirr. discriminate.
  - destruct (String_as_OT.compare y z) eqn:Eyz; [| |done].
    + apply compare_Eq_eq in Eyz. subst z.
      pose proof (compare_Lt_trans _ _ _ Exy Hxz) as Hirr.
      rewrite compare_refl in Hirr. discriminate.
    + pose proof (compare_Lt_trans _ _ _ (compare_Lt_trans _ _ _ Exy Eyz) Hxz) as Hirr.
      rewrite compare_refl in Hirr. discriminate.
Qed.

Lemma localeCompare_le a b : localeCompare a b <= 0 <-> collate a b <> Gt.
Proof. unfold localeCompare. destruct (collate a b); split; (lia || done). Qed.

Lemma collate_not_Gt a b :
  collate a b <> Gt <->
  String_as_OT.compare (map_string Regex.to_lower a) (map_string Regex.to_lower b) = Lt \/
  (map_string Regex.to_lower a = map_string Regex.to_lower b /\
   String_as_OT.compare (map_string swap_case a) (map_string swap_case b) <> Gt).
Proof.
  unfold collate.
  destruct (String_as_OT.compare (map_string Regex.to_lower a)
              (map_string Regex.to_lower b)) eqn:E.
  - apply compare_Eq_eq in E. split; [by right|]. by intros [|[_ ?]].
  - split; [by left|done].
  - split; [done|]. intros [|[Heq _]]; [done|].
    rewrite Heq, compare_refl in E. discriminate.
Qed.

Lemma localeCompare_total a b : localeCompare a b <= 0 \/ localeCompare b a <= 0.
Proof.
  rewrite !localeCompare_le.
  destruct (collate a b) eqn:E; [by left|by left|right].
  unfold collate in *.
  destruct (String_as_OT.compare (map_string Regex.to_lower a)
              (map_string Regex.to_lower b)) eqn:E1; [| discriminate |].
  - apply compare_Eq_eq in E1. rewrite E1, compare_refl.
    apply compare_Gt_Lt in E. by rewrite E.
  - apply compare_Gt_Lt in E1. by rewrite E1.
Qed.

Lemma localeCompare_trans a b c :
  localeCompare a b <= 0 -> localeCompare b c <= 0 -> localeCompare a c <= 0.
Proof.
  rewrite !localeCompare_le, !collate_not_Gt.
  intros [Hab|[Hab Hab']] [Hbc|[Hbc Hbc']].
  - left. by eapply compare_Lt_trans.
  - left. by rewrite <- Hbc.
  - left. by rewrite Hab.
  - right. split; [congruence|]. by eapply compare_not_Gt_trans.
Qed.

End CollationProperties.

(* ===================================================================== *)
(** ** Properties of the list and grep commands *)
(* ===================================================================== *)

Section CommandProperties.
Import Client Cache Collation Commands.
Context {ServerConfig : Type}.
Variable mcpServers : list (string * ServerConfig).
Variable connectToServer : string -> ServerConfig -> option Error.
Variable listTools : string -> Error + list ToolInfo.
Variable serverNotFoundError : string -> Error.
Variable JSON_stringify : json -> string.
Variable ObjectToString : json -> string.
Variable localeCompare : string -> string -> Z.
Variable shouldColorize : bool.

Local Abbreviation fetchServerTools :=
  (fetchServerTools mcpServers connectToServer listTools serverNotFoundError).
Local Abbreviation list_servers :=
  (list_servers mcpServers connectToServer listTools serverNotFoundError localeCompare).
Local Abbreviation listCommand :=
  (listCommand mcpServers connectToServer listTools serverNotFoundError
     JSON_stringify localeCompare shouldColorize).
Local Abbreviation grep_report := (grep_report JSON_stringify ObjectToString shouldColorize).
Local Abbreviation by_name :=
  (fun a b : ServerWithTools => localeCompare (name a) (name b)).

(** The unit of work of the list command reads nothing from the world. *)
Lemma fetchServerTools_result serverName w w' :
  fst (fetchServerTools serverName w) = fst (fetchServerTools serverName w').
Proof.
  unfold Commands.fetchServerTools.
  destruct (getServerConfig _ _ _) as [e|c]; [reflexivity|].
  destruct (connectToServer _ _); [reflexivity|].
  destruct (listTools _); reflexivity.
Qed.

(** It leaves the cache directory alone, and the events it adds are not
    cache events; they start with a connection when the server is
    configured. *)
Lemma fetchServerTools_events serverName w :
  fs (snd (fetchServerTools serverName w)) = fs w /\
  exists new,
    trace (snd (fetchServerTools serverName w)) = (trace w ++ new)%list /\
    forallb (fun e => negb (is_cache_event e)) new = true /\
    match lookup_server serverName mcpServers with
    | Some _ => hd_error new = Some (Connect serverName)
    | None => new = []
    end.
Proof.
  unfold Commands.fetchServerTools, getServerConfig.
  destruct (lookup_server serverName mcpServers) as [c|].
  - destruct (connectToServer _ _).
    + split; [reflexivity|]. by exists [Connect serverName].
    + destruct (listTools _); (split; [reflexivity|]);
        exists [Connect serverName; ListTools serverName; Close serverName];
        simpl; by rewrite <- !app_assoc.
  - split; [reflexivity|]. exists []. simpl. by rewrite app_nil_r.
Qed.

Lemma mapM_id_Some {B : Type} (l : list B) : mapM id (map Some l) = Some l.
Proof. induction l as [|x l IH]; simpl; [reflexivity|]. by rewrite IH. Qed.

Lemma list_servers_eq concurrencyLimit sched w :
  (1 <= concurrencyLimit)%nat ->
  list_servers concurrencyLimit sched w
  = Some (Array_sort by_name
            (map (fun serverName => fst (fetchServerTools serverName w))
                 (listServerNames mcpServers))).
Proof.
  intros Hlimit. unfold Commands.list_servers.
  rewrite processWithConcurrency_expected by assumption. simpl.
  unfold Pool.expected.
  replace (imap _ (listServerNames mcpServers))
    with (map Some (map (fun serverName => fst (fetchServerTools serverName w))
                        (listServerNames mcpServers))).
  - by rewrite mapM_id_Some.
  - rewrite map_map.
    exact (eq_sym (imap_const
                     (fun serverName => Some (fst (fetchServerTools serverName w)))
                     (listServerNames mcpServers))).
Qed.

Lemma getConcurrencyLimit_pos MCP_CONCURRENCY :
  (1 <= getConcurrencyLimit MCP_CONCURRENCY)%nat.
Proof.
  unfold getConcurrencyLimit, DEFAULT_CONCURRENCY.
  destruct MCP_CONCURRENCY as [envConcurrency|]; [|lia].
  destruct (truthy_string envConcurrency); [|lia].
  destruct (parseInt envConcurrency) as [limit|]; [|lia].
  destruct (Z.ltb_spec 0 limit); lia.
Qed.

Lemma listCommand_eq options MCP_CONCURRENCY MCP_DEBUG unit_lines sched w :
  mcpServers <> [] ->
  exists servers,
    list_servers (getConcurrencyLimit MCP_CONCURRENCY) sched w = Some servers /\
    servers = Array_sort by_name
                (map (fun serverName => fst (fetchServerTools serverName w))
                     (listServerNames mcpServers)) /\
    listCommand options MCP_CONCURRENCY MCP_DEBUG unit_lines sched w
    = Some (mkOutput
              [if json_output options
               then formatJson JSON_stringify (JArr (map server_json servers))
               else formatServerList shouldColorize (map displayServer servers)
                      (withDescriptions options)]
              (debug MCP_DEBUG
                 ("Processing " ++ decimal (length (listServerNames mcpServers))
                  ++ " servers with concurrency "
                  ++ decimal (getConcurrencyLimit MCP_CONCURRENCY))
               ++ if debugging MCP_DEBUG then unit_lines else [])%list).
Proof.
  intros Hservers. eexists. split; [apply list_servers_eq, getConcurrencyLimit_pos|].
  split; [reflexivity|].
  unfold Commands.listCommand.
  destruct (listServerNames mcpServers) eqn:Hnames.
  - destruct mcpServers; [done|discriminate].
  - rewrite <- Hnames. rewrite list_servers_eq by apply getConcurrencyLimit_pos. simpl.
    by destruct (json_output options).
Qed.

(** C9. The list command sorts the per-server results with [localeCompare]
    on the server names, for every comparison that is total and
    transitive: what it renders is a permutation of the results of the
    units of work in which, for every server [a] that comes before a server
    [b], [a.name.localeCompare(b.name) <= 0]. *)
Theorem list_servers_sorted_by_localeCompare concurrencyLimit sched w :
  (forall a b, localeCompare a b <= 0 \/ localeCompare b a <= 0) ->
  (forall a b c, localeCompare a b <= 0 -> localeCompare b c <= 0 -> localeCompare a c <= 0) ->
  (1 <= concurrencyLimit)%nat ->
  exists servers,
    list_servers concurrencyLimit sched w = Some servers /\
    servers ≡ₚ map (fun serverName => fst (fetchServerTools serverName w))
                   (listServerNames mcpServers) /\
    StronglySorted (fun a b => localeCompare (name a) (name b) <= 0) servers.
Proof.
  intros Htotal Htrans Hlimit. eexists. split; [by apply list_servers_eq|]. split.
  - apply Array_sort_perm.
  - apply Array_sort_StronglySorted; [intros; apply Htotal|].
    intros a b c. apply Htrans.
Qed.

End CommandProperties.

(* ===================================================================== *)
(** ** Failed servers in the grep and list commands *)
(* ===================================================================== *)

Section FailedServers.
Import Client Cache Collation Commands.
Context {ServerConfig : Type}.
Variable mcpServers : list (string * ServerConfig).
Variable connectToServer : string -> ServerConfig -> option Error.
Variable listTools : string -> Error + list ToolInfo.
Variable serverNotFoundError : string -> Error.
Variable runtime_TypeError : Error.
Variable JSON_parse : string -> option json.
Variable JSON_stringify : json -> string.
Variable StringToNumber : string -> option Z.
Variable ObjectToString : json -> string.
Variable localeCompare : string -> string -> Z.
Variable proc : Process.
Variable shouldColorize : bool.

Local Abbreviation fetchServerTools :=
  (fetchServerTools mcpServers connectToServer listTools serverNotFoundError).
Local Abbreviation listCommand :=
  (listCommand mcpServers connectToServer listTools serverNotFoundError
     JSON_stringify localeCompare shouldColorize).
Local Abbreviation searchServerTools :=
  (searchServerTools mcpServers connectToServer listTools serverNotFoundError
     runtime_TypeError JSON_parse JSON_stringify StringToNumber ObjectToString proc).
Local Abbreviation search_unit :=
  (search_unit mcpServers connectToServer listTools serverNotFoundError
     runtime_TypeError JSON_parse JSON_stringify StringToNumber ObjectToString proc).
Local Abbreviation grepCommand :=
  (grepCommand mcpServers connectToServer listTools serverNotFoundError
     runtime_TypeError JSON_parse JSON_stringify StringToNumber ObjectToString proc
     shouldColorize).
Local Abbreviation getCachedToolList :=
  (getCachedToolList JSON_parse StringToNumber ObjectToString).
Local Abbreviation names := (listServerNames mcpServers).

Lemma lookup_server_In serverName (servers : list (string * ServerConfig)) serverConfig :
  lookup_server serverName servers = Some serverConfig -> In serverName (map fst servers).
Proof.
  induction servers as [|[k c] servers IH]; [done|]. cbn [lookup_server map fst].
  destruct (String.eqb_spec serverName k) as [->|_]; [by left|].
  intros H. right. by apply IH.
Qed.

Lemma mapM_id_imap_Some {A B : Type} (f : nat -> A -> B) (l : list A) :
  mapM id (imap (fun i x => Some (f i x)) l) = Some (imap f l).
Proof.
  rewrite <- (mapM_id_Some (imap f l)). f_equal.
  symmetry. exact (fmap_imap f Some l).
Qed.

(** The result of a unit of work of the grep command carries the name of
    its server. *)
Lemma searchServerTools_serverName pattern_test serverName now now_store w :
  Commands.serverName (fst (searchServerTools pattern_test serverName now now_store w))
  = serverName.
Proof.
  unfold Commands.searchServerTools, search_in, failed_search. cbn [log fs trace].
  destruct (truthy _).
  - cbn [fst]. by destruct (bind _ _).
  - destruct (getServerConfig _ _ _) as [e|c]; [reflexivity|].
    destruct (connectToServer _ _); [reflexivity|].
    destruct (listTools _); [reflexivity|].
    cbn [fst]. by destruct (bind _ _).
Qed.

(** A unit of work that misses the cache and cannot connect, or cannot
    list the tools, ends with the message of that error. *)
Lemma searchServerTools_connection_failed pattern_test serverName serverConfig e
    now now_store w :
  getCachedToolList proc now (fs w) serverName = Normal None ->
  lookup_server serverName mcpServers = Some serverConfig ->
  connectToServer serverName serverConfig = Some e
  \/ (connectToServer serverName serverConfig = None /\ listTools serverName = inl e) ->
  fst (searchServerTools pattern_test serverName now now_store w)
  = mkServerSearchResult serverName [] (Some (message e)).
Proof.
  intros Hmiss Hconfig Hfail.
  unfold Commands.searchServerTools, getServerConfig. cbn [log fs trace].
  rewrite Hmiss, Hconfig. cbn [truthy].
  destruct Hfail as [->|[-> ->]]; reflexivity.
Qed.

Lemma grepCommand_eq options MCP_CONCURRENCY MCP_DEBUG unit_lines globToRegex_test
    sched clock view :
  mcpServers <> [] ->
  grepCommand options MCP_CONCURRENCY MCP_DEBUG unit_lines globToRegex_test sched clock view
  = let serverResults :=
      imap (fun index serverName =>
              search_unit options globToRegex_test clock view serverName index) names in
    let report := grep_report JSON_stringify ObjectToString shouldColorize
                    options serverResults in
    Some (mkOutput (stdout report)
            (debug MCP_DEBUG
               ("Searching " ++ decimal (length names)
                ++ " servers for pattern " ++ String Text.dquote (pattern options)
                ++ String Text.dquote " (concurrency: "
                ++ decimal (getConcurrencyLimit MCP_CONCURRENCY) ++ ")")
             ++ (if debugging MCP_DEBUG then unit_lines else [])
             ++ stderr report)%list).
Proof.
  intros Hservers. unfold Commands.grepCommand.
  destruct names eqn:Hnames.
  - destruct mcpServers; [done|discriminate].
  - rewrite <- Hnames.
    rewrite processWithConcurrency_expected by apply getConcurrencyLimit_pos.
    unfold Pool.expected. cbn [mbind option_bind].
    by rewrite (mapM_id_imap_Some
                  (fun index serverName =>
                     search_unit options globToRegex_test clock view serverName index)).
Qed.

Lemma failedServers_In (serverResults : list ServerSearchResult) serverName :
  In serverName (failedServers serverResults)
  <-> exists r msg, In r serverResults /\ Commands.serverName r = serverName
                    /\ search_error r = Some msg /\ msg <> EmptyString.
Proof.
  unfold failedServers. rewrite in_map_iff. split.
  - intros (r & Hname & Hr). apply list_elem_of_In, list_elem_of_filter in Hr.
    destruct Hr as [Herr Hr].
    destruct (search_error r) as [msg|] eqn:Hmsg; [|done].
    exists r, msg. split; [by apply list_elem_of_In|]. split; [done|]. split; [done|].
    intros ->. done.
  - intros (r & msg & Hr & Hname & Hmsg & Hne). exists r. split; [done|].
    apply list_elem_of_In, list_elem_of_filter. split; [|by apply list_elem_of_In].
    rewrite Hmsg. cbn [truthy_error]. unfold truthy_string.
    destruct (String.eqb_spec msg EmptyString); done.
Qed.

Lemma In_imap {A B : Type} (f : nat -> A -> B) (l : list A) y :
  In y (imap f l) <-> exists i x, l !! i = Some x /\ y = f i x.
Proof.
  rewrite <- list_elem_of_In, elem_of_lookup_imap. split.
  - intros (i & x & -> & Hx). by exists i, x.
  - intros (i & x & Hx & ->). by exists i, x.
Qed.
End FailedServers.

(* ===================================================================== *)
(** ** The properties on concrete inputs *)
(* ===================================================================== *)

Section Instances.
Import Client Cache Collation Commands Examples.

Local Abbreviation get :=
  (getCachedToolList Text.parse not_a_number object_string).

(** An entry of another version is a miss, a file that is not JSON is a
    miss, and an entry older than the TTL is a miss. *)
Lemma getCachedToolList_absent_or_stored_witness :
  get proc0 1705536000001 (store_with "github" (Text.stringify version_999)) "github"
  = Normal None /\
  get proc0 1705536000001 (store_with "corrupted" "not valid json {]") "corrupted"
  = Normal None /\
  get proc0 (1705536000000 + 4000 * 1000)
    (store_with "github" (Text.stringify (cached_json "github" mockTools 1705536000000)))
    "github"
  = Normal None.
Proof.
  split; [|split].
  - destruct (getCachedToolList_absent_or_stored Text.parse not_a_number object_string
                proc0 1705536000001
                (store_with "github" (Text.stringify version_999)) "github")
      as (_ & _ & _ & _ & Hversion & _).
    apply (Hversion (Text.stringify version_999) version_999).
    + apply lookup_singleton_eq.
    + vm_compute. reflexivity.
    + vm_compute. discriminate.
  - destruct (getCachedToolList_absent_or_stored Text.parse not_a_number object_string
                proc0 1705536000001
                (store_with "corrupted" "not valid json {]") "corrupted")
      as (_ & _ & _ & Hparse & _).
    apply (Hparse "not valid json {]").
    + apply lookup_singleton_eq.
    + vm_compute. reflexivity.
  - destruct (getCachedToolList_absent_or_stored Text.parse not_a_number object_string
                proc0 (1705536000000 + 4000 * 1000)
                (store_with "github"
                   (Text.stringify (cached_json "github" mockTools 1705536000000)))
                "github")
      as (_ & _ & _ & _ & _ & Hexpired & _).
    apply (Hexpired (Text.stringify (cached_json "github" mockTools 1705536000000))
             (cached_json "github" mockTools 1705536000000)
             (Some (JNum 1705536000000)) 1705536000000).
    + apply lookup_singleton_eq.
    + vm_compute. reflexivity.
    + reflexivity.
    + reflexivity.
    + vm_compute. reflexivity.
Defined.

(** The tools of the unit tests, and the empty list, stored and read back
    a second later. *)
Lemma cache_round_trip_witness :
  get proc0 1705536001000
    (setCachedToolList Text.stringify proc0 1705536000000 ∅ "test-server" mockTools)
    "test-server"
  = Normal (Some (tools_json mockTools)) /\
  get proc0 1705536001000
    (setCachedToolList Text.stringify proc0 1705536000000 ∅ "empty-tools" [])
    "empty-tools"
  = Normal (Some (JArr [])).
Proof.
  split.
  - apply (cache_round_trip Text.parse Text.stringify not_a_number object_string
             proc0 1705536000000 1705536001000 ∅ "test-server" mockTools).
    + reflexivity.
    + vm_compute. reflexivity.
    + vm_compute. discriminate.
  - apply (cache_round_trip Text.parse Text.stringify not_a_number object_string
             proc0 1705536000000 1705536001000 ∅ "empty-tools" []).
    + reflexivity.
    + vm_compute. reflexivity.
    + vm_compute. discriminate.
Defined.

(** With the JSON reader and writer above for the runtime's, a list that is
    stored is read back within the second, whatever the list, the server
    name, the store and the TTL. *)
Lemma stored_list_read_back StringToNumber ObjectToString proc now later fs serverName tools :
  isCacheDisabled proc = false ->
  later - now <= 1000 ->
  getCachedToolList Text.parse StringToNumber ObjectToString proc later
    (setCachedToolList Text.stringify proc now fs serverName tools) serverName
  = Normal (Some (tools_json tools)).
Proof.
  intros Henabled Hsoon. apply set_then_get; [assumption|apply parse_stringify|].
  pose proof (getCacheTTLMs_ge proc). lia.
Qed.

(** C2. The unit of work of the list command does not consult the cache:
    for a server with a fresh entry in the cache it connects, lists the
    tools and closes, and writes nothing, where the unit of work of the
    grep command reads the entry and does not connect. *)
Theorem list_unit_connects_despite_cache :
  get proc0 1705536001000 (fs cached_github) "github" = Normal (Some (tools_json mockTools)) /\
  trace (snd (fetchServerTools github (connects_except []) (serves mockTools) not_found
                "github" cached_github))
  = [Connect "github"; ListTools "github"; Close "github"] /\
  fs (snd (fetchServerTools github (connects_except []) (serves mockTools) not_found
             "github" cached_github))
  = fs cached_github /\
  trace (snd (searchServerTools github (connects_except []) (serves mockTools) not_found
                type_error Text.parse Text.stringify not_a_number object_string proc0
                (fun _ => true) "github" 1705536001000 1705536001000 cached_github))
  = [CacheLookup "github"].
Proof.
  assert (Hhit : get proc0 1705536001000 (fs cached_github) "github"
                 = Normal (Some (tools_json mockTools))).
  { apply (set_then_get Text.parse Text.stringify not_a_number object_string
             proc0 1705536000000 1705536001000 ∅ "github" mockTools);
      [reflexivity | vm_compute; reflexivity | vm_compute; discriminate]. }
  split; [exact Hhit|]. split; [reflexivity|]. split; [reflexivity|].
  unfold searchServerTools. cbn [log fs trace].
  rewrite Hhit. reflexivity.
Qed.

Lemma list_servers_sorted_by_localeCompare_witness :
  exists servers,
    list_servers two_servers (connects_except []) (serves mockTools) not_found
      localeCompare 5 fifo (mkWorld ∅ []) = Some servers /\
    servers ≡ₚ map (fun serverName =>
                      fst (fetchServerTools two_servers (connects_except [])
                             (serves mockTools) not_found serverName (mkWorld ∅ [])))
                   (listServerNames two_servers) /\
    StronglySorted (fun a b => localeCompare (name a) (name b) <= 0) servers.
Proof.
  apply (list_servers_sorted_by_localeCompare two_servers (connects_except [])
           (serves mockTools) not_found localeCompare 5 fifo (mkWorld ∅ [])).
  - apply localeCompare_total.
  - apply localeCompare_trans.
  - lia.
Defined.

(** With the servers "Zeta" and "alpha" configured, the list command
    renders "alpha" before "Zeta", although "Zeta" is the smaller of the
    two when strings are compared by character code. *)
Lemma list_order_is_not_code_unit_order :
  map name <$> list_servers two_servers (connects_except []) (serves mockTools) not_found
                 localeCompare 5 fifo (mkWorld ∅ [])
  = Some ["alpha"; "Zeta"] /\
  code_unit_lt "Zeta" "alpha" /\
  ~ code_unit_lt "alpha" "Zeta".
Proof. repeat split; vm_compute; congruence. Qed.



End Instances.

(* ===================================================================== *)
(** ** The pool: its limit, and the limits of one and of zero *)
(* ===================================================================== *)

Section PoolSchedule.
Import Pool Invariants.
Local Open Scope nat_scope.
Local Open Scope list_scope.
Context {T R : Type}.
Variable items : list T.
Variable processor : T -> nat -> R.

Local Abbreviation worker := (worker items processor).
Local Abbreviation resume := (resume items processor).
Local Abbreviation run := (run items processor).

Lemma worker_pending_length (st : @State R) :
  length (pending (worker st)) <= S (length (pending st)).
Proof.
  unfold Pool.worker. destruct (items !! currentIndex st); simpl; [|lia].
  rewrite length_app. simpl. lia.
Qed.

Lemma resume_pending_length j (st : @State R) :
  length (pending (resume j st)) <= length (pending st).
Proof.
  unfold Pool.resume. destruct (pending st !! j) as [[index value]|] eqn:Hj; [|lia].
  etransitivity; [apply worker_pending_length|]. simpl.
  rewrite length_delete by eauto. apply lookup_lt_Some in Hj. lia.
Qed.

Lemma run_pending_length sched fuel : forall turn (st : @State R),
  length (pending (run sched turn fuel st)) <= length (pending st).
Proof.
  induction fuel as [|fuel IH]; intros turn st; simpl; [lia|].
  destruct (pending st) as [|p ps] eqn:Hp; [rewrite Hp; simpl; lia|].
  rewrite <- Hp. etransitivity; [apply IH|]. apply resume_pending_length.
Qed.

(** X1. [processWithConcurrency] never has more than [maxConcurrency] calls
    of the processor in flight: after the workers are started, and after
    any number of turns of the event loop under any order of completion,
    the number of pending calls is at most [maxConcurrency]. *)
Theorem pool_never_exceeds_limit maxConcurrency sched turns :
  length (pending (run sched 0 turns
                     (Nat.iter (Nat.min maxConcurrency (length items)) worker (init items))))
  <= maxConcurrency.
Proof.
  etransitivity; [apply run_pending_length|].
  destruct (start_workers items processor (Nat.min maxConcurrency (length items)))
    as (_ & _ & ->); lia.
Qed.

Lemma worker_in_order st :
  pending st = [] -> writes st = seq 0 (currentIndex st) -> in_order (worker st).
Proof.
  intros Hp Hw. unfold Pool.worker.
  destruct (items !! currentIndex st) as [item|]; [|by left].
  right. simpl. rewrite Hp. eexists. split; [reflexivity|]. split; [lia|exact Hw].
Qed.

Lemma resume_in_order j st : in_order st -> in_order (resume j st).
Proof.
  intros [[Hp Hw]|(v & Hp & Hpos & Hw)]; unfold Pool.resume; rewrite Hp.
  - rewrite lookup_nil. by left.
  - destruct j as [|j]; simpl.
    + apply worker_in_order; simpl; [reflexivity|].
      rewrite Hw. rewrite <- seq_S. f_equal. lia.
    + right. exists v. by rewrite Hp.
Qed.

Lemma run_in_order sched fuel : forall turn st,
  in_order st -> in_order (run sched turn fuel st).
Proof.
  induction fuel as [|fuel IH]; intros turn st Hst; simpl; [assumption|].
  destruct (pending st); [assumption|]. apply IH. by apply resume_in_order.
Qed.

(** X2. With a limit of one the pool is sequential: under every order of
    completion the results are written in the order of the items, one for
    each item. *)
Theorem pool_of_one_is_sequential sched :
  writes (final items processor 1 sched) = seq 0 (length items).
Proof.
  destruct (final_state items processor 1 sched) as (_ & Hrest & Hcur); [lia|].
  assert (Hord : in_order (final items processor 1 sched)).
  { unfold final. apply run_in_order.
    destruct (length items) as [|n].
    - left. split; reflexivity.
    - change (Nat.min 1 (S n)) with 1. apply worker_in_order; reflexivity. }
  destruct Hord as [[_ Hw]|(v & Hp & _)]; [by rewrite Hw, Hcur|].
  rewrite Hrest in Hp. discriminate.
Qed.

(** X3. With a limit of zero no worker is started: the call comes to an
    end at once, the processor is never called, and the array it returns
    has the length of the input and holds nothing but holes. *)
Theorem pool_of_none_leaves_holes sched :
  processWithConcurrency items processor 0 sched
  = Some (replicate (length items) None) /\
  writes (final items processor 0 sched) = [].
Proof.
  assert (Hfinal : final items processor 0 sched = init items).
  { unfold final. change (Nat.min 0 (length items)) with 0.
    destruct (length items); reflexivity. }
  unfold processWithConcurrency. rewrite Hfinal. split; reflexivity.
Qed.
End PoolSchedule.

(* ===================================================================== *)
(** ** The retry engine: outcome, sleeps and delays *)
(* ===================================================================== *)

Section RetryBehaviour.
Import Client Config Invariants.
Context {T : Type}.
Variable env : Env T.
Variable config : RetryConfig.

Local Abbreviation retry_loop := (retry_loop env config).

Lemma retry_loop_outcome iterations : forall attempt startTime lastError w,
  last_captured env lastError w ->
  outcome_of_last env (retry_loop iterations attempt startTime lastError w).
Proof.
  induction iterations as [|n IH]; intros attempt startTime lastError w Hlast.
  - unfold outcome_of_last. simpl. destruct lastError; exact Hlast.
  - cbn [Client.retry_loop]. unfold now, invoke, random.
    cbn [clock_reads invocations randoms sleeps].
    destruct (totalBudgetMs config <=? _)%Z.
    + unfold outcome_of_last. simpl. destruct lastError; exact Hlast.
    + destruct (fn env (invocations w)) as [e|v] eqn:Hfn.
      * destruct (_ && _ && _).
        -- apply IH. simpl. eauto.
        -- unfold outcome_of_last. simpl. eauto.
      * unfold outcome_of_last. simpl. eauto.
Qed.

(** X5. What [withRetry] returns or throws is the outcome of its last
    invocation of the operation: a value it returns is the value that
    invocation returned, an error it throws is the error that invocation
    threw, and it throws [undefined] only when it never invoked the
    operation. *)
Theorem withRetry_outcome_of_last_invocation :
  match fst (withRetry env config) with
  | Returned v =>
      exists k, invocations (snd (withRetry env config)) = S k /\ fn env k = inr v
  | Thrown (Some e) =>
      exists k, invocations (snd (withRetry env config)) = S k /\ fn env k = inl e
  | Thrown None => invocations (snd (withRetry env config)) = 0%nat
  end.
Proof.
  rewrite withRetry_unfold.
  apply (retry_loop_outcome _ _ _ None). reflexivity.
Qed.

Lemma retry_loop_sleeps iterations : forall attempt startTime lastError w,
  length (sleeps w) = invocations w -> slept_after_transient env w ->
  let w' := snd (retry_loop iterations attempt startTime lastError w) in
  (length (sleeps w') <= invocations w' <= S (length (sleeps w')))%nat /\
  slept_after_transient env w'.
Proof.
  induction iterations as [|n IH]; intros attempt startTime lastError w Hlen Hsl.
  - simpl. split; [lia|assumption].
  - cbn [Client.retry_loop]. unfold now, invoke, random.
    cbn [clock_reads invocations randoms sleeps].
    destruct (totalBudgetMs config <=? _)%Z.
    + simpl. split; [lia|assumption].
    + destruct (fn env (invocations w)) as [e|v] eqn:Hfn.
      * destruct (_ && _ && _) eqn:Hretry.
        -- apply IH.
           ++ unfold sleep. simpl. rewrite length_app. simpl. lia.
           ++ intros j Hj. unfold sleep in Hj. simpl in Hj.
              rewrite length_app in Hj. simpl in Hj.
              destruct (decide (j = invocations w)) as [->|Hne].
              ** exists e. split; [assumption|].
                 apply andb_prop in Hretry as [Hretry _].
                 by apply andb_prop in Hretry as [_ Hretry].
              ** apply Hsl. lia.
        -- simpl. split; [lia|assumption].
      * simpl. split; [lia|assumption].
Qed.

(** X6. [withRetry] sleeps only between attempts and only after a
    transient failure: the sleeps are as many as the invocations or one
    fewer, and the invocation before each sleep threw an error that
    [isTransientError] accepts. *)
Theorem withRetry_sleeps_only_after_transient :
  let w := snd (withRetry env config) in
  (length (sleeps w) <= invocations w <= length (sleeps w) + 1)%nat /\
  forall j, (j < length (sleeps w))%nat ->
            exists e, fn env j = inl e /\ isTransientError e = true.
Proof.
  rewrite withRetry_unfold.
  destruct (retry_loop_sleeps (S (maxRetries config)) 0 (Date_now env 0) None
              (mkWorld 1 0 0 [])) as [Hlen Hsl]; [reflexivity|intros j Hj; inversion Hj|].
  split; [lia|exact Hsl].
Qed.

Lemma retry_loop_exhausts iterations : forall attempt lastError w,
  (forall k, exists e, fn env k = inl e /\ isTransientError e = true) ->
  (forall k, (k <= 2 * maxRetries config + 2)%nat ->
             Date_now env k - Date_now env 0 < totalBudgetMs config - 1000) ->
  (attempt + iterations = S (maxRetries config))%nat ->
  (0 < iterations)%nat ->
  invocations w = attempt -> length (sleeps w) = attempt ->
  clock_reads w = (1 + 2 * attempt)%nat ->
  let r := retry_loop iterations attempt (Date_now env 0) lastError w in
  invocations (snd r) = S (maxRetries config) /\
  length (sleeps (snd r)) = maxRetries config /\
  exists e, fn env (maxRetries config) = inl e /\ fst r = Thrown (Some e).
Proof.
  induction iterations as [|n IH];
    intros attempt lastError w Hfn Hclock Hsum Hpos Hinv Hsl Hreads; [lia|].
  cbn [Client.retry_loop]. unfold now, invoke, random.
  cbn [clock_reads invocations randoms sleeps].
  destruct (Z.leb_spec (totalBudgetMs config) (Date_now env (clock_reads w) - Date_now env 0))
    as [Hspent|_]; [specialize (Hclock (clock_reads w)); lia|].
  destruct (Hfn (invocations w)) as (e & He & Htr). rewrite He, Htr.
  destruct (Z.ltb_spec 1000 (totalBudgetMs config
                              - (Date_now env (S (clock_reads w)) - Date_now env 0)))
    as [_|Hlow]; [|specialize (Hclock (S (clock_reads w))); lia].
  destruct (Nat.ltb_spec attempt (maxRetries config)) as [Hmore|Hlast]; simpl.
  - apply IH; try assumption; unfold sleep; simpl; try lia.
    rewrite length_app. simpl. lia.
  - assert (Hend : attempt = maxRetries config) by lia.
    repeat split; try lia. exists e. split; [|reflexivity]. by rewrite <- Hend, <- Hinv.
Qed.

(** X7. An operation that always fails with a transient error, with more
    than a second of the budget left at each of the clock readings of
    [withRetry], is invoked [maxRetries + 1] times with [maxRetries] sleeps
    in between, and the error thrown is the one of the last invocation. *)
Theorem withRetry_exhausts_retries :
  (forall k, exists e, fn env k = inl e /\ isTransientError e = true) ->
  (forall k, (k <= 2 * maxRetries config + 2)%nat ->
             Date_now env k - Date_now env 0 < totalBudgetMs config - 1000) ->
  invocations (snd (withRetry env config)) = (maxRetries config + 1)%nat /\
  length (sleeps (snd (withRetry env config))) = maxRetries config /\
  exists e, fn env (maxRetries config) = inl e /\
            fst (withRetry env config) = Thrown (Some e).
Proof.
  intros Hfn Hclock. rewrite withRetry_unfold.
  destruct (retry_loop_exhausts (S (maxRetries config)) 0 None (mkWorld 1 0 0 []))
    as (Hinv & Hsl & He); try assumption; try reflexivity; try lia.
  repeat split; [lia|assumption|assumption].
Qed.

(** The delay of [calculateDelay] for a random number between 0 and 1. *)
Lemma calculateDelay_bounds attempt rnd :
  0 <= baseDelayMs config -> (0 <= maxDelayMs config)%Q -> (0 <= rnd)%Q -> (rnd <= 1)%Q ->
  0 <= calculateDelay attempt config rnd /\
  (inject_Z (calculateDelay attempt config rnd) <= maxDelayMs config * (5 # 4) + (1 # 2))%Q.
Proof.
  intros Hbase Hmax Hlo Hhi. unfold calculateDelay, Math_round.
  set (exponentialDelay := (inject_Z (baseDelayMs config) * inject_Z (2 ^ Z.of_nat attempt))%Q).
  set (capped := Qmin exponentialDelay (maxDelayMs config)).
  assert (Hexp : (0 <= exponentialDelay)%Q).
  { apply Qmult_le_0_compat; rewrite <- (Zle_Qle 0); [assumption|].
    apply Z.pow_nonneg. lia. }
  assert (Hcap0 : (0 <= capped)%Q) by (apply Q.min_glb; assumption).
  assert (Hcap1 : (capped <= maxDelayMs config)%Q) by apply Q.le_min_r.
  assert (Hprod0 : (0 <= capped * rnd)%Q) by (by apply Qmult_le_0_compat).
  assert (Hprod1 : (rnd * capped <= 1 * capped)%Q) by (by apply Qmult_le_compat_r).
  set (x := (capped + capped * (1 # 4) * (rnd * inject_Z 2 - inject_Z 1))%Q).
  assert (Hx : (x == capped * (3 # 4) + (capped * rnd) * (1 # 2))%Q).
  { unfold x. change (inject_Z 2) with (2 # 1). change (inject_Z 1) with (1 # 1). ring. }
  split.
  - change 0 with (Qfloor 0). apply Qfloor_resp_le. rewrite Hx. lra.
  - eapply Qle_trans; [apply Qfloor_le|]. rewrite Hx. lra.
Qed.
End RetryBehaviour.

Section EnvironmentConfig.
Import Client Config.

Lemma getTimeoutMs_ge env : 1000 <= getTimeoutMs env.
Proof.
  unfold getTimeoutMs, DEFAULT_TIMEOUT_MS, DEFAULT_TIMEOUT_SECONDS.
  destruct (MCP_TIMEOUT env) as [s|]; [|lia].
  destruct (Cache.truthy_string s); [|lia].
  destruct (Cache.parseInt s) as [seconds|]; [|lia].
  destruct (Z.ltb_spec 0 seconds); lia.
Qed.

Lemma getRetryDelayMs_ge env : 1 <= getRetryDelayMs env.
Proof.
  unfold getRetryDelayMs, DEFAULT_RETRY_DELAY_MS.
  destruct (MCP_RETRY_DELAY env) as [s|]; [|lia].
  destruct (Cache.truthy_string s); [|lia].
  destruct (Cache.parseInt s) as [delay|]; [|lia].
  destruct (Z.ltb_spec 0 delay); lia.
Qed.

Lemma retryConfig_range env :
  1000 <= totalBudgetMs (retryConfig env) /\
  1 <= baseDelayMs (retryConfig env) /\
  (0 <= maxDelayMs (retryConfig env))%Q /\
  (maxDelayMs (retryConfig env) <= inject_Z 10000)%Q /\
  (inject_Z 2 * maxDelayMs (retryConfig env)
   <= inject_Z (Z.max 0 (totalBudgetMs (retryConfig env) - 5000)))%Q.
Proof.
  unfold retryConfig, getRetryConfig. cbn [totalBudgetMs baseDelayMs maxDelayMs].
  pose proof (getTimeoutMs_ge env). pose proof (getRetryDelayMs_ge env).
  set (budget := Z.max 0 (getTimeoutMs env - 5000)).
  assert (Hb : (0 <= inject_Z budget)%Q) by (rewrite <- (Zle_Qle 0); lia).
  assert (Hhalf : (inject_Z budget / inject_Z 2 == inject_Z budget * (1 # 2))%Q)
    by (change (inject_Z 2) with (2 # 1); field).
  repeat split; try assumption.
  - apply Q.min_glb; [done|]. rewrite Hhalf. lra.
  - apply Q.le_min_l.
  - eapply Qle_trans; [apply Qmult_le_l; [reflexivity|apply Q.le_min_r]|].
    rewrite Hhalf. change (inject_Z 2) with (2 # 1). lra.
Qed.

(** X4. Whatever [MCP_TIMEOUT], [MCP_MAX_RETRIES] and [MCP_RETRY_DELAY]
    hold, the retry configuration read from them has a total budget of at
    least a second, a base delay of at least a millisecond, and a maximal
    delay between 0 and 10 seconds that is at most half of what the budget
    leaves above five seconds. *)
Theorem retryConfig_in_range env :
  1000 <= totalBudgetMs (retryConfig env) /\
  1 <= baseDelayMs (retryConfig env) /\
  (0 <= maxDelayMs (retryConfig env))%Q /\
  (maxDelayMs (retryConfig env) <= inject_Z 10000)%Q /\
  (inject_Z 2 * maxDelayMs (retryConfig env)
   <= inject_Z (Z.max 0 (totalBudgetMs (retryConfig env) - 5000)))%Q.
Proof. exact (retryConfig_range env). Qed.

Lemma retry_loop_sleeps_bounded {T : Type} (E : Env T) config iterations :
  0 <= baseDelayMs config ->
  (0 <= maxDelayMs config)%Q -> (maxDelayMs config <= inject_Z 10000)%Q ->
  (forall k, (0 <= Math_random E k)%Q /\ (Math_random E k <= 1)%Q) ->
  forall attempt startTime lastError w,
    Forall (fun delay => 0 <= delay <= 12500) (sleeps w) ->
    Forall (fun delay => 0 <= delay <= 12500)
           (sleeps (snd (retry_loop E config iterations attempt startTime lastError w))).
Proof.
  intros Hbase Hmax0 Hmax1 Hrnd.
  induction iterations as [|n IH]; intros attempt startTime lastError w Hw; [exact Hw|].
  cbn [retry_loop]. unfold now, invoke, random.
  cbn [clock_reads invocations randoms sleeps].
  destruct (totalBudgetMs config <=? _)%Z; [exact Hw|].
  destruct (fn E (invocations w)) as [e|v]; [|exact Hw].
  destruct (_ <? maxRetries config)%nat; [|exact Hw].
  destruct (isTransientError e); [|exact Hw].
  destruct (Z.ltb_spec 1000 (totalBudgetMs config
                              - (Date_now E (S (clock_reads w)) - startTime)))
    as [Hleft|_]; [|exact Hw].
  cbn [andb]. apply IH. unfold sleep. cbn [sleeps].
  apply Forall_app. split; [exact Hw|]. constructor; [|constructor].
  destruct (Hrnd (randoms w)) as [Hlo Hhi].
  destruct (calculateDelay_bounds config attempt (Math_random E (randoms w))
              Hbase Hmax0 Hlo Hhi) as [Hd0 Hd1].
  assert (Hd : calculateDelay attempt config (Math_random E (randoms w)) <= 12500).
  { change (inject_Z 10000) with (10000 # 1) in Hmax1.
    assert (Hq : (inject_Z (calculateDelay attempt config (Math_random E (randoms w)))
                  <= 25001 # 2)%Q) by lra.
    unfold Qle in Hq. cbn [Qnum Qden inject_Z] in Hq. lia. }
  lia.
Qed.

(** X8. Under the configuration read from the environment, whatever the
    environment variables hold, every delay [withRetry] sleeps is between 0
    and 12500 milliseconds, for random numbers between 0 and 1. *)
Theorem withRetry_sleeps_bounded {T : Type} (E : Env T) env :
  (forall k, (0 <= Math_random E k)%Q /\ (Math_random E k <= 1)%Q) ->
  Forall (fun delay => 0 <= delay <= 12500)
         (sleeps (snd (withRetry E (retryConfig env)))).
Proof.
  intros Hrnd. rewrite withRetry_unfold.
  destruct (retryConfig_range env) as (_ & Hbase & Hmax0 & Hmax1 & _).
  apply retry_loop_sleeps_bounded; try assumption; [lia|constructor].
Qed.
End EnvironmentConfig.

(* ===================================================================== *)
(** ** The classifier and the case of the message *)
(* ===================================================================== *)

Section CaseInsensitive.
Import Regex Client CaseFolding.
Local Open Scope nat_scope.
Local Open Scope list_scope.

Lemma to_lower_idem c : to_lower (to_lower c) = to_lower c.
Proof. destruct c as [[] [] [] [] [] [] [] []]; reflexivity. Qed.

Lemma is_space_to_lower c : is_space (to_lower c) = is_space c.
Proof. destruct c as [[] [] [] [] [] [] [] []]; reflexivity. Qed.

Lemma is_word_to_lower c : is_word (to_lower c) = is_word c.
Proof. destruct c as [[] [] [] [] [] [] [] []]; reflexivity. Qed.

Lemma to_lower_cases x :
  (is_upper x = true /\ is_lower (to_lower x) = true) \/ to_lower x = x.
Proof. destruct x as [[] [] [] [] [] [] [] []]; (by right) || (by left). Qed.

Lemma char_eq_to_lower ignore_case c x :
  ignore_case = true \/ negb (is_upper c) && negb (is_lower c) = true ->
  char_eq ignore_case c (to_lower x) = char_eq ignore_case c x.
Proof.
  intros [->|Hc]; unfold char_eq.
  - by rewrite to_lower_idem.
  - destruct ignore_case; [by rewrite to_lower_idem|].
    apply andb_prop in Hc as [Hu Hl]. apply negb_true_iff in Hu, Hl.
    destruct (to_lower_cases x) as [[Hx Hlx]| -> ]; [|reflexivity].
    destruct (Ascii.eqb_spec c (to_lower x)) as [->|_]; [congruence|].
    destruct (Ascii.eqb_spec c x) as [->|_]; [congruence|reflexivity].
Qed.

Lemma word_before_lower p : word_before (lower_pos p) = word_before p.
Proof. destruct p as [[c|] s]; simpl; [apply is_word_to_lower|reflexivity]. Qed.

Lemma word_after_lower p : word_after (lower_pos p) = word_after p.
Proof. destruct p as [c [|x s]]; simpl; [reflexivity|apply is_word_to_lower]. Qed.

Lemma flat_map_map {A B C : Type} (f : A -> B) (g : B -> list C) l :
  flat_map g (map f l) = flat_map (fun x => g (f x)) l.
Proof. induction l as [|x l IH]; simpl; [reflexivity|by rewrite IH]. Qed.

Lemma map_flat_map {A B C : Type} (f : B -> C) (g : A -> list B) l :
  map f (flat_map g l) = flat_map (fun x => map f (g x)) l.
Proof. induction l as [|x l IH]; simpl; [reflexivity|by rewrite map_app, IH]. Qed.

Lemma star_ends_lower body fuel :
  (forall p, body (lower_pos p) = map lower_pos (body p)) ->
  forall p, star_ends body fuel (lower_pos p)
            = map lower_pos (star_ends body fuel p).
Proof.
  intros Hbody. induction fuel as [|fuel IH]; intros p; simpl; [reflexivity|].
  rewrite map_app. simpl. f_equal.
  rewrite Hbody, flat_map_map, map_flat_map.
  apply flat_map_ext. intros q. simpl. rewrite !length_map.
  destruct (_ <? _)%nat; [apply IH|reflexivity].
Qed.

Lemma ends_lower ignore_case r :
  ignore_case = true \/ letterless r = true ->
  forall p, ends ignore_case r (lower_pos p) = map lower_pos (ends ignore_case r p).
Proof.
  induction r as [|c| |r1 IH1 r2 IH2|r1 IH1 r2 IH2|r IH| |]; intros Hsafe p.
  - reflexivity.
  - destruct p as [prev [|x rest]]; simpl; [reflexivity|].
    rewrite char_eq_to_lower by exact Hsafe.
    by destruct (char_eq ignore_case c x).
  - destruct p as [prev [|x rest]]; simpl; [reflexivity|].
    rewrite is_space_to_lower. by destruct (is_space x).
  - assert (H1 : ignore_case = true \/ letterless r1 = true)
      by (destruct Hsafe as [?|[? ?]%andb_prop]; auto).
    assert (H2 : ignore_case = true \/ letterless r2 = true)
      by (destruct Hsafe as [?|[? ?]%andb_prop]; auto).
    simpl. rewrite IH1 by assumption. rewrite flat_map_map, map_flat_map.
    apply flat_map_ext. intros q. by apply IH2.
  - assert (H1 : ignore_case = true \/ letterless r1 = true)
      by (destruct Hsafe as [?|[? ?]%andb_prop]; auto).
    assert (H2 : ignore_case = true \/ letterless r2 = true)
      by (destruct Hsafe as [?|[? ?]%andb_prop]; auto).
    simpl. by rewrite map_app, IH1, IH2.
  - simpl. rewrite length_map. apply star_ends_lower. by apply IH.
  - cbn [ends]. rewrite word_before_lower, word_after_lower.
    by destruct (xorb _ _).
  - destruct p as [[c|] s]; reflexivity.
Qed.

Lemma matches_at_lower ignore_case r p :
  ignore_case = true \/ letterless r = true ->
  matches_at ignore_case r (lower_pos p) = matches_at ignore_case r p.
Proof.
  intros Hsafe. unfold matches_at. rewrite ends_lower by exact Hsafe.
  by destruct (ends ignore_case r p).
Qed.

Lemma search_lower ignore_case r :
  ignore_case = true \/ letterless r = true ->
  forall input prev,
    search ignore_case r (option_map to_lower prev) (map to_lower input)
    = search ignore_case r prev input.
Proof.
  intros Hsafe. induction input as [|x input IH]; intros prev.
  - cbn [search map].
    rewrite <- (matches_at_lower ignore_case r (prev, []) Hsafe). reflexivity.
  - cbn [search map].
    rewrite <- (matches_at_lower ignore_case r (prev, x :: input) Hsafe).
    apply f_equal2; [reflexivity|]. apply (IH (Some x)).
Qed.

Lemma test_toLowerCase r s :
  letterless r = true -> test r (Cache.toLowerCase s) = test r s.
Proof.
  intros Hr. unfold test, Cache.toLowerCase.
  rewrite list_ascii_of_string_of_list_ascii.
  apply (search_lower false r (or_intror Hr) _ None).
Qed.

Lemma test_i_toLowerCase r s : test_i r (Cache.toLowerCase s) = test_i r s.
Proof.
  unfold test_i, Cache.toLowerCase.
  rewrite list_ascii_of_string_of_list_ascii.
  apply (search_lower true r (or_introl eq_refl) _ None).
Qed.

(** X9. [isTransientError] does not depend on the case of the message: an
    error and the same error with its message in lower case are classified
    alike, whatever the message and the code. *)
Theorem isTransientError_ignores_case msg fault :
  isTransientError (mkError (Cache.toLowerCase msg) fault)
  = isTransientError (mkError msg fault).
Proof.
  unfold isTransientError, has_transient_code. cbn [message code].
  rewrite test_toLowerCase by reflexivity.
  by rewrite !test_i_toLowerCase.
Qed.
End CaseInsensitive.

(* ===================================================================== *)
(** ** The cache: expiry, file names and clearing *)
(* ===================================================================== *)

Section CacheAdminProperties.
Import Regex Cache CacheAdmin Ascii7.
Variable JSON_parse : string -> option json.
Variable JSON_stringify : json -> string.
Variable StringToNumber : string -> option Z.
Variable ObjectToString : json -> string.

Local Abbreviation getCachedToolList :=
  (getCachedToolList JSON_parse StringToNumber ObjectToString).
Local Abbreviation setCachedToolList := (setCachedToolList JSON_stringify).
Local Abbreviation entry_tools := (entry_tools JSON_parse StringToNumber ObjectToString).

Lemma append_inj_l (a b c : string) : a ++ b = a ++ c -> b = c.
Proof. induction a as [|x a IH]; simpl; [done|]. intros [=]. auto. Qed.

Lemma append_inj_r (a b c : string) : a ++ c = b ++ c -> a = b.
Proof.
  intros H. apply (f_equal list_ascii_of_string) in H.
  assert (Happ : forall x y, list_ascii_of_string (x ++ y)
                   = (list_ascii_of_string x ++ list_ascii_of_string y)%list).
  { intros x y. induction x as [|h x IH]; simpl; [done|by rewrite IH]. }
  rewrite !Happ in H. apply app_inv_tail in H.
  rewrite <- (string_of_list_ascii_of_string a), H.
  apply string_of_list_ascii_of_string.
Qed.

Lemma getCacheFilePath_eq proc a b :
  getCacheFilePath proc a = getCacheFilePath proc b <-> safeName a = safeName b.
Proof.
  unfold getCacheFilePath, join. cbn [String.concat]. fold (safeName a) (safeName b).
  split; [|by intros ->].
  intros H. apply append_inj_l in H. apply append_inj_l in H.
  by apply append_inj_r in H.
Qed.

Lemma safe_name_fixed s : safe_name s = true -> safeName s = s.
Proof.
  unfold safe_name, safeName. intros H.
  rewrite <- (string_of_list_ascii_of_string s) at 2. f_equal.
  induction (list_ascii_of_string s) as [|c l IH]; [done|].
  cbn [forallb] in H. apply andb_prop in H as [Hc Hl].
  apply Ascii.eqb_eq in Hc. cbn [map]. by rewrite Hc, IH.
Qed.

Lemma expired_entry proc now later serverName tools :
  JSON_parse (JSON_stringify (cached_json serverName tools now))
  = Some (cached_json serverName tools now) ->
  entry_tools (JSON_stringify (cached_json serverName tools now)) proc later
  = if (getCacheTTLMs proc <? later - now)%Z then None else Some (tools_json tools).
Proof.
  intros Hparse. unfold Cache.entry_tools. rewrite Hparse.
  cbn -[getCacheTTLMs Z.sub Z.ltb]. 
  by destruct (getCacheTTLMs proc <? later - now)%Z.
Qed.

(** X10. With the cache enabled and a [JSON.parse] that reads the stored
    record back, a list stored at [now] is returned by a look-up at [later]
    when [later - now] is at most the TTL, and is a miss when it is more. *)
Theorem cache_entry_expires proc now later fs serverName tools :
  isCacheDisabled proc = false ->
  JSON_parse (JSON_stringify (cached_json serverName tools now))
  = Some (cached_json serverName tools now) ->
  getCachedToolList proc later (setCachedToolList proc now fs serverName tools) serverName
  = Normal (if (getCacheTTLMs proc <? later - now)%Z then None
            else Some (tools_json tools)).
Proof.
  intros Hon Hparse. rewrite getCachedToolList_eq. unfold Cache.setCachedToolList.
  rewrite Hon, lookup_insert_eq. f_equal. by apply expired_entry.
Qed.

(** X11. Two server names of ASCII characters with the same sanitised form
    share one cache file: what is stored under one is returned, within the
    TTL, by a look-up of the other. *)
Theorem cache_shared_by_names_with_equal_sanitised_form
    proc now later fs serverName otherName tools :
  is_ascii serverName = true -> is_ascii otherName = true ->
  isCacheDisabled proc = false ->
  JSON_parse (JSON_stringify (cached_json serverName tools now))
  = Some (cached_json serverName tools now) ->
  (later - now <= getCacheTTLMs proc)%Z ->
  map safe_char (list_ascii_of_string otherName)
  = map safe_char (list_ascii_of_string serverName) ->
  getCachedToolList proc later (setCachedToolList proc now fs serverName tools) otherName
  = Normal (Some (tools_json tools)).
Proof.
  intros _ _ Hon Hparse Hfresh Hsame. rewrite getCachedToolList_eq.
  unfold Cache.setCachedToolList. rewrite Hon.
  assert (Hpath : getCacheFilePath proc otherName = getCacheFilePath proc serverName)
    by (apply getCacheFilePath_eq; unfold safeName; by rewrite Hsame).
  rewrite Hpath, lookup_insert_eq. f_equal. rewrite expired_entry by exact Hparse.
  destruct (Z.ltb_spec (getCacheTTLMs proc) (later - now)); [lia|reflexivity].
Qed.

(** X12. Server names made of letters, digits, [_] and [-] only have
    cache files of their own: storing a list for one of them, or clearing
    its cache, changes no look-up of another. *)
Theorem cache_entries_of_safe_names_are_separate
    proc now later fs serverName otherName tools :
  safe_name serverName = true -> safe_name otherName = true ->
  otherName <> serverName ->
  getCachedToolList proc later (setCachedToolList proc now fs serverName tools) otherName
  = getCachedToolList proc later fs otherName
  /\ getCachedToolList proc later (clearServerCache proc fs serverName) otherName
     = getCachedToolList proc later fs otherName.
Proof.
  intros Hs Ho Hne.
  assert (Hpath : getCacheFilePath proc serverName <> getCacheFilePath proc otherName).
  { intros H%getCacheFilePath_eq. rewrite !safe_name_fixed in H by assumption.
    congruence. }
  rewrite !getCachedToolList_eq. unfold Cache.setCachedToolList, clearServerCache.
  split.
  - destruct (isCacheDisabled proc); [reflexivity|].
    by rewrite lookup_insert_ne.
  - destruct (fs !! getCacheFilePath proc serverName); [|reflexivity].
    by rewrite lookup_delete_ne.
Qed.

(** X13. After [clearServerCache] a look-up of that server is a miss,
    whatever the cache held. *)
Theorem clearServerCache_forgets proc later fs serverName :
  getCachedToolList proc later (clearServerCache proc fs serverName) serverName
  = Normal None.
Proof.
  rewrite getCachedToolList_eq. unfold clearServerCache.
  destruct (isCacheDisabled proc); [reflexivity|].
  destruct (fs !! getCacheFilePath proc serverName) eqn:Hfile.
  - by rewrite lookup_delete_eq.
  - by rewrite Hfile.
Qed.

Lemma prefix_append (a b : string) : String.prefix a (a ++ b) = true.
Proof.
  induction a as [|c a IH]; simpl; [by destruct b|].
  by destruct (Ascii.ascii_dec c c).
Qed.

Lemma prefix_under (a b c : string) :
  String.prefix b c = true -> String.prefix (a ++ b) (a ++ c) = true.
Proof.
  intros H. induction a as [|x a IH]; simpl; [exact H|].
  by destruct (Ascii.ascii_dec x x).
Qed.

Lemma cache_file_under_dir proc serverName :
  under (getCacheDir proc) (getCacheFilePath proc serverName) = true.
Proof.
  unfold under, getCacheFilePath, join. cbn [String.concat].
  apply prefix_under. apply (prefix_append "/").
Qed.

(** X14. After [clearAllCaches] the look-up of every server is a miss,
    and the files outside the cache directory are as they were. *)
Theorem clearAllCaches_forgets_every_server proc later fs :
  (forall serverName,
     getCachedToolList proc later (clearAllCaches proc fs) serverName = Normal None)
  /\ (forall path, under (getCacheDir proc) path = false ->
        clearAllCaches proc fs !! path = fs !! path).
Proof.
  split.
  - intros serverName. rewrite getCachedToolList_eq.
    destruct (isCacheDisabled proc); [reflexivity|].
    unfold clearAllCaches.
    destruct (filter _ fs !! _) eqn:Hfile; [|reflexivity].
    apply map_lookup_filter_Some in Hfile as [_ Hout]. cbn [fst] in Hout.
    by rewrite cache_file_under_dir in Hout.
  - intros path Hout. unfold clearAllCaches.
    destruct (fs !! path) eqn:Hfile.
    + by apply map_lookup_filter_Some.
    + apply map_lookup_filter_None. by left.
Qed.
End CacheAdminProperties.

(* ===================================================================== *)
(** ** The glob patterns of the grep command *)
(* ===================================================================== *)

Section GlobProperties.
Import Regex Cache Glob Ascii7.
Local Open Scope nat_scope.
Local Open Scope list_scope.

Local Abbreviation chars := list_ascii_of_string.
Local Abbreviation literal := (fun c : ascii => One (Lit (special c) c)).

Lemma chars_append (a b : string) : chars (a ++ b)%string = chars a ++ chars b.
Proof. induction a as [|x a IH]; simpl; [done|by rewrite IH]. Qed.

Lemma of_chars_app (l k : list ascii) :
  string_of_list_ascii (l ++ k) = (string_of_list_ascii l ++ string_of_list_ascii k)%string.
Proof. induction l as [|x l IH]; simpl; [done|by rewrite IH]. Qed.

Lemma toLowerCase_eq (a b : string) :
  toLowerCase a = toLowerCase b <-> map to_lower (chars a) = map to_lower (chars b).
Proof.
  unfold toLowerCase. split; [|by intros ->].
  intros H. apply (f_equal chars) in H.
  by rewrite !list_ascii_of_string_of_list_ascii in H.
Qed.

Lemma matches_many a rest input :
  matches (Many a :: rest) input
  = matches rest input
    || match input with
       | x :: input' => accepts a x && matches (Many a :: rest) input'
       | [] => false
       end.
Proof. by destruct input. Qed.

Lemma matches_many_iff a rest input :
  matches (Many a :: rest) input = true
  <-> exists pre tail, input = pre ++ tail /\ forallb (accepts a) pre = true
                       /\ matches rest tail = true.
Proof.
  split.
  - induction input as [|x input IH]; rewrite matches_many.
    + rewrite orb_false_r. intros H. by exists [], [].
    + intros [H|[Hx H]%andb_prop]%orb_prop.
      * by exists [], (x :: input).
      * destruct (IH H) as (pre & tail & -> & Hpre & Htail).
        exists (x :: pre), tail. cbn [forallb]. by rewrite Hx, Hpre.
  - intros (pre & tail & -> & Hpre & Htail).
    induction pre as [|x pre IH]; rewrite matches_many.
    + cbn [app]. by rewrite Htail.
    + cbn [forallb] in Hpre. apply andb_prop in Hpre as [Hx Hpre].
      cbn [app]. rewrite Hx, (IH Hpre). apply orb_true_r.
Qed.

Lemma matches_literals_iff l rest : forall input,
  matches (map literal l ++ rest) input = true
  <-> exists m tail, input = m ++ tail /\ map to_lower m = map to_lower l
                     /\ matches rest tail = true.
Proof.
  induction l as [|c l IH]; intros input.
  - cbn [map app]. split.
    + intros H. by exists [], input.
    + intros (m & tail & -> & Hm & H). by destruct m.
  - cbn [map app matches]. destruct input as [|x input].
    + split; [done|]. intros (m & tail & Hin & Hm & _). by destruct m.
    + split.
      * intros [Hx H]%andb_prop. apply IH in H as (m & tail & -> & Hm & H).
        exists (x :: m), tail. split; [done|]. split; [|done].
        cbn [map]. f_equal; [|done].
        cbn [accepts] in Hx. unfold char_eq in Hx. symmetry. by apply Ascii.eqb_eq.
      * intros (m & tail & Hin & Hm & H). destruct m as [|y m]; [done|].
        cbn [map app] in Hin, Hm. injection Hin as -> ->. injection Hm as Hy Hm.
        apply andb_true_intro. split.
        -- cbn [accepts]. unfold char_eq. rewrite Hy. apply Ascii.eqb_refl.
        -- apply IH. by exists m, tail.
Qed.

Lemma matches_nil input : matches [] input = true <-> input = [].
Proof. by destruct input. Qed.

Lemma items_wildcard_free l : forall after_globstar,
  forallb (fun c => negb (Ascii.eqb c "*") && negb (Ascii.eqb c "?")) l = true ->
  items_from after_globstar l = map literal l.
Proof.
  induction l as [|c l IH]; intros flag H; [done|].
  cbn [forallb] in H. apply andb_prop in H as [[Hstar Hq]%andb_prop Hl].
  apply negb_true_iff in Hstar, Hq. cbn [items_from map].
  by rewrite Hstar, Hq, IH.
Qed.

(** X15. In ASCII text, a pattern without [*] and [?] matches exactly the
    strings equal to it up to the case of the letters. *)
Theorem plain_pattern_matches_up_to_case pattern s :
  is_ascii pattern = true -> is_ascii s = true ->
  wildcard_free pattern = true ->
  RegExp_test (globToRegex pattern) s = true <-> toLowerCase s = toLowerCase pattern.
Proof.
  intros _ _ Hfree. unfold RegExp_test, globToRegex.
  rewrite (items_wildcard_free _ false Hfree), toLowerCase_eq.
  rewrite <- (app_nil_r (map _ _)), matches_literals_iff. split.
  - intros (m & tail & -> & Hm & ->%matches_nil). by rewrite app_nil_r.
  - intros H. exists (chars s), []. by rewrite app_nil_r.
Qed.

Lemma items_literals_then tail k : forall c after_globstar,
  forallb (fun c => negb (Ascii.eqb c "*") && negb (Ascii.eqb c "?")) (c :: k) = true ->
  items_from after_globstar ((c :: k) ++ tail)
  = map literal (c :: k) ++ items_from false tail.
Proof.
  induction k as [|c' k IH]; intros c flag H;
    cbn [forallb] in H; apply andb_prop in H as [[Hstar Hq]%andb_prop Hk];
    apply negb_true_iff in Hstar, Hq.
  - cbn [app map items_from]. by rewrite Hstar, Hq.
  - change ((c :: c' :: k) ++ tail) with (c :: ((c' :: k) ++ tail)).
    cbn [items_from]. rewrite Hstar, Hq. rewrite (IH c' false Hk). done.
Qed.

Lemma items_star_other q tail :
  Ascii.eqb q "*" = false ->
  items_from false ("*"%char :: q :: tail)
  = Many NotSlash :: items_from false (q :: tail).
Proof.
  intros Hq.
  change (items_from false ("*"%char :: q :: tail))
    with (if Ascii.eqb q "*" then Many Dot :: items_from true tail
          else Many NotSlash :: items_from false (q :: tail)).
  by rewrite Hq.
Qed.

Lemma items_between_stars q rest :
  forallb (fun c => negb (Ascii.eqb c "*") && negb (Ascii.eqb c "?")) (q :: rest) = true ->
  items_from false ("*"%char :: (q :: rest) ++ ["*"%char])
  = Many NotSlash :: map literal (q :: rest) ++ [Many NotSlash]
  /\ items_from false ("*"%char :: "*"%char :: (q :: rest) ++ ["*"%char; "*"%char])
     = Many Dot :: map literal (q :: rest) ++ [Many Dot].
Proof.
  intros H. split.
  - assert (Hq : Ascii.eqb q "*" = false).
    { cbn [forallb] in H. apply andb_prop in H as [[Hq _]%andb_prop _].
      by apply negb_true_iff in Hq. }
    change (("*"%char :: (q :: rest) ++ ["*"%char]))
      with ("*"%char :: q :: (rest ++ ["*"%char])).
    rewrite (items_star_other _ _ Hq).
    change (q :: rest ++ ["*"%char]) with ((q :: rest) ++ ["*"%char]).
    by rewrite (items_literals_then _ _ _ false H).
  - change (items_from false ("*"%char :: "*"%char :: ((q :: rest) ++ ["*"%char; "*"%char])))
      with (Many Dot :: items_from true ((q :: rest) ++ ["*"%char; "*"%char])).
    by rewrite (items_literals_then _ _ _ true H).
Qed.

Lemma matches_between a l input :
  matches (Many a :: map literal l ++ [Many a]) input = true
  <-> exists pre m post, input = pre ++ m ++ post
        /\ map to_lower m = map to_lower l
        /\ forallb (accepts a) pre = true /\ forallb (accepts a) post = true.
Proof.
  rewrite matches_many_iff. split.
  - intros (pre & tail & -> & Hpre & (m & tail' & -> & Hm & H)%matches_literals_iff).
    apply matches_many_iff in H as (post & e & -> & Hpost & ->%matches_nil).
    exists pre, m, post. by rewrite app_nil_r.
  - intros (pre & m & post & -> & Hm & Hpre & Hpost).
    exists pre, (m ++ post). split; [done|]. split; [done|].
    apply matches_literals_iff. exists m, post. split; [done|]. split; [done|].
    apply matches_many_iff. exists post, []. by rewrite app_nil_r.
Qed.

Lemma between_strings (P : list ascii -> Prop) l (s : string) :
  (exists pre m post, chars s = pre ++ m ++ post
     /\ map to_lower m = map to_lower l /\ P pre /\ P post)
  <-> exists a m b : string, s = (a ++ m ++ b)%string
        /\ map to_lower (chars m) = map to_lower l /\ P (chars a) /\ P (chars b).
Proof.
  split.
  - intros (pre & m & post & Hs & Hm & Hpre & Hpost).
    exists (string_of_list_ascii pre), (string_of_list_ascii m), (string_of_list_ascii post).
    rewrite !list_ascii_of_string_of_list_ascii, <- !of_chars_app, <- Hs.
    by rewrite string_of_list_ascii_of_string.
  - intros (a & m & b & -> & Hm & Ha & Hb).
    exists (chars a), (chars m), (chars b). by rewrite !chars_append.
Qed.

Lemma no_slash_iff l : forallb (accepts NotSlash) l = true <-> slashes l = 0.
Proof.
  unfold slashes. induction l as [|x l IH]; [done|].
  cbn [forallb accepts count_occ].
  destruct (Ascii.eqb_spec x "/") as [->|Hx].
  - by destruct (Ascii.ascii_dec "/" "/").
  - destruct (Ascii.ascii_dec x "/"); [done|]. cbn [negb andb]. exact IH.
Qed.

Lemma no_line_break_iff l :
  forallb (accepts Dot) l = true <-> existsb line_terminator l = false.
Proof.
  induction l as [|x l IH]; [done|]. cbn [forallb accepts existsb].
  destruct (line_terminator x); [done|]. exact IH.
Qed.

Lemma chars_between_stars (stars : string) q rest :
  chars (stars ++ String q rest ++ stars)%string
  = chars stars ++ (q :: chars rest) ++ chars stars.
Proof. by rewrite !chars_append. Qed.

(** X16. In ASCII text, for a non-empty [pattern] without [*] and [?], the
    glob [*pattern*] matches exactly the strings that hold [pattern], up to
    case, with no slash before it and none after it. *)
Theorem star_pattern_star pattern s :
  is_ascii pattern = true -> is_ascii s = true ->
  wildcard_free pattern = true -> pattern <> EmptyString ->
  RegExp_test (globToRegex ("*" ++ pattern ++ "*")) s = true
  <-> exists a m b : string,
        s = (a ++ m ++ b)%string /\ toLowerCase m = toLowerCase pattern
        /\ slashes (chars a) = 0 /\ slashes (chars b) = 0.
Proof.
  intros _ _ Hfree Hne. unfold RegExp_test, globToRegex.
  destruct pattern as [|q rest]; [done|].
  rewrite chars_between_stars.
  change (chars "*" ++ (q :: chars rest) ++ chars "*")
    with ("*"%char :: (q :: chars rest) ++ ["*"%char]).
  rewrite (proj1 (items_between_stars q (chars rest) Hfree)), matches_between.
  rewrite (between_strings (fun l => forallb (accepts NotSlash) l = true)).
  split; intros (a & m & b & Hs & Hm & Ha & Hb); exists a, m, b.
  - by rewrite toLowerCase_eq, <- !no_slash_iff.
  - by rewrite toLowerCase_eq, <- !no_slash_iff in *.
Qed.

(** X17. In ASCII text, for a non-empty [pattern] without [*] and [?], the
    glob [**pattern**] matches exactly the strings that hold [pattern], up
    to case, with no line break before it and none after it: slashes are
    crossed, line feeds and carriage returns are not. *)
Theorem globstar_pattern_globstar pattern s :
  is_ascii pattern = true -> is_ascii s = true ->
  wildcard_free pattern = true -> pattern <> EmptyString ->
  RegExp_test (globToRegex ("**" ++ pattern ++ "**")) s = true
  <-> exists a m b : string,
        s = (a ++ m ++ b)%string /\ toLowerCase m = toLowerCase pattern
        /\ existsb line_terminator (chars a) = false
        /\ existsb line_terminator (chars b) = false.
Proof.
  intros _ _ Hfree Hne. unfold RegExp_test, globToRegex.
  destruct pattern as [|q rest]; [done|].
  rewrite chars_between_stars.
  change (chars "**" ++ (q :: chars rest) ++ chars "**")
    with ("*"%char :: "*"%char :: (q :: chars rest) ++ ["*"%char; "*"%char]).
  rewrite (proj2 (items_between_stars q (chars rest) Hfree)), matches_between.
  rewrite (between_strings (fun l => forallb (accepts Dot) l = true)).
  split; intros (a & m & b & Hs & Hm & Ha & Hb); exists a, m, b.
  - by rewrite toLowerCase_eq, <- !no_line_break_iff.
  - by rewrite toLowerCase_eq, <- !no_line_break_iff in *.
Qed.

Lemma to_lower_slash c : Ascii.eqb (to_lower c) "/" = Ascii.eqb c "/".
Proof. destruct c as [[] [] [] [] [] [] [] []]; reflexivity. Qed.

Lemma literal_slash c x : char_eq true c x = true -> Ascii.eqb x "/" = Ascii.eqb c "/".
Proof.
  unfold char_eq. intros H%Ascii.eqb_eq.
  by rewrite <- (to_lower_slash x), <- H, to_lower_slash.
Qed.

Lemma slashes_cons x l :
  slashes (x :: l) = (if Ascii.eqb x "/" then 1 else 0) + slashes l.
Proof.
  unfold slashes. cbn [count_occ].
  destruct (Ascii.eqb_spec x "/") as [->|Hx];
    destruct (Ascii.ascii_dec _ "/"); done.
Qed.

Lemma matches_keeps_slashes items : forall input,
  forallb keeps_slashes items = true ->
  matches items input = true ->
  slashes input = list_sum (map item_slashes items).
Proof.
  induction items as [|i items IH]; intros input Hitems H.
  - by apply matches_nil in H as ->.
  - cbn [forallb] in Hitems. apply andb_prop in Hitems as [Hi Hitems].
    destruct i as [[| |e c]|[| |e c]]; try done.
    + destruct input as [|x input]; [done|]. cbn [matches] in H.
      apply andb_prop in H as [Hx H]. cbn [accepts] in Hx.
      apply negb_true_iff in Hx.
      rewrite slashes_cons, Hx. cbn [map list_sum item_slashes]. by rewrite (IH _ Hitems H).
    + destruct input as [|x input]; [done|]. cbn [matches] in H.
      apply andb_prop in H as [Hx H]. cbn [accepts] in Hx.
      rewrite slashes_cons, (literal_slash _ _ Hx). cbn [map list_sum item_slashes].
      by rewrite (IH _ Hitems H).
    + cbn [map list_sum item_slashes]. 
      induction input as [|x input IHin]; rewrite matches_many in H.
      * rewrite orb_false_r in H. by apply IH.
      * apply orb_prop in H as [H|[Hx H]%andb_prop]; [by apply IH|].
        cbn [accepts] in Hx. apply negb_true_iff in Hx.
        rewrite slashes_cons, Hx. by apply IHin.
Qed.

Lemma item_slashes_cons i items :
  list_sum (map item_slashes (i :: items))
  = item_slashes i + list_sum (map item_slashes items).
Proof. reflexivity. Qed.

Lemma items_without_globstar l :
  has_globstar l = false ->
  forallb keeps_slashes (items_from false l) = true
  /\ list_sum (map item_slashes (items_from false l)) = slashes l.
Proof.
  induction l as [|c l IH]; intros H; [done|].
  assert (Hl : has_globstar l = false /\ (Ascii.eqb c "*" = true ->
                 match l with next :: _ => Ascii.eqb next "*" = false | [] => True end)).
  { destruct l as [|next l]; [done|].
    change (has_globstar (c :: next :: l))
      with (Ascii.eqb c "*" && Ascii.eqb next "*" || has_globstar (next :: l)) in H.
    apply orb_false_elim in H as [Hpair H]. split; [done|].
    intros Hc. by rewrite Hc in Hpair. }
  destruct Hl as [Hl Hnext]. destruct (IH Hl) as [IHk IHs].
  rewrite slashes_cons.
  destruct (Ascii.eqb c "*") eqn:Hstar.
  - destruct l as [|next l].
    + apply Ascii.eqb_eq in Hstar as ->. done.
    + assert (Hc := Hstar). apply Ascii.eqb_eq in Hc as ->.
      rewrite (items_star_other _ _ (Hnext eq_refl)), item_slashes_cons.
      cbn [forallb keeps_slashes item_slashes andb].
      rewrite IHk, IHs. done.
  - cbn [items_from]. rewrite Hstar.
    destruct (Ascii.eqb c "?") eqn:Hq.
    + apply Ascii.eqb_eq in Hq as ->. rewrite item_slashes_cons.
      cbn [forallb keeps_slashes item_slashes andb].
      by rewrite IHk, IHs.
    + rewrite item_slashes_cons.
      cbn [forallb keeps_slashes item_slashes andb].
      by rewrite IHk, IHs.
Qed.

(** X18. Without a [**] in the pattern, a string that matches has as many
    slashes as the pattern: [*] and [?] never stand for a slash. *)
Theorem stars_keep_the_slashes pattern s :
  has_globstar (chars pattern) = false ->
  RegExp_test (globToRegex pattern) s = true ->
  slashes (chars s) = slashes (chars pattern).
Proof.
  intros Hno H. destruct (items_without_globstar _ Hno) as [Hk Hs].
  rewrite <- Hs. by apply matches_keeps_slashes.
Qed.

Lemma to_lower_star c : Ascii.eqb (to_lower c) "*" = Ascii.eqb c "*".
Proof. destruct c as [[] [] [] [] [] [] [] []]; reflexivity. Qed.

Lemma to_lower_question c : Ascii.eqb (to_lower c) "?" = Ascii.eqb c "?".
Proof. destruct c as [[] [] [] [] [] [] [] []]; reflexivity. Qed.

Lemma line_terminator_to_lower c : line_terminator (to_lower c) = line_terminator c.
Proof. destruct c as [[] [] [] [] [] [] [] []]; reflexivity. Qed.

Lemma items_lower_step c l :
  (forall flag, items_from flag (map to_lower l) = map lower_item (items_from flag l)) ->
  (forall flag next rest, l = next :: rest ->
     items_from flag (map to_lower rest) = map lower_item (items_from flag rest)) ->
  forall flag,
    items_from flag (map to_lower (c :: l)) = map lower_item (items_from flag (c :: l)).
Proof.
  intros Hl Hrest flag.
  cbn [map items_from]. rewrite to_lower_star, to_lower_question.
  destruct (Ascii.eqb c "*"); [|destruct (Ascii.eqb c "?")].
  - destruct flag; [apply Hl|].
    destruct l as [|next rest]; [done|].
    cbn [map]. rewrite to_lower_star.
    destruct (Ascii.eqb next "*").
    + cbn [map lower_item]. f_equal. by apply (Hrest true next rest).
    + cbn [map lower_item]. f_equal. apply (Hl false).
  - cbn [map lower_item]. f_equal. apply Hl.
  - cbn [map lower_item]. f_equal. apply Hl.
Qed.

Lemma items_lower l : forall after_globstar,
  items_from after_globstar (map to_lower l)
  = map lower_item (items_from after_globstar l).
Proof.
  assert (H : (forall flag, items_from flag (map to_lower l)
                            = map lower_item (items_from flag l))
              /\ (forall c flag, items_from flag (map to_lower (c :: l))
                                 = map lower_item (items_from flag (c :: l)))).
  { induction l as [|x l [IH1 IH2]].
    - split; [done|]. intros c. by apply items_lower_step.
    - split; [apply IH2|]. intros c. apply items_lower_step; [apply IH2|].
      intros flag next rest [= -> ->]. apply IH1. }
  apply H.
Qed.

Lemma accepts_lower a x :
  accepts a (to_lower x) = accepts a x.
Proof.
  destruct a as [| |e c]; cbn [accepts].
  - by rewrite line_terminator_to_lower.
  - by rewrite to_lower_slash.
  - unfold char_eq. by rewrite to_lower_idem.
Qed.

Lemma matches_lower items : forall input,
  matches (map lower_item items) (map to_lower input) = matches items input.
Proof.
  induction items as [|i items IH]; intros input.
  - by destruct input.
  - assert (Hone : forall a b, (forall x, accepts b x = accepts a x) ->
              matches (One b :: map lower_item items) (map to_lower input)
              = matches (One a :: items) input).
    { intros a b Hab. destruct input as [|x input]; [done|].
      cbn [map matches]. by rewrite Hab, accepts_lower, IH. }
    assert (Hmany : forall a,
              matches (Many a :: map lower_item items) (map to_lower input)
              = matches (Many a :: items) input).
    { intros a. clear Hone. induction input as [|x input IHin].
      - pose proof (IH []) as Hnil. cbn [map] in Hnil |- *.
        rewrite (matches_many a items), (matches_many a (map lower_item items)).
        by rewrite Hnil.
      - pose proof (IH (x :: input)) as Hcons. cbn [map] in Hcons |- *.
        rewrite (matches_many a items), (matches_many a (map lower_item items)).
        by rewrite Hcons, accepts_lower, IHin. }
    destruct i as [[| |e c]|a].
    + by apply Hone.
    + by apply Hone.
    + apply Hone. intros x. cbn [accepts]. unfold char_eq. by rewrite to_lower_idem.
    + destruct a; apply Hmany.
Qed.

(** X19. Matching ignores the case of the pattern and of the string. *)
Theorem glob_ignores_case pattern s :
  RegExp_test (globToRegex (toLowerCase pattern)) (toLowerCase s)
  = RegExp_test (globToRegex pattern) s.
Proof.
  unfold RegExp_test, globToRegex, toLowerCase.
  rewrite !list_ascii_of_string_of_list_ascii, items_lower. apply matches_lower.
Qed.
End GlobProperties.

(* ===================================================================== *)
(** ** Targets of the call and info commands *)
(* ===================================================================== *)

Section TargetProperties.
Import Targets.
Local Open Scope nat_scope.
Local Open Scope list_scope.
Local Abbreviation chars := list_ascii_of_string.


Lemma indexOf_first c s i :
  indexOf c s = Some i <->
  exists before after, s = before ++ c :: after /\ ~ In c before /\ length before = i.
Proof.
  revert i. induction s as [|x s IH]; intros i; cbn [indexOf].
  - split; [done|]. intros (before & after & H & _). by destruct before.
  - destruct (Ascii.eqb_spec x c) as [->|Hx].
    + split.
      * intros [= <-]. exists [], s. split; [done|]. split; [|done]. intros [].
      * intros (before & after & H & Hnot & <-).
        destruct before as [|y before]; [done|].
        injection H as <- _. exfalso. apply Hnot. by left.
    + destruct (indexOf c s) as [j|] eqn:Hj; cbn [fmap option_fmap option_map].
      * split.
        -- intros [= <-]. destruct (proj1 (IH j) eq_refl) as (before & after & -> & Hnot & <-).
           exists (x :: before), after. split; [done|]. split; [|done].
           intros [?|?]; [done|by apply Hnot].
        -- intros (before & after & H & Hnot & <-).
           destruct before as [|y before]; [by injection H as ->|].
           injection H as <- ->. f_equal. cbn [length]. f_equal.
           assert (Some j = Some (length before)) as [= ->]; [|done].
           apply IH. exists before, after. split; [done|]. split; [|done].
           intros ?. apply Hnot. by right.
      * split; [done|]. intros (before & after & H & Hnot & <-).
        destruct before as [|y before]; [by injection H as ->|].
        injection H as <- ->.
        assert (None = Some (length before)); [|done].
        apply IH. exists before, after. split; [done|]. split; [|done].
        intros ?. apply Hnot. by right.
Qed.

(** X20. [parseTarget] of the call command splits a target at its first
    slash: it gives [server] and [tool] exactly when the target is
    [server/tool] and [server] has no slash; a target without a slash is
    rejected. *)
Theorem call_parseTarget_splits_at_first_slash target server tool :
  call_parseTarget target = Some (server, tool)
  <-> target = (server ++ "/" ++ tool)%string /\ ~ In "/"%char (chars server).
Proof.
  unfold call_parseTarget. split.
  - destruct (indexOf "/" (chars target)) as [i|] eqn:Hi; [|done].
    apply indexOf_first in Hi as (before & after & Ht & Hnot & <-).
    rewrite Ht. unfold substring, substring_from.
    rewrite Nat.min_0_l, Nat.max_0_l, Nat.sub_0_r, drop_0, take_app_length.
    replace (length before + 1) with (length before + 1 + 0) by lia.
    rewrite <- Nat.add_assoc, drop_app_add'; [|done]. cbn [drop Nat.add].
    intros [= <- <-]. rewrite list_ascii_of_string_of_list_ascii. split; [|done].
    rewrite <- (string_of_list_ascii_of_string target), Ht.
    apply (f_equal string_of_list_ascii) in Ht.
    clear. induction before as [|x before IH]; [done|]. cbn. by rewrite IH.
  - intros [-> Hnot]. rewrite !chars_append.
    change (chars "/") with ["/"%char]. cbn [app].
    assert (Hi : indexOf "/" (chars server ++ "/"%char :: chars tool)
                 = Some (length (chars server))).
    { apply indexOf_first. by exists (chars server), (chars tool). }
    rewrite Hi. unfold substring, substring_from.
    rewrite Nat.min_0_l, Nat.max_0_l, Nat.sub_0_r, drop_0, take_app_length.
    replace (length (chars server) + 1) with (length (chars server) + 1 + 0) by lia.
    rewrite <- Nat.add_assoc, drop_app_add'; [|done]. cbn [drop Nat.add].
    by rewrite drop_0, !string_of_list_ascii_of_string.
Qed.

Lemma split_first s :
  split "/" s
  = match indexOf "/" s with
    | Some i => take i s :: split "/" (drop (S i) s)
    | None => [s]
    end.
Proof.
  induction s as [|x s IH]; [done|]. cbn [split indexOf].
  destruct (Ascii.eqb x "/"); [done|].
  rewrite IH. by destruct (indexOf "/" s).
Qed.

Lemma join_split s : join "/" (split "/" s) = s.
Proof.
  induction s as [|x s IH]; [done|]. cbn [split].
  destruct (Ascii.eqb_spec x "/") as [->|Hx].
  - destruct (split "/" s) as [|part parts] eqn:Hs; [by destruct s|].
    cbn [join app]. cbn [join] in IH. by rewrite IH.
  - destruct (split "/" s) as [|part parts]; [by destruct s|].
    destruct parts as [|part' parts]; cbn [join app] in *; by rewrite IH.
Qed.

Lemma split_not_nil s : split "/" s <> [].
Proof.
  destruct s as [|x s]; [done|]. cbn [split].
  destruct (Ascii.eqb x "/"); [done|]. by destruct (split "/" s).
Qed.

(** X21. [parseTarget] of the info command gives the server and the tool
    that [parseTarget] of the call command gives wherever the latter
    accepts the target, and the whole target as the server, without a
    tool, where it throws. *)
Theorem info_parseTarget_agrees_with_call target :
  info_parseTarget target
  = match call_parseTarget target with
    | Some (server, tool) => (server, Some tool)
    | None => (target, None)
    end.
Proof.
  unfold info_parseTarget, call_parseTarget. rewrite split_first.
  destruct (indexOf "/" (chars target)) as [i|].
  - unfold substring, substring_from.
    rewrite Nat.min_0_l, Nat.max_0_l, Nat.sub_0_r, drop_0, Nat.add_1_r.
    pose proof (split_not_nil (drop (S i) (chars target))) as Hne.
    pose proof (join_split (drop (S i) (chars target))) as Hjoin.
    destruct (split "/" (drop (S i) (chars target))) as [|part parts]; [done|].
    by rewrite Hjoin.
  - by rewrite string_of_list_ascii_of_string.
Qed.
End TargetProperties.

(* ===================================================================== *)
(** ** The search of the grep command and the cache *)
(* ===================================================================== *)

Section SearchProperties.
Import Client Cache Commands.
Context {ServerConfig : Type}.
Variable mcpServers : list (string * ServerConfig).
Variable connectToServer : string -> ServerConfig -> option Error.
Variable listTools : string -> Error + list ToolInfo.
Variable serverNotFoundError : string -> Error.
Variable runtime_TypeError : Error.
Variable JSON_parse : string -> option json.
Variable JSON_stringify : json -> string.
Variable StringToNumber : string -> option Z.
Variable ObjectToString : json -> string.
Variable proc : Process.
Variable pattern_test : string -> bool.

Local Abbreviation searchServerTools :=
  (searchServerTools mcpServers connectToServer listTools serverNotFoundError
     runtime_TypeError JSON_parse JSON_stringify StringToNumber ObjectToString proc
     pattern_test).
Local Abbreviation search_in := (search_in runtime_TypeError ObjectToString pattern_test).
Local Abbreviation search_tools := (search_tools ObjectToString pattern_test).
Local Abbreviation tool_matches := (tool_matches ObjectToString pattern_test).
Local Abbreviation getCachedToolList :=
  (getCachedToolList JSON_parse StringToNumber ObjectToString).

Lemma tool_matches_tool_json serverName t :
  tool_matches serverName (tool_json t)
  = Normal (pattern_test (Cache.name t)
            || pattern_test (serverName ++ "/" ++ Cache.name t)
            || match description t with
               | Some text => truthy_string text && pattern_test text
               | None => false
               end).
Proof. unfold Commands.tool_matches, tool_json. by destruct (description t). Qed.

Lemma search_tools_tools_json serverName tools :
  search_tools serverName (map tool_json tools)
  = Normal (map (fun t => mkSearchResult serverName (tool_json t))
              (List.filter
                 (fun t => pattern_test (Cache.name t)
                           || pattern_test (serverName ++ "/" ++ Cache.name t)
                           || match description t with
                              | Some text => truthy_string text && pattern_test text
                              | None => false
                              end)
                 tools)).
Proof.
  induction tools as [|t tools IH]; [done|].
  cbn [map Commands.search_tools List.filter].
  rewrite tool_matches_tool_json, IH. cbn [bind].
  by destruct (_ || _ || _).
Qed.

Lemma search_in_tools_json serverName tools :
  search_in serverName (tools_json tools)
  = mkServerSearchResult serverName
      (map (fun t => mkSearchResult serverName (tool_json t))
         (List.filter
            (fun t => pattern_test (Cache.name t)
                      || pattern_test (serverName ++ "/" ++ Cache.name t)
                      || match description t with
                         | Some text => truthy_string text && pattern_test text
                         | None => false
                         end)
            tools))
      None.
Proof.
  unfold Commands.search_in, tools_json. cbn [iterate bind].
  by rewrite search_tools_tools_json.
Qed.

(** X22. On the tools a server lists, the search of the grep command is a
    filter and never fails: it reports, in the order of the list, the
    tools whose name, whose [server/name] path or whose non-empty
    description the pattern matches. *)
Theorem search_in_filters_the_tools serverName tools :
  search_in serverName (tools_json tools)
  = mkServerSearchResult serverName
      (map (fun t => mkSearchResult serverName (tool_json t))
         (List.filter
            (fun t => pattern_test (Cache.name t)
                      || pattern_test (serverName ++ "/" ++ Cache.name t)
                      || match description t with
                         | Some text => truthy_string text && pattern_test text
                         | None => false
                         end)
            tools))
      None.
Proof. exact (search_in_tools_json serverName tools). Qed.

(** X23. A search of a server that ends with an error has written nothing
    to the cache. *)
Theorem failed_search_writes_no_cache serverName now now_store w :
  search_error (fst (searchServerTools serverName now now_store w)) <> None ->
  fs (snd (searchServerTools serverName now now_store w)) = fs w.
Proof.
  unfold Commands.searchServerTools. cbn [log fs trace].
  destruct (truthy _); [done|].
  destruct (getServerConfig _ _ _) as [e|c]; [done|].
  destruct (connectToServer _ _); [done|].
  destruct (listTools _) as [e|tools]; [done|].
  rewrite search_in_tools_json. cbn [fst search_error]. done.
Qed.

(** X24. After a search that missed the cache, connected and listed the
    tools, a second search of the same server within the TTL is served
    from the cache: it gives the same result, it does not connect, and it
    leaves the cache as it is. *)
Theorem second_search_is_served_from_cache
    serverName serverConfig tools now now_store later later_store w :
  isCacheDisabled proc = false ->
  JSON_parse (JSON_stringify (cached_json serverName tools now_store))
  = Some (cached_json serverName tools now_store) ->
  getCachedToolList proc now (fs w) serverName = Normal None ->
  lookup_server serverName mcpServers = Some serverConfig ->
  connectToServer serverName serverConfig = None ->
  listTools serverName = inr tools ->
  later - now_store <= getCacheTTLMs proc ->
  let first := searchServerTools serverName now now_store w in
  let second := searchServerTools serverName later later_store (snd first) in
  fst second = fst first
  /\ fs (snd second) = fs (snd first)
  /\ trace (snd second) = (trace (snd first) ++ [CacheLookup serverName])%list.
Proof.
  intros Hon Hparse Hmiss Hconfig Hconnect Hlist Hfresh first second.
  assert (Hfirst : first
            = (search_in serverName (tools_json tools),
               log (Close serverName)
                 (mkWorld (setCachedToolList JSON_stringify proc now_store (fs w)
                             serverName tools)
                    (trace (log (CacheStore serverName)
                       (log (ListTools serverName)
                          (log (Connect serverName)
                             (log (CacheLookup serverName) w)))))))).
  { unfold first, Commands.searchServerTools, getServerConfig. cbn [log fs trace].
    by rewrite Hmiss, Hconfig, Hconnect, Hlist. }
  assert (Hhit : getCachedToolList proc later (fs (snd first)) serverName
                 = Normal (Some (tools_json tools))).
  { rewrite Hfirst. cbn [snd log fs]. by apply set_then_get. }
  unfold second, Commands.searchServerTools. cbn [log fs trace].
  rewrite Hhit. cbn [truthy tools_json default]. by rewrite Hfirst.
Qed.
End SearchProperties.

Section ListOutput.
Import Client Cache Collation Commands.
Context {ServerConfig : Type}.
Variable mcpServers : list (string * ServerConfig).
Variable connectToServer : string -> ServerConfig -> option Error.
Variable listTools : string -> Error + list ToolInfo.
Variable serverNotFoundError : string -> Error.
Variable JSON_stringify : json -> string.
Variable localeCompare : string -> string -> Z.
Variable shouldColorize : bool.

Local Abbreviation listCommand :=
  (listCommand mcpServers connectToServer listTools serverNotFoundError
     JSON_stringify localeCompare shouldColorize).

(** X25. What the list command prints on standard output depends on the
    configuration and on what the servers answer only: not on the order in
    which the servers answer, not on [MCP_CONCURRENCY] and not on
    [MCP_DEBUG]. With [MCP_DEBUG] not set the same holds of all it prints,
    the diagnostics stream included. *)
Theorem listCommand_independent_of_schedule
    options MCP_CONCURRENCY MCP_CONCURRENCY' MCP_DEBUG MCP_DEBUG'
    unit_lines unit_lines' sched sched' w :
  stdout <$> listCommand options MCP_CONCURRENCY MCP_DEBUG unit_lines sched w
  = stdout <$> listCommand options MCP_CONCURRENCY' MCP_DEBUG' unit_lines' sched' w
  /\ listCommand options MCP_CONCURRENCY None unit_lines sched w
     = listCommand options MCP_CONCURRENCY' None unit_lines' sched' w.
Proof.
  destruct mcpServers as [|s servers] eqn:Hservers; [split; reflexivity|].
  rewrite <- Hservers.
  assert (Hne : mcpServers <> []) by (rewrite Hservers; discriminate).
  assert (Hout : forall concurrency debugged lines schedule,
            exists diagnostics,
              listCommand options concurrency debugged lines schedule w
              = Some (mkOutput
                        [if json_output options
                         then formatJson JSON_stringify
                                (JArr (map server_json
                                   (Array_sort (fun a b => localeCompare (name a) (name b))
                                      (map (fun serverName =>
                                              fst (Commands.fetchServerTools mcpServers
                                                     connectToServer listTools
                                                     serverNotFoundError serverName w))
                                           (listServerNames mcpServers)))))
                         else formatServerList shouldColorize
                                (map displayServer
                                   (Array_sort (fun a b => localeCompare (name a) (name b))
                                      (map (fun serverName =>
                                              fst (Commands.fetchServerTools mcpServers
                                                     connectToServer listTools
                                                     serverNotFoundError serverName w))
                                           (listServerNames mcpServers))))
                                (withDescriptions options)]
                        diagnostics)
              /\ (debugged = None -> diagnostics = [])).
  { intros concurrency debugged lines schedule.
    destruct (listCommand_eq mcpServers connectToServer listTools serverNotFoundError
                JSON_stringify localeCompare shouldColorize
                options concurrency debugged lines schedule w Hne)
      as (l & _ & -> & ->).
    eexists. split; [reflexivity|]. by intros ->. }
  split.
  - destruct (Hout MCP_CONCURRENCY MCP_DEBUG unit_lines sched) as (d & -> & _).
    by destruct (Hout MCP_CONCURRENCY' MCP_DEBUG' unit_lines' sched') as (d' & -> & _).
  - destruct (Hout MCP_CONCURRENCY None unit_lines sched) as (d & -> & Hd).
    destruct (Hout MCP_CONCURRENCY' None unit_lines' sched') as (d' & -> & Hd').
    by rewrite (Hd eq_refl), (Hd' eq_refl).
Qed.
End ListOutput.

(* ===================================================================== *)
(** ** Environment variables in the configuration *)
(* ===================================================================== *)

Section SubstitutionProperties.
Import Substitution.
Local Open Scope nat_scope.
Local Open Scope list_scope.
Variable env : string -> option string.
Local Abbreviation chars := list_ascii_of_string.
Local Abbreviation replace := (replace env).
Local Abbreviation substituteEnvVars := (substituteEnvVars env).

Lemma until_brace_None s : ~ In "}"%char s -> until_brace s = None.
Proof.
  induction s as [|c s IH]; intros Hs; [done|]. cbn [until_brace].
  destruct (Ascii.eqb_spec c "}") as [->|_]; [exfalso; apply Hs; by left|].
  rewrite IH; [done|]. intros H. apply Hs. by right.
Qed.

Lemma until_brace_name name after :
  ~ In "}"%char name -> until_brace (name ++ "}"%char :: after) = Some (name, after).
Proof.
  induction name as [|c name IH]; intros Hname; [done|].
  cbn [app until_brace].
  destruct (Ascii.eqb_spec c "}") as [->|_]; [exfalso; apply Hname; by left|].
  rewrite IH; [done|]. intros H. apply Hname. by right.
Qed.

Lemma reference_None s :
  ~ In "$"%char s \/ ~ In "}"%char s -> reference s = None.
Proof.
  intros H. destruct s as [|dollar [|brace rest]]; [done..|].
  cbn [reference].
  destruct (Ascii.eqb_spec dollar "$") as [->|_]; [|done].
  destruct (Ascii.eqb_spec brace "{") as [->|_]; [|done]. cbn [andb].
  destruct H as [H|H]; [exfalso; apply H; by left|].
  rewrite until_brace_None; [done|]. intros Hin. apply H. right. by right.
Qed.

Lemma replace_unchanged fuel : forall s,
  ~ In "$"%char s \/ ~ In "}"%char s -> replace fuel s = (s, []).
Proof.
  induction fuel as [|fuel IH]; intros s Hs; [done|].
  destruct s as [|c s]; [done|].
  cbn [Substitution.replace]. rewrite (reference_None _ Hs).
  rewrite IH; [done|].
  destruct Hs as [H|H]; [left|right]; intros Hin; apply H; by right.
Qed.

(** X26. [substituteEnvVars] returns a value that has no [$], or no [}],
    as it is, without a warning and without an error, whatever the
    environment. *)
Theorem substituteEnvVars_leaves_plain_values value :
  ~ In "$"%char (chars value) \/ ~ In "}"%char (chars value) ->
  substituteEnvVars value = Returns value None.
Proof.
  intros H. unfold Substitution.substituteEnvVars.
  rewrite (replace_unchanged _ _ H). by rewrite string_of_list_ascii_of_string.
Qed.

Lemma replace_prefix prefix : forall fuel s,
  ~ In "$"%char prefix ->
  replace (length prefix + fuel) (prefix ++ s)
  = (prefix ++ fst (replace fuel s), snd (replace fuel s)).
Proof.
  induction prefix as [|c prefix IH]; intros fuel s Hp.
  - cbn [length app Nat.add]. by destruct (replace fuel s).
  - cbn [length app Nat.add Substitution.replace].
    assert (Href : reference (c :: prefix ++ s) = None).
    { destruct (prefix ++ s) as [|brace rest]; [done|]. cbn [reference].
      destruct (Ascii.eqb_spec c "$") as [->|_]; [exfalso; apply Hp; by left|done]. }
    rewrite Href, IH; [done|]. intros H. apply Hp. by right.
Qed.

Lemma replace_reference fuel c name after :
  ~ In "}"%char (c :: name) ->
  replace (S fuel) ("$"%char :: "{"%char :: (c :: name) ++ "}"%char :: after)
  = match env (string_of_list_ascii (c :: name)) with
    | None => (fst (replace fuel after),
               string_of_list_ascii (c :: name) :: snd (replace fuel after))
    | Some envValue => (chars envValue ++ fst (replace fuel after), snd (replace fuel after))
    end.
Proof.
  intros Hname.
  assert (Href : reference ("$"%char :: "{"%char :: (c :: name) ++ "}"%char :: after)
                 = Some (c :: name, after)).
  { unfold reference. cbn [Ascii.eqb Bool.eqb andb].
    by rewrite (until_brace_name (c :: name) after Hname). }
  change (replace (S fuel) ("$"%char :: "{"%char :: (c :: name) ++ "}"%char :: after))
    with (match reference ("$"%char :: "{"%char :: (c :: name) ++ "}"%char :: after) with
          | Some (name, after) =>
              let varName := string_of_list_ascii name in
              let '(result, missingVars) := replace fuel after in
              match env varName with
              | None => (result, varName :: missingVars)
              | Some envValue => (chars envValue ++ result, missingVars)
              end
          | None =>
              let '(result, missingVars) :=
                replace fuel ("{"%char :: (c :: name) ++ "}"%char :: after) in
              ("$"%char :: result, missingVars)
          end).
  rewrite Href. cbn zeta. destruct (replace fuel after). by destruct (env _).
Qed.

Lemma replace_one prefix name suffix :
  ~ In "$"%char (chars prefix) -> name <> EmptyString ->
  ~ In "}"%char (chars name) -> ~ In "$"%char (chars suffix) ->
  replace (length (chars (prefix ++ "${" ++ name ++ "}" ++ suffix)%string))
          (chars (prefix ++ "${" ++ name ++ "}" ++ suffix)%string)
  = match env name with
    | None => (chars (prefix ++ suffix)%string, [name])
    | Some envValue => (chars (prefix ++ envValue ++ suffix)%string, [])
    end.
Proof.
  intros Hprefix Hne Hname Hsuffix.
  destruct name as [|c name]; [done|].
  rewrite !chars_append.
  change (chars "${") with ["$"%char; "{"%char]. change (chars "}") with ["}"%char].
  change (chars (String c name)) with (c :: chars name) in *.
  rewrite length_app, (replace_prefix _ _ _ Hprefix).
  change (["$"%char; "{"%char] ++ (c :: chars name) ++ ["}"%char] ++ chars suffix)
    with ("$"%char :: "{"%char :: (c :: chars name) ++ "}"%char :: chars suffix).
  change (length ("$"%char :: "{"%char :: (c :: chars name) ++ "}"%char :: chars suffix))
    with (S (S (length ((c :: chars name) ++ "}"%char :: chars suffix)))).
  rewrite (replace_reference _ c (chars name) (chars suffix) Hname).
  rewrite (replace_unchanged _ _ (or_introl Hsuffix)). cbn [fst snd].
  change (string_of_list_ascii (c :: chars name))
    with (String c (string_of_list_ascii (chars name))).
  rewrite string_of_list_ascii_of_string.
  destruct (env (String c name)); by rewrite ?chars_append.
Qed.

(** X27. A reference [${name}] to a variable that is set is replaced by
    the value of the variable as it is: the value is not read again for
    references, and the text around the reference is kept. *)
Theorem defined_variable_is_substituted_verbatim prefix name envValue suffix :
  ~ In "$"%char (chars prefix) -> name <> EmptyString ->
  ~ In "}"%char (chars name) -> ~ In "$"%char (chars suffix) ->
  env name = Some envValue ->
  substituteEnvVars (prefix ++ "${" ++ name ++ "}" ++ suffix)%string
  = Returns (prefix ++ envValue ++ suffix)%string None.
Proof.
  intros Hprefix Hne Hname Hsuffix Henv. unfold Substitution.substituteEnvVars.
  rewrite (replace_one _ _ _ Hprefix Hne Hname Hsuffix), Henv.
  by rewrite string_of_list_ascii_of_string.
Qed.

(** X28. A reference to a variable that is not set: in strict mode, the
    default, [substituteEnvVars] throws an error whose message is the
    text [formatCliError] gives for the type [MISSING_ENV_VAR], with the
    line that names the variable, the details and the suggestion; with
    [MCP_STRICT_ENV] set to [false] or [0] it puts nothing in the place of
    the reference and prints a warning that names the variable. *)
Theorem missing_variable_throws_or_warns prefix name suffix :
  ~ In "$"%char (chars prefix) -> name <> EmptyString ->
  ~ In "}"%char (chars name) -> ~ In "$"%char (chars suffix) ->
  env name = None ->
  substituteEnvVars (prefix ++ "${" ++ name ++ "}" ++ suffix)%string
  = if isStrictEnvMode env
    then Throws
           (Errors.formatCliError
              (Errors.mkCliError 1 "MISSING_ENV_VAR"
                 ("Missing environment variable: ${" ++ name ++ "}")%string
                 (Some "Referenced in config but not set in environment")
                 (Some ("Set the variable(s) before running: export " ++ name ++ "="
                        ++ String Cache.Text.dquote
                             ("value"
                              ++ String Cache.Text.dquote
                                   " or set MCP_STRICT_ENV=false to use empty values"))%string)))
    else Returns (prefix ++ suffix)%string
           (Some ("[mcp-cli] Warning: Missing environment variable: ${" ++ name ++ "}")%string).
Proof.
  intros Hprefix Hne Hname Hsuffix Henv. unfold Substitution.substituteEnvVars.
  rewrite (replace_one _ _ _ Hprefix Hne Hname Hsuffix), Henv.
  by rewrite string_of_list_ascii_of_string.
Qed.
End SubstitutionProperties.

(* ===================================================================== *)
(** ** These properties on concrete inputs *)
(* ===================================================================== *)

Section MoreInstances.
Import Client Cache CacheAdmin Config Glob Substitution Commands Examples Samples Ascii7.

Local Abbreviation get :=
  (getCachedToolList Text.parse not_a_number object_string).

(** With the default configuration, an operation that always answers 503
    is invoked four times, with three sleeps. *)
Lemma withRetry_exhausts_retries_witness :
  invocations (snd (withRetry (failing (new_Error "503 Service Unavailable")) default_config))
  = (maxRetries default_config + 1)%nat /\
  length (sleeps (snd (withRetry (failing (new_Error "503 Service Unavailable"))
                         default_config)))
  = maxRetries default_config /\
  exists e, fn (failing (new_Error "503 Service Unavailable")) (maxRetries default_config)
            = inl e /\
            fst (withRetry (failing (new_Error "503 Service Unavailable")) default_config)
            = Thrown (Some e).
Proof.
  apply (withRetry_exhausts_retries (failing (new_Error "503 Service Unavailable"))
           default_config).
  - intros k. exists (new_Error "503 Service Unavailable").
    split; [reflexivity | vm_compute; reflexivity].
  - intros k Hk.
    change (Z.of_nat k - 0 < 1800000 - 1000). change (k <= 8)%nat in Hk. lia.
Defined.

(** The delays of the same operation under the default settings. *)
Lemma withRetry_sleeps_bounded_witness :
  Forall (fun delay => 0 <= delay <= 12500)
         (sleeps (snd (withRetry (failing (new_Error "503 Service Unavailable"))
                         (retryConfig (mkEnvironment None None None))))).
Proof.
  apply (withRetry_sleeps_bounded (failing (new_Error "503 Service Unavailable"))
           (mkEnvironment None None None)).
  intros k. split; vm_compute; discriminate.
Defined.

(** An entry read a millisecond after the default TTL of an hour has gone
    by. *)
Lemma cache_entry_expires_witness :
  get proc0 1705539600001
    (setCachedToolList Text.stringify proc0 1705536000000 ∅ "github" mockTools) "github"
  = Normal (if (getCacheTTLMs proc0 <? 1705539600001 - 1705536000000)%Z then None
            else Some (tools_json mockTools)).
Proof.
  apply (cache_entry_expires Text.parse Text.stringify not_a_number object_string
           proc0 1705536000000 1705539600001 ∅ "github" mockTools).
  - reflexivity.
  - vm_compute. reflexivity.
Defined.

(** The servers [my.server] and [my_server] share a cache file. *)
Lemma cache_shared_by_names_with_equal_sanitised_form_witness :
  get proc0 1705536001000
    (setCachedToolList Text.stringify proc0 1705536000000 ∅ "my.server" mockTools)
    "my_server"
  = Normal (Some (tools_json mockTools)).
Proof.
  apply (cache_shared_by_names_with_equal_sanitised_form
           Text.parse Text.stringify not_a_number object_string
           proc0 1705536000000 1705536001000 ∅ "my.server" "my_server" mockTools).
  - reflexivity.
  - reflexivity.
  - reflexivity.
  - vm_compute. reflexivity.
  - vm_compute. discriminate.
  - reflexivity.
Defined.

(** The servers [github] and [filesystem] do not. *)
Lemma cache_entries_of_safe_names_are_separate_witness :
  get proc0 1705536001000
    (setCachedToolList Text.stringify proc0 1705536000000 ∅ "github" mockTools)
    "filesystem"
  = get proc0 1705536001000 ∅ "filesystem"
  /\ get proc0 1705536001000 (clearServerCache proc0 ∅ "github") "filesystem"
     = get proc0 1705536001000 ∅ "filesystem".
Proof.
  apply (cache_entries_of_safe_names_are_separate
           Text.parse Text.stringify not_a_number object_string
           proc0 1705536000000 1705536001000 ∅ "github" "filesystem" mockTools).
  - reflexivity.
  - reflexivity.
  - discriminate.
Defined.

Lemma plain_pattern_matches_up_to_case_witness :
  RegExp_test (globToRegex "Read_File") "read_file" = true
  <-> toLowerCase "read_file" = toLowerCase "Read_File".
Proof.
  apply (plain_pattern_matches_up_to_case "Read_File" "read_file"); reflexivity.
Defined.

Lemma star_pattern_star_witness :
  RegExp_test (globToRegex ("*" ++ "file" ++ "*")) "read_file" = true
  <-> exists a m b : string,
        "read_file" = a ++ m ++ b /\ toLowerCase m = toLowerCase "file"
        /\ slashes (list_ascii_of_string a) = 0%nat
        /\ slashes (list_ascii_of_string b) = 0%nat.
Proof.
  apply (star_pattern_star "file" "read_file"); [reflexivity.. | discriminate].
Defined.

Lemma globstar_pattern_globstar_witness :
  RegExp_test (globToRegex ("**" ++ "test" ++ "**")) "server/test/tool" = true
  <-> exists a m b : string,
        "server/test/tool" = a ++ m ++ b /\ toLowerCase m = toLowerCase "test"
        /\ existsb line_terminator (list_ascii_of_string a) = false
        /\ existsb line_terminator (list_ascii_of_string b) = false.
Proof.
  apply (globstar_pattern_globstar "test" "server/test/tool");
    [reflexivity.. | discriminate].
Defined.

Lemma stars_keep_the_slashes_witness :
  slashes (list_ascii_of_string "server/tool") = slashes (list_ascii_of_string "server/*").
Proof. apply (stars_keep_the_slashes "server/*" "server/tool"); reflexivity. Defined.

(** A server that cannot be connected to: the search fails and the cache
    stays empty. *)
Lemma failed_search_writes_no_cache_witness :
  fs (snd (searchServerTools github (connects_except ["github"]) (serves mockTools)
             not_found type_error Text.parse Text.stringify not_a_number object_string
             proc0 (fun _ => true) "github" 1705536000000 1705536000000 (mkWorld ∅ [])))
  = fs (mkWorld ∅ []).
Proof.
  apply (failed_search_writes_no_cache github (connects_except ["github"])
           (serves mockTools) not_found type_error Text.parse Text.stringify
           not_a_number object_string proc0 (fun _ => true)
           "github" 1705536000000 1705536000000 (mkWorld ∅ [])).
  vm_compute. discriminate.
Defined.

(** Two searches of the server [github], a second apart, from an empty
    cache. *)
Lemma second_search_is_served_from_cache_witness :
  let first :=
    searchServerTools github (connects_except []) (serves mockTools)
      not_found type_error Text.parse Text.stringify not_a_number object_string
      proc0 (fun _ => true) "github" 1705536000000 1705536000000 (mkWorld ∅ []) in
  let second :=
    searchServerTools github (connects_except []) (serves mockTools)
      not_found type_error Text.parse Text.stringify not_a_number object_string
      proc0 (fun _ => true) "github" 1705536001000 1705536001000 (snd first) in
  fst second = fst first
  /\ fs (snd second) = fs (snd first)
  /\ trace (snd second) = (trace (snd first) ++ [CacheLookup "github"])%list.
Proof.
  apply (second_search_is_served_from_cache github (connects_except [])
           (serves mockTools) not_found type_error Text.parse Text.stringify
           not_a_number object_string proc0 (fun _ => true)
           "github" tt mockTools 1705536000000 1705536000000 1705536001000 1705536001000
           (mkWorld ∅ [])).
  - reflexivity.
  - vm_compute. reflexivity.
  - reflexivity.
  - reflexivity.
  - reflexivity.
  - reflexivity.
  - vm_compute. discriminate.
Defined.

Lemma substituteEnvVars_leaves_plain_values_witness :
  substituteEnvVars home_only "npx" = Returns "npx" None.
Proof.
  apply (substituteEnvVars_leaves_plain_values home_only "npx").
  left. cbn. intuition discriminate.
Defined.

Lemma defined_variable_is_substituted_verbatim_witness :
  substituteEnvVars home_only ("--root=" ++ "${" ++ "HOME" ++ "}" ++ "/data")
  = Returns ("--root=" ++ "/home/user" ++ "/data") None.
Proof.
  apply (defined_variable_is_substituted_verbatim home_only "--root=" "HOME"
           "/home/user" "/data").
  - cbn. intuition discriminate.
  - discriminate.
  - cbn. intuition discriminate.
  - cbn. intuition discriminate.
  - reflexivity.
Defined.

(** The variable [TOKEN] is not set, and neither is [MCP_STRICT_ENV]. *)
Lemma missing_variable_throws_or_warns_witness :
  substituteEnvVars home_only ("Bearer " ++ "${" ++ "TOKEN" ++ "}" ++ EmptyString)
  = Throws
      (String.concat newline
         ["Error [MISSING_ENV_VAR]: Missing environment variable: ${TOKEN}";
          "  Details: Referenced in config but not set in environment";
          "  Suggestion: Set the variable(s) before running: export TOKEN="
          ++ String Text.dquote
               ("value" ++ String Text.dquote
                             " or set MCP_STRICT_ENV=false to use empty values")]).
Proof.
  etransitivity.
  - apply (missing_variable_throws_or_warns home_only "Bearer " "TOKEN" EmptyString).
    + cbn. intuition discriminate.
    + discriminate.
    + cbn. intuition discriminate.
    + cbn. intuition discriminate.
    + reflexivity.
  - vm_compute. reflexivity.
Defined.

End MoreInstances.
